(** * eBook Architect: the generation orchestrator and the PDF pagination

    A shallow embedding of
      - [src/types.ts] (the data model),
      - [src/services/geminiService.ts] (the content provider client),
      - [src/App.tsx] (outline synthesis, review edits, full generation),
      - [src/components/BookReader.tsx] ([handleDownloadPdf])
    and the properties of the specification that are about them.

    Asynchronous functions are modelled in a state-and-exception monad over
    a [World]: the React state of [App], the activation record of the running
    [startFullGeneration], and a log of everything the run makes observable
    (status changes, provider calls, published [bookData] snapshots,
    progress updates). In that model a function passed to [setBookData] is
    called as it is passed. [Scheduled] has the full generation with what
    React decides left open: when it calls the functions queued, when it
    renders, and what else sets the project in between; the first model
    is the second under the timely schedules, in which React renders
    whenever the run is suspended and calls a function that finds nothing
    queued before [setBookData] returns
    ([call_time_run_is_a_timely_run]). *)

From Stdlib Require Import ZArith QArith Qround Qminmax Lia Lqa.
From stdpp Require Import base list strings pretty gmap.

Local Open Scope string_scope.
Local Open Scope list_scope.
Local Open Scope nat_scope.

(** ** JavaScript values *)

(** [!!v] for an optional string: [undefined] and the empty string are falsy. *)
Definition truthy (v : option string) : bool :=
  match v with
  | Some s => negb (String.eqb s "")
  | None => false
  end.

(** [a || b] on strings. *)
Definition or_else (a b : string) : string :=
  if String.eqb a "" then b else a.

(** [hay.includes(needle)]. *)
Fixpoint includes (needle hay : string) : bool :=
  String.prefix needle hay ||
  match hay with
  | EmptyString => false
  | String _ rest => includes needle rest
  end.

(** What [JSON.parse] returns. *)
#[local] Unset Elimination Schemes.
Inductive json :=
| JNull
| JBool (b : bool)
| JNum (n : Z)
| JStr (s : string)
| JArr (items : list json)
| JObj (fields : list (string * json)).
#[local] Set Elimination Schemes.

(** [v[key]]: the last binding of a key wins, every non-object has no
    JSON-made property. *)
Fixpoint assoc (key : string) (fields : list (string * json)) : option json :=
  match fields with
  | [] => None
  | (k, v) :: rest =>
      match assoc key rest with
      | Some v' => Some v'
      | None => if String.eqb k key then Some v else None
      end
  end.

Definition prop (key : string) (v : json) : option json :=
  match v with
  | JObj fields => assoc key fields
  | _ => None
  end.

(** A property read at type [string] (the declared type of every field of
    the outline); a property of another type is read as absent. *)
Definition str_prop (key : string) (v : json) : option string :=
  match prop key v with
  | Some (JStr s) => Some s
  | _ => None
  end.

(** ** Data model ([src/types.ts]) *)

Inductive GenerationStatus :=
| IDLE
| GENERATING_OUTLINE
| REVIEWING_OUTLINE
| GENERATING_BOOK
| COMPLETED
| ERROR.

Inductive ChapterStatus :=
| pending
| generating_text
| generating_image
| completed
| error.

Inductive BookFormat := ebook | linkedin_carousel.

Record Chapter := mkChapter {
  ch_id : string;
  ch_title : string;
  ch_description : string;
  ch_content : option string;
  ch_imageUrl : option string;
  ch_status : ChapterStatus
}.

Record BookConfig := mkBookConfig {
  cfg_topic : string;
  cfg_title : string;
  cfg_authorName : string;
  cfg_audience : string;
  cfg_tone : string;
  cfg_enableSearch : bool;
  cfg_style : string;
  cfg_chapterCount : Z;
  cfg_format : BookFormat
}.

Record BookData := mkBookData {
  bd_config : BookConfig;
  bd_coverImage : option string;
  bd_outline : list Chapter;
  bd_generatedAt : Z
}.

Global Instance ChapterStatus_eq_dec : EqDecision ChapterStatus.
Proof. solve_decision. Defined.
Global Instance GenerationStatus_eq_dec : EqDecision GenerationStatus.
Proof. solve_decision. Defined.
Global Instance BookFormat_eq_dec : EqDecision BookFormat.
Proof. solve_decision. Defined.

(** Object spreads [{ ...c, field: v }]. *)
Definition with_status (s : ChapterStatus) (c : Chapter) : Chapter :=
  mkChapter (ch_id c) (ch_title c) (ch_description c) (ch_content c) (ch_imageUrl c) s.
Definition with_content (t : string) (c : Chapter) : Chapter :=
  mkChapter (ch_id c) (ch_title c) (ch_description c) (Some t) (ch_imageUrl c) (ch_status c).
Definition with_imageUrl (u : string) (c : Chapter) : Chapter :=
  mkChapter (ch_id c) (ch_title c) (ch_description c) (ch_content c) (Some u) (ch_status c).
Definition with_ch_title (t : string) (c : Chapter) : Chapter :=
  mkChapter (ch_id c) t (ch_description c) (ch_content c) (ch_imageUrl c) (ch_status c).
Definition with_ch_description (d : string) (c : Chapter) : Chapter :=
  mkChapter (ch_id c) (ch_title c) d (ch_content c) (ch_imageUrl c) (ch_status c).

Definition with_cfg_title (t : string) (c : BookConfig) : BookConfig :=
  mkBookConfig (cfg_topic c) t (cfg_authorName c) (cfg_audience c) (cfg_tone c)
    (cfg_enableSearch c) (cfg_style c) (cfg_chapterCount c) (cfg_format c).

Definition with_outline (o : list Chapter) (b : BookData) : BookData :=
  mkBookData (bd_config b) (bd_coverImage b) o (bd_generatedAt b).
Definition with_coverImage (u : string) (b : BookData) : BookData :=
  mkBookData (bd_config b) (Some u) (bd_outline b) (bd_generatedAt b).
Definition with_config (c : BookConfig) (b : BookData) : BookData :=
  mkBookData c (bd_coverImage b) (bd_outline b) (bd_generatedAt b).

Definition INITIAL_CONFIG : BookConfig :=
  mkBookConfig "" "" "" "General Reader" "Informative & Engaging" true
    "Modern Minimalist" 5%Z ebook.

(** ** The world of a run *)

Record Progress := mkProgress {
  current : nat;
  total : nat;
  message : string
}.

(** The React state of the [App] component. *)
Record App := mkApp {
  app_status : GenerationStatus;
  app_config : BookConfig;
  app_bookData : option BookData;
  app_error : option string;
  app_isApiKeyModalOpen : bool;
  app_generationProgress : Progress
}.

(** The local variables of one activation of [startFullGeneration]. *)
Record Frame := mkFrame {
  totalSteps : nat;
  completedSteps : nat;
  newOutline : list Chapter;
  fullText : string
}.

(** A call of an exported function of [geminiService.ts], with its
    arguments. *)
Inductive ProviderCall :=
| CallOutline (config : BookConfig)
| CallCover (title style : string) (format : BookFormat)
| CallChapterStream (chapter : Chapter) (bookTitle : string)
    (config : BookConfig) (previousChapterSummary : option string)
| CallIllustration (chapterTitle style : string) (format : BookFormat).

Inductive Event :=
| StatusSet (s : GenerationStatus)
| Called (c : ProviderCall)
| Published (snapshot : option BookData)
| ProgressShown (p : Progress)
| ConsoleError (label : string).

Record World := mkWorld {
  app : App;
  frame : Frame;
  log : list Event
}.

(** How a computation ends: normally, or by a thrown [Error] of which only
    the message is ever read. *)
Inductive Completion (A : Type) :=
| Normal (a : A)
| Throw (msg : string).
Arguments Normal {A} a.
Arguments Throw {A} msg.

Definition M (A : Type) : Type := World -> Completion A * World.

Global Instance M_ret : MRet M := fun A a w => (Normal a, w).
Global Instance M_bind : MBind M := fun A B f m w =>
  match m w with
  | (Normal a, w') => f a w'
  | (Throw e, w') => (Throw e, w')
  end.

Definition throw {A} (msg : string) : M A := fun w => (Throw msg, w).

(** [try { body } catch (e) { handler }]: what [body] did to the world
    before it threw stays done. *)
Definition try_catch {A} (body : M A) (handler : string -> M A) : M A :=
  fun w =>
    match body w with
    | (Normal a, w') => (Normal a, w')
    | (Throw e, w') => handler e w'
    end.

(** An already settled promise or call, lifted. *)
Definition settle {A} (c : Completion A) : M A := fun w => (c, w).

Definition read {A} (f : World -> A) : M A := fun w => (Normal (f w), w).
Definition update (f : World -> World) : M unit := fun w => (Normal tt, f w).
Definition emit (e : Event) : M unit :=
  update (fun w => mkWorld (app w) (frame w) (log w ++ [e])).
Definition update_app (f : App -> App) : M unit :=
  update (fun w => mkWorld (f (app w)) (frame w) (log w)).
Definition update_frame (f : Frame -> Frame) : M unit :=
  update (fun w => mkWorld (app w) (f (frame w)) (log w)).

(** The state setters of [App]. *)
Definition setStatus (s : GenerationStatus) : M unit :=
  update_app (fun a => mkApp s (app_config a) (app_bookData a) (app_error a)
    (app_isApiKeyModalOpen a) (app_generationProgress a)) ;;
  emit (StatusSet s).
Definition setConfig (c : BookConfig) : M unit :=
  update_app (fun a => mkApp (app_status a) c (app_bookData a) (app_error a)
    (app_isApiKeyModalOpen a) (app_generationProgress a)).
Definition setError (e : option string) : M unit :=
  update_app (fun a => mkApp (app_status a) (app_config a) (app_bookData a) e
    (app_isApiKeyModalOpen a) (app_generationProgress a)).
Definition setIsApiKeyModalOpen (b : bool) : M unit :=
  update_app (fun a => mkApp (app_status a) (app_config a) (app_bookData a)
    (app_error a) b (app_generationProgress a)).
Definition setGenerationProgress (p : Progress) : M unit :=
  update_app (fun a => mkApp (app_status a) (app_config a) (app_bookData a)
    (app_error a) (app_isApiKeyModalOpen a) p) ;;
  emit (ProgressShown p).
Definition store_bookData (b : option BookData) (a : App) : App :=
  mkApp (app_status a) (app_config a) b (app_error a)
    (app_isApiKeyModalOpen a) (app_generationProgress a).
(** [setBookData(prev => f(prev))]; every new value is observable. *)
Definition setBookData (f : option BookData -> option BookData) : M unit :=
  b ← read (fun w => f (app_bookData (app w))) ;
  update_app (store_bookData b) ;;
  emit (Published b).
Definition console_error (label : string) : M unit := emit (ConsoleError label).

(** ** The content provider client ([src/services/geminiService.ts]) *)

Record InlineData := mkInlineData {
  mimeType : string;
  data : string
}.

(** What the outside answers during one run: the stored credential, the
    clock, and the answer of the SDK at each call site (the cover, and the
    text stream and the illustration of the section at each index). A text
    stream is the [text] of each chunk followed, when it breaks, by the
    error. *)
Record Provider := mkProvider {
  apiKey : option string;
  now : Z;
  outline_answer : Completion (option string);
  cover_answer : Completion (list (option InlineData));
  stream_answer : nat -> Completion (list (option string) * option string);
  illustration_answer : nat -> Completion (list (option InlineData))
}.

Definition API_KEY_MISSING : string :=
  "API Key missing. Please add your Gemini API Key in the settings.".

Definition getClient (P : Provider) : Completion unit :=
  if truthy (apiKey P) then Normal tt else Throw API_KEY_MISSING.

(** The first part that carries [inlineData], as a data URL. *)
Fixpoint first_inline (parts : list (option InlineData)) : Completion string :=
  match parts with
  | [] => Throw "No image generated"
  | Some d :: _ => Normal ("data:" +:+ mimeType d +:+ ";base64," +:+ data d)
  | None :: rest => first_inline rest
  end.

Definition generateImage (P : Provider)
    (answer : Completion (list (option InlineData))) : Completion string :=
  match getClient P with
  | Throw e => Throw e
  | Normal _ =>
      match answer with
      | Throw e => Throw e
      | Normal parts => first_inline parts
      end
  end.

Definition generateBookCover (P : Provider) (title style : string)
    (format : BookFormat) : M string :=
  emit (Called (CallCover title style format)) ;;
  settle (generateImage P (cover_answer P)).

Definition generateChapterIllustration (P : Provider) (i : nat)
    (chapterTitle style : string) (format : BookFormat) : M string :=
  emit (Called (CallIllustration chapterTitle style format)) ;;
  settle (generateImage P (illustration_answer P i)).

(** An async generator once created: the fragments it will yield and, when
    it ends by throwing, the error. *)
Record Generator := mkGenerator {
  yields : list string;
  failure : option string
}.

(** [if (text) yield text]. *)
Fixpoint yielded (chunks : list (option string)) : list string :=
  match chunks with
  | [] => []
  | Some t :: rest => if String.eqb t "" then yielded rest else t :: yielded rest
  | None :: rest => yielded rest
  end.

Definition chapter_generator (P : Provider) (i : nat) : Generator :=
  match getClient P with
  | Throw e => mkGenerator [] (Some e)
  | Normal _ =>
      match stream_answer P i with
      | Throw e => mkGenerator [] (Some e)
      | Normal (chunks, broken) => mkGenerator (yielded chunks) broken
      end
  end.

Definition generateChapterContentStream (P : Provider) (i : nat)
    (chapter : Chapter) (bookTitle : string) (config : BookConfig)
    (previousChapterSummary : option string) : M Generator :=
  emit (Called (CallChapterStream chapter bookTitle config previousChapterSummary)) ;;
  mret (chapter_generator P i).

(** [for await (const chunk of stream) body(chunk)]. *)
Fixpoint for_await (frags : list string) (broken : option string)
    (body : string -> M unit) : M unit :=
  match frags with
  | [] => match broken with
          | None => mret tt
          | Some e => throw e
          end
  | chunk :: rest => body chunk ;; for_await rest broken body
  end.

(** ** Phase A: outline synthesis *)

Section PhaseA.
(** [JSON.parse] ([None] for a [SyntaxError]) and the clean-up of the
    answer, [text.replace(/```json\n?/g, "").replace(/```\n?/g, "").trim()],
    both of the JavaScript runtime. *)
Variable JSON_parse : string -> option json.
Variable strip_fences : string -> string.

(** [!data]. *)
Definition falsy_json (v : json) : bool :=
  match v with
  | JNull | JBool false | JNum 0%Z | JStr EmptyString => true
  | _ => false
  end.

(** [Array.isArray(data.chapters)]. *)
Definition chapters_array (v : json) : option (list json) :=
  match prop "chapters" v with
  | Some (JArr items) => Some items
  | _ => None
  end.

Definition FAILED_TO_PARSE : string := "Failed to parse outline.".

Definition parse_outline (answer : option string) : Completion json :=
  let text := strip_fences (default "" answer) in
  if String.eqb text "" then Throw "No response from AI"
  else
    (* whatever is thrown inside the [try] is rethrown as one message *)
    match JSON_parse text with
    | None => Throw FAILED_TO_PARSE
    | Some data =>
        if falsy_json data then Throw FAILED_TO_PARSE
        else match chapters_array data with
             | None => Throw FAILED_TO_PARSE
             | Some _ => Normal data
             end
    end.

(** What the call settles with. *)
Definition outline_data (P : Provider) : Completion json :=
  match getClient P with
  | Throw e => Throw e
  | Normal _ =>
      match outline_answer P with
      | Throw e => Throw e
      | Normal answer => parse_outline answer
      end
  end.

Definition generateBookOutline (P : Provider) (config : BookConfig) : M json :=
  emit (Called (CallOutline config)) ;;
  settle (outline_data P).

(** [{ id: `chap-${i}`, ...c, status: 'pending' }]: the spread may bring
    an [id] of its own, never a [status]. *)
Definition outline_chapter (i : nat) (c : json) : Chapter :=
  mkChapter (default ("chap-" +:+ pretty i) (str_prop "id" c))
    (default "" (str_prop "title" c))
    (default "" (str_prop "description" c))
    (str_prop "content" c)
    (str_prop "imageUrl" c)
    pending.

Definition startOutlineGeneration (P : Provider) : M unit :=
  config ← read (fun w => app_config (app w)) ;
  if String.eqb (cfg_topic config) "" then mret tt
  else
    setStatus GENERATING_OUTLINE ;;
    setError None ;;
    try_catch
      (outlineData ← generateBookOutline P config ;
       match prop "chapters" outlineData with
       | Some (JArr items) =>
           let chapters := imap outline_chapter items in
           let finalTitle :=
             or_else (or_else (default "" (str_prop "title" outlineData))
                        (cfg_title config)) (cfg_topic config) in
           setBookData (fun _ => Some
             (mkBookData (with_cfg_title finalTitle config) None chapters (now P))) ;;
           setStatus REVIEWING_OUTLINE
       | Some v =>
           if falsy_json v then throw "Invalid response format: Chapters missing"
           else throw "outlineData.chapters.map is not a function"
       | None => throw "Invalid response format: Chapters missing"
       end)
      (fun e =>
         setError (Some (or_else e "Failed to generate outline.")) ;;
         setStatus IDLE ;;
         if includes "API Key" e then setIsApiKeyModalOpen true else mret tt).
End PhaseA.

(** ** Phase B: the edits of the review and of the reader *)

Inductive Field := field_title | field_description.

Definition set_field (f : Field) (value : string) (c : Chapter) : Chapter :=
  match f with
  | field_title => with_ch_title value c
  | field_description => with_ch_description value c
  end.

(** The handlers close over the [bookData] of the render they belong to,
    here the current one, and do nothing without it. *)
Definition with_bookData (k : BookData -> M unit) : M unit :=
  b ← read (fun w => app_bookData (app w)) ;
  match b with
  | None => mret tt
  | Some bookData => k bookData
  end.

(** [index] is a position of the rendered outline (the only caller maps
    over [bookData.outline]); the update is written for such positions. *)
Definition handleUpdateChapter (index : nat) (f : Field) (value : string) : M unit :=
  with_bookData (fun bookData =>
    let newOutline := alter (set_field f value) index (bd_outline bookData) in
    setBookData (fun _ => Some (with_outline newOutline bookData))).

Definition handleAddChapter (date_now : Z) : M unit :=
  with_bookData (fun bookData =>
    let newChapter :=
      mkChapter ("chap-" +:+ pretty (length (bd_outline bookData)) +:+ "-" +:+ pretty date_now)
        "New Chapter" "Description of the new chapter" None None pending in
    setBookData (fun _ => Some
      (with_outline (bd_outline bookData ++ [newChapter]) bookData))).

Definition handleRemoveChapter (index : nat) : M unit :=
  with_bookData (fun bookData =>
    setBookData (fun _ => Some
      (with_outline (delete index (bd_outline bookData)) bookData))).

Definition handleUpdateBookContent (chapterId newContent : string) : M unit :=
  with_bookData (fun bookData =>
    let newOutline :=
      map (fun c => if String.eqb (ch_id c) chapterId then with_content newContent c else c)
        (bd_outline bookData) in
    setBookData (fun _ => Some (with_outline newOutline bookData))).

Definition handleUpdateBookImage (chapterId newImageUrl : string) : M unit :=
  with_bookData (fun bookData =>
    let newOutline :=
      map (fun c => if String.eqb (ch_id c) chapterId then with_imageUrl newImageUrl c else c)
        (bd_outline bookData) in
    setBookData (fun _ => Some (with_outline newOutline bookData))).

(** The title input of the review. *)
Definition handleTitleChange (value : string) : M unit :=
  with_bookData (fun bookData =>
    setBookData (fun _ => Some
      (with_config (with_cfg_title value (bd_config bookData)) bookData))).

(** [setConfig(prev => ({ ...prev, [key]: value }))], the configuration that
    results given whole. *)
Definition handleConfigChange (newConfig : BookConfig) : M unit :=
  setConfig newConfig.

Definition reset : M unit :=
  setStatus IDLE ;;
  setBookData (fun _ => None) ;;
  setConfig INITIAL_CONFIG ;;
  setError None.

(** ** Phase C: full generation *)

Definition TEXT_ERROR_PLACEHOLDER : string :=
  "*Error generating text. Please try regenerating.*".

(** [chapter.status === 'completed' && chapter.content && chapter.imageUrl]. *)
Definition skip (chapter : Chapter) : bool :=
  bool_decide (ch_status chapter = completed)
  && truthy (ch_content chapter) && truthy (ch_imageUrl chapter).

Definition updateProgress (msg : string) : M unit :=
  f ← read frame ;
  setGenerationProgress (mkProgress (completedSteps f) (totalSteps f) msg).

Definition set_completedSteps (n : nat) : M unit :=
  update_frame (fun f => mkFrame (totalSteps f) n (newOutline f) (fullText f)).
Definition set_fullText (t : string) : M unit :=
  update_frame (fun f => mkFrame (totalSteps f) (completedSteps f) (newOutline f) t).
Definition set_newOutline (o : list Chapter) : M unit :=
  update_frame (fun f => mkFrame (totalSteps f) (completedSteps f) o (fullText f)).

(** [newOutline[i] = { ...newOutline[i], ... }], for [i] below the length,
    as the loop guard has it. *)
Definition assign_newOutline (i : nat) (f : Chapter -> Chapter) : M unit :=
  o ← read (fun w => newOutline (frame w)) ;
  set_newOutline (alter f i o).

(** [setBookData(prev => prev ? ({ ...prev, outline: [...newOutline] }) : null)],
    the function being called as it is passed: the snapshot published is the
    project with what [newOutline] holds at the call. React may call the
    function later, when the run has written to the array again;
    [Scheduled.publish_newOutline] leaves that open, and the snapshots of
    this model are the states returned there when React is timely
    ([call_time_run_is_a_timely_run]). *)
Definition publish_newOutline : M unit :=
  o ← read (fun w => newOutline (frame w)) ;
  setBookData (fmap (with_outline o)).

(** The body of the [for await], with the same reading of [setBookData];
    [Scheduled.receive_chunk] is the body without it. *)
Definition receive_chunk (i : nat) (chunk : string) : M unit :=
  t ← read (fun w => fullText (frame w)) ;
  set_fullText (t +:+ chunk) ;;
  t ← read (fun w => fullText (frame w)) ;
  assign_newOutline i (with_content t) ;;
  publish_newOutline.

(** The streaming block of a round: [let fullText = ""], the [try] around
    the stream, and its [catch]. *)
Definition stream_text (P : Provider) (bookData : BookData) (i : nat)
    (chapter : Chapter) (prevContext : option string) : M unit :=
  set_fullText "" ;;
  try_catch
    (stream ← generateChapterContentStream P i chapter
                (cfg_title (bd_config bookData)) (bd_config bookData) prevContext ;
     for_await (yields stream) (failure stream) (receive_chunk i))
    (fun streamError =>
       console_error "Stream error" ;;
       t ← read (fun w => fullText (frame w)) ;
       set_fullText (or_else t TEXT_ERROR_PLACEHOLDER)).

(** The illustration block of a round. *)
Definition illustrate (P : Provider) (bookData : BookData) (i : nat)
    (chapter : Chapter) : M unit :=
  try_catch
    (imageUrl ← generateChapterIllustration P i (ch_title chapter)
                  (cfg_style (bd_config bookData)) (cfg_format (bd_config bookData)) ;
     assign_newOutline i (fun c => with_status completed (with_imageUrl imageUrl c)))
    (fun e =>
       console_error ("Image for chap " +:+ pretty i +:+ " failed") ;;
       assign_newOutline i (with_status completed)).

(** The image sub-step of a round: the illustration block, the publication
    and the step counted. *)
Definition image_step (P : Provider) (bookData : BookData) (i : nat)
    (chapter : Chapter) : M unit :=
  illustrate P bookData i chapter ;;
  publish_newOutline ;;
  n ← read (fun w => completedSteps (frame w)) ;
  set_completedSteps (n + 1).

(** One round of the loop over the chapters. *)
Definition generate_chapter (P : Provider) (bookData : BookData) (i : nat) : M unit :=
  o ← read (fun w => newOutline (frame w)) ;
  match o !! i with
  | None => throw "Cannot read properties of undefined (reading 'status')"
  | Some chapter =>
      if skip chapter then
        n ← read (fun w => completedSteps (frame w)) ;
        set_completedSteps (n + 2)
      else
        assign_newOutline i (fun _ => with_status generating_text chapter) ;;
        publish_newOutline ;;
        updateProgress ("Writing Chapter " +:+ pretty (i + 1) +:+ ": "
                        +:+ ch_title chapter +:+ "...") ;;
        o ← read (fun w => newOutline (frame w)) ;
        prevContext ←
          match i with
          | 0 => mret None
          | S j => match o !! j with
                   | Some prev => mret (Some (ch_description prev))
                   | None => throw "Cannot read properties of undefined (reading 'description')"
                   end
          end ;
        stream_text P bookData i chapter prevContext ;;
        t ← read (fun w => fullText (frame w)) ;
        assign_newOutline i (fun c => with_content t (with_status generating_image c)) ;;
        publish_newOutline ;;
        n ← read (fun w => completedSteps (frame w)) ;
        set_completedSteps (n + 1) ;;
        updateProgress ("Illustrating Chapter " +:+ pretty (i + 1) +:+ "...") ;;
        image_step P bookData i chapter
  end.

(** [for (let i = from; i < newOutline.length; i++)], with [rounds] the
    rounds still to run; no round changes the length of [newOutline]. *)
Fixpoint chapters_loop (P : Provider) (bookData : BookData) (from rounds : nat) : M unit :=
  match rounds with
  | 0 => mret tt
  | S rounds' =>
      generate_chapter P bookData from ;;
      chapters_loop P bookData (S from) rounds'
  end.

Definition generate_cover (P : Provider) (bookData : BookData) : M unit :=
  if truthy (bd_coverImage bookData) then mret tt
  else
    updateProgress "Designing book cover..." ;;
    try_catch
      (coverUrl ← generateBookCover P (cfg_title (bd_config bookData))
                    (cfg_style (bd_config bookData)) (cfg_format (bd_config bookData)) ;
       setBookData (fmap (with_coverImage coverUrl)))
      (fun e => console_error "Cover generation failed").

Definition startFullGeneration (P : Provider) : M unit :=
  b ← read (fun w => app_bookData (app w)) ;
  match b with
  | None => mret tt
  | Some bookData =>
      setStatus GENERATING_BOOK ;;
      update_frame (fun _ => mkFrame (1 + length (bd_outline bookData) * 2) 0 [] "") ;;
      try_catch
        (generate_cover P bookData ;;
         n ← read (fun w => completedSteps (frame w)) ;
         set_completedSteps (n + 1) ;;
         set_newOutline (bd_outline bookData) ;;
         o ← read (fun w => newOutline (frame w)) ;
         chapters_loop P bookData 0 (length o) ;;
         setStatus COMPLETED)
        (fun e =>
           setError (Some (or_else e "Generation failed midway.")) ;;
           setStatus ERROR ;;
           if includes "API Key" e then setIsApiKeyModalOpen true else mret tt)
  end.

(** ** Export pagination ([handleDownloadPdf] of the reader)

    Lengths are exact rationals, in the unit of the document (mm). *)

Module Pagination.
Local Open Scope Q_scope.

(** One [pdf.addImage(imgData, 'JPEG', x, y, width, height)], [image]
    being the index of the rendered section the data comes from. *)
Record Placement := mkPlacement {
  image : nat;
  pos_x : Q;
  pos_y : Q;
  width : Q;
  height : Q
}.

Definition Page := list Placement.

(** A jsPDF document: the finished pages and the current one. A new
    document has one empty page. *)
Record Pdf := mkPdf {
  finished : list Page;
  current_page : Page
}.

Definition new_pdf : Pdf := mkPdf [] [].
Definition addPage (pdf : Pdf) : Pdf :=
  mkPdf (finished pdf ++ [current_page pdf])%list [].
Definition addImage (p : Placement) (pdf : Pdf) : Pdf :=
  mkPdf (finished pdf) (current_page pdf ++ [p])%list.
Definition pages (pdf : Pdf) : list Page := (finished pdf ++ [current_page pdf])%list.

Definition margin : Q := 10.

(** The size of a canvas, in pixels. *)
Record Canvas := mkCanvas {
  px_width : Q;
  px_height : Q
}.

Section Document.
(** [pdf.internal.pageSize] of the document. *)
Variables pdfWidth pdfHeight : Q.

Definition contentWidth : Q := pdfWidth - margin * 2.
Definition contentHeight : Q := pdfHeight - margin * 2.

Definition scaled_height (c : Canvas) : Q :=
  (px_height c * contentWidth) / px_width c.

(** The [while (heightLeft > 0)] of the multi-page split; [None] when
    [fuel] rounds do not end it. *)
Fixpoint split_pages (fuel : nat) (i : nat) (imgHeight heightLeft position : Q)
    (pageAdded : bool) (pdf : Pdf) : option Pdf :=
  if Qle_bool heightLeft 0 then Some pdf
  else
    match fuel with
    | O => None
    | S fuel' =>
        let pdf := if pageAdded then addPage pdf else pdf in
        let pdf := addImage (mkPlacement i margin (margin + position)
                               contentWidth imgHeight) pdf in
        split_pages fuel' i imgHeight
          (heightLeft - (pdfHeight - margin * 2))
          (position - (pdfHeight - margin * 2)) true pdf
    end.

(** One round of the loop over the rendered sections. *)
Definition add_section (fuel : nat) (i : nat) (c : Canvas) (pdf : Pdf) : option Pdf :=
  let pdf := if (0 <? i)%nat then addPage pdf else pdf in
  let imgHeight := scaled_height c in
  if Qle_bool imgHeight pdfHeight then
    Some (addImage (mkPlacement i margin margin contentWidth imgHeight) pdf)
  else
    split_pages fuel i imgHeight imgHeight 0 false pdf.

Fixpoint add_sections (fuel : nat) (i : nat) (cs : list Canvas) (pdf : Pdf) : option Pdf :=
  match cs with
  | [] => Some pdf
  | c :: rest =>
      match add_section fuel i c pdf with
      | Some pdf' => add_sections fuel (S i) rest pdf'
      | None => None
      end
  end.

Definition handleDownloadPdf (fuel : nat) (sections : list Canvas) : option Pdf :=
  add_sections fuel 0 sections new_pdf.

(** The pages that carry the image of section [i]. *)
Definition pages_of (i : nat) (pdf : Pdf) : list Page :=
  filter (fun pg => existsb (fun p => Nat.eqb (image p) i) pg = true) (pages pdf).

(** The band of an image that lies between the margins of its page, in
    the coordinates of the image: from [band_top] to [band_bottom]. It is
    where the layout means the image to be read; jsPDF does not cut the
    image there, and what the page shows of it goes on into the margins
    ([Layout.visible]). *)
Definition band_top (p : Placement) : Q := Qmax 0 (margin - pos_y p).
Definition band_bottom (p : Placement) : Q :=
  Qmin (height p) (pdfHeight - margin - pos_y p).
End Document.
End Pagination.

(** ** What a run lets one observe *)

(** The world a computation leaves, and how it ends. *)
Definition exec {A} (m : M A) (w : World) : World := (m w).2.
Definition outcome {A} (m : M A) (w : World) : Completion A := (m w).1.

(** The provider calls of a log, in order. *)
Definition calls (l : list Event) : list ProviderCall :=
  omap (fun e => match e with Called c => Some c | _ => None end) l.

(** The published [bookData] snapshots of a log, in order. *)
Definition snapshots (l : list Event) : list (option BookData) :=
  omap (fun e => match e with Published b => Some b | _ => None end) l.

(** The statuses a log went through, in order. *)
Definition statuses (l : list Event) : list GenerationStatus :=
  omap (fun e => match e with StatusSet s => Some s | _ => None end) l.

(** The content of section [i] in a snapshot, when there is one. *)
Definition section_content (i : nat) (b : option BookData) : option string :=
  bd ← b ; c ← bd_outline bd !! i ; ch_content c.

(** The successive contents of section [i] that a log shows. *)
Definition section_contents (i : nat) (l : list Event) : list string :=
  omap (section_content i) (snapshots l).

(** The fragments of a stream put together, and what is shown after each. *)
Definition join (frags : list string) : string := foldr String.append "" frags.

Fixpoint running (acc : string) (frags : list string) : list string :=
  match frags with
  | [] => []
  | f :: rest => (acc +:+ f) :: running (acc +:+ f) rest
  end.

(** The world after one fragment, and after all of them. *)
Definition after_chunk (i : nat) (chunk : string) (w : World) : World :=
  let t := fullText (frame w) +:+ chunk in
  let o := alter (with_content t) i (newOutline (frame w)) in
  let b := with_outline o <$> app_bookData (app w) in
  mkWorld (store_bookData b (app w))
    (mkFrame (totalSteps (frame w)) (completedSteps (frame w)) o t)
    (log w ++ [Published b]).

Fixpoint after_chunks (i : nat) (frags : list string) (w : World) : World :=
  match frags with
  | [] => w
  | chunk :: rest => after_chunks i rest (after_chunk i chunk w)
  end.

(** The text a section is left with by its stream. *)
Definition streamed_text (g : Generator) : string :=
  match failure g with
  | None => join (yields g)
  | Some _ => or_else (join (yields g)) TEXT_ERROR_PLACEHOLDER
  end.

(** The section as published between its two sub-steps, and as a round
    leaves it. *)
Definition written_chapter (P : Provider) (i : nat) (c : Chapter) : Chapter :=
  mkChapter (ch_id c) (ch_title c) (ch_description c)
    (Some (streamed_text (chapter_generator P i))) (ch_imageUrl c) generating_image.

Definition final_chapter (P : Provider) (i : nat) (c : Chapter) : Chapter :=
  if skip c then c
  else
    mkChapter (ch_id c) (ch_title c) (ch_description c)
      (Some (streamed_text (chapter_generator P i)))
      (match generateImage P (illustration_answer P i) with
       | Normal imageUrl => Some imageUrl
       | Throw _ => ch_imageUrl c
       end)
      completed.

Definition prev_context (o : list Chapter) (i : nat) : option string :=
  match i with
  | 0 => None
  | S j => ch_description <$> o !! j
  end.

(** The provider calls of a round. *)
Definition round_calls (bookData : BookData) (o : list Chapter) (i : nat)
    (c : Chapter) : list ProviderCall :=
  if skip c then []
  else [CallChapterStream c (cfg_title (bd_config bookData)) (bd_config bookData)
          (prev_context o i);
        CallIllustration (ch_title c) (cfg_style (bd_config bookData))
          (cfg_format (bd_config bookData))].

(** No section of an outline, of a project, of a world has status [error]. *)
Definition no_error (o : list Chapter) : Prop :=
  Forall (fun c => ch_status c <> error) o.

Definition no_error_book (b : option BookData) : Prop :=
  match b with
  | Some bd => no_error (bd_outline bd)
  | None => True
  end.

Definition no_error_world (w : World) : Prop :=
  no_error_book (app_bookData (app w))
  /\ no_error (newOutline (frame w))
  /\ Forall no_error_book (snapshots (log w)).

(** The project as published with [c] for section [i] of outline [o]. *)
Definition shown (i : nat) (o : list Chapter) (b : option BookData) (c : Chapter)
    : option BookData :=
  with_outline (<[i := c]> o) <$> b.

(** The section while its text streams in. *)
Definition writing_chapter (c : Chapter) (t : string) : Chapter :=
  with_content t (with_status generating_text c).

Definition writing_message (i : nat) (c : Chapter) : string :=
  "Writing Chapter " +:+ pretty (i + 1) +:+ ": " +:+ ch_title c +:+ "...".
Definition illustrating_message (i : nat) : string :=
  "Illustrating Chapter " +:+ pretty (i + 1) +:+ "...".

(** The section record after the fragments shown so far. *)
Definition latest (x : Chapter) (ts : list string) : Chapter :=
  match last ts with
  | Some t => with_content t x
  | None => x
  end.

(** What the streaming block adds to the log. *)
Definition stream_events (P : Provider) (bookData : BookData) (i : nat) (c x : Chapter)
    (o : list Chapter) (b : option BookData) (prev : option string) : list Event :=
  let g := chapter_generator P i in
  [Called (CallChapterStream c (cfg_title (bd_config bookData)) (bd_config bookData) prev)]
  ++ map (fun t => Published (shown i o b (with_content t x))) (running "" (yields g))
  ++ (if failure g is Some _ then [ConsoleError "Stream error"] else []).

(** What a round that is not skipped adds to the log. *)
Definition round_events (P : Provider) (bookData : BookData) (i : nat) (c : Chapter)
    (o : list Chapter) (b : option BookData) (steps total : nat) : list Event :=
  let g := chapter_generator P i in
  [Published (shown i o b (with_status generating_text c));
   ProgressShown (mkProgress steps total (writing_message i c));
   Called (CallChapterStream c (cfg_title (bd_config bookData)) (bd_config bookData)
             (prev_context o i))]
  ++ map (fun t => Published (shown i o b (writing_chapter c t))) (running "" (yields g))
  ++ (if failure g is Some _ then [ConsoleError "Stream error"] else [])
  ++ [Published (shown i o b (written_chapter P i c));
      ProgressShown (mkProgress (steps + 1) total (illustrating_message i));
      Called (CallIllustration (ch_title c) (cfg_style (bd_config bookData))
                (cfg_format (bd_config bookData)))]
  ++ (match generateImage P (illustration_answer P i) with
      | Normal _ => []
      | Throw _ => [ConsoleError ("Image for chap " +:+ pretty i +:+ " failed")]
      end)
  ++ [Published (shown i o b (final_chapter P i c))].

(** The outline after the rounds [from], ..., [from + n - 1]. *)
Fixpoint finish (P : Provider) (from n : nat) (o : list Chapter) : list Chapter :=
  match n with
  | 0 => o
  | S n' => finish P (S from) n' (alter (final_chapter P from) from o)
  end.

(** The project the rounds leave published. *)
Definition round_book (P : Provider) (i : nat) (o : list Chapter)
    (b : option BookData) : option BookData :=
  match o !! i with
  | Some c => if skip c then b else shown i o b (final_chapter P i c)
  | None => b
  end.

Fixpoint loop_book (P : Provider) (from n : nat) (o : list Chapter)
    (b : option BookData) : option BookData :=
  match n with
  | 0 => b
  | S n' =>
      loop_book P (S from) n' (alter (final_chapter P from) from o) (round_book P from o b)
  end.

(** What the rounds add to the log. *)
Fixpoint loop_events (P : Provider) (bookData : BookData) (from n : nat)
    (o : list Chapter) (b : option BookData) (steps total : nat) : list Event :=
  match n with
  | 0 => []
  | S n' =>
      match o !! from with
      | Some c => if skip c then [] else round_events P bookData from c o b steps total
      | None => []
      end
      ++ loop_events P bookData (S from) n' (alter (final_chapter P from) from o)
           (round_book P from o b) (steps + 2) total
  end.

(** The cover step: the project it leaves and what it adds to the log. *)
Definition cover_book (P : Provider) (bookData : BookData) : BookData :=
  if truthy (bd_coverImage bookData) then bookData
  else match generateImage P (cover_answer P) with
       | Normal coverUrl => with_coverImage coverUrl bookData
       | Throw _ => bookData
       end.

Definition cover_events (P : Provider) (bookData : BookData) (total : nat) : list Event :=
  if truthy (bd_coverImage bookData) then []
  else
    [ProgressShown (mkProgress 0 total "Designing book cover...");
     Called (CallCover (cfg_title (bd_config bookData)) (cfg_style (bd_config bookData))
               (cfg_format (bd_config bookData)))]
    ++ match generateImage P (cover_answer P) with
       | Normal coverUrl => [Published (Some (with_coverImage coverUrl bookData))]
       | Throw _ => [ConsoleError "Cover generation failed"]
       end.

(** What a whole run adds to the log. *)
Definition run_events (P : Provider) (bookData : BookData) : list Event :=
  let n := length (bd_outline bookData) in
  [StatusSet GENERATING_BOOK]
  ++ cover_events P bookData (1 + n * 2)
  ++ loop_events P bookData 0 n (bd_outline bookData) (Some (cover_book P bookData))
       1 (1 + n * 2)
  ++ [StatusSet COMPLETED].

(** The provider calls of the rounds [from], ..., [from + n - 1] over the
    outline [o]. *)
Fixpoint loop_calls (bookData : BookData) (o : list Chapter) (from n : nat)
    : list ProviderCall :=
  match n with
  | 0 => []
  | S n' =>
      match o !! from with
      | Some c => round_calls bookData o from c
      | None => []
      end ++ loop_calls bookData o (S from) n'
  end.

Definition cover_calls (bookData : BookData) : list ProviderCall :=
  if truthy (bd_coverImage bookData) then []
  else [CallCover (cfg_title (bd_config bookData)) (cfg_style (bd_config bookData))
          (cfg_format (bd_config bookData))].

(** ** The user at the presentation surface *)

(** Every handler the interface can fire, with the provider that answers
    while it runs. The interface shows each control only in some statuses;
    the actions below are not restricted by status, so they reach at least
    every state the interface reaches. *)
Inductive Action :=
| ChangeConfig (newConfig : BookConfig)
| StartOutline (P : Provider)
| UpdateChapter (index : nat) (f : Field) (value : string)
| AddChapter (date_now : Z)
| RemoveChapter (index : nat)
| ChangeTitle (value : string)
| StartFullGeneration (P : Provider)
| ExitReader
| TryAgain
| UpdateBookContent (chapterId newContent : string)
| UpdateBookImage (chapterId newImageUrl : string)
| Reset.

Section Surface.
Variable JSON_parse : string -> option json.
Variable strip_fences : string -> string.

Definition perform (a : Action) : M unit :=
  match a with
  | ChangeConfig newConfig => handleConfigChange newConfig
  | StartOutline P => startOutlineGeneration JSON_parse strip_fences P
  | UpdateChapter index f value => handleUpdateChapter index f value
  | AddChapter date_now => handleAddChapter date_now
  | RemoveChapter index => handleRemoveChapter index
  | ChangeTitle value => handleTitleChange value
  | StartFullGeneration P => startFullGeneration P
  | ExitReader => setStatus REVIEWING_OUTLINE
  | TryAgain => setStatus IDLE
  | UpdateBookContent chapterId newContent => handleUpdateBookContent chapterId newContent
  | UpdateBookImage chapterId newImageUrl => handleUpdateBookImage chapterId newImageUrl
  | Reset => reset
  end.

Definition perform_all (actions : list Action) (w : World) : World :=
  foldl (fun w a => exec (perform a) w) w actions.
End Surface.

Definition initial_world : World :=
  mkWorld (mkApp IDLE INITIAL_CONFIG None None false (mkProgress 0 0 ""))
    (mkFrame 0 0 [] "") [].

(** The states the interface can be brought to. *)
Inductive reachable (JSON_parse : string -> option json)
    (strip_fences : string -> string) : World -> Prop :=
| reachable_initial : reachable JSON_parse strip_fences initial_world
| reachable_step a w :
    reachable JSON_parse strip_fences w ->
    reachable JSON_parse strip_fences (exec (perform JSON_parse strip_fences a) w).

(** ** Sample inputs *)

Module Sample.
Definition config : BookConfig :=
  mkBookConfig "Topic" "" "" "General Reader" "Informative & Engaging" true
    "Modern Minimalist" 3%Z ebook.

Definition section (title : string) : json :=
  JObj [("title", JStr title); ("description", JStr ("About " +:+ title))].

(** A runtime whose [JSON.parse] knows two answers. *)
Definition parse (text : string) : option json :=
  if String.eqb text "three" then
    Some (JObj [("title", JStr "A Title");
                ("chapters", JArr [section "One"; section "Two"; section "Three"])])
  else if String.eqb text "none" then
    Some (JObj [("title", JStr "A Title"); ("chapters", JArr [])])
  else None.
Definition strip (text : string) : string := text.

Definition picture : list (option InlineData) :=
  [None; Some (mkInlineData "image/png" "iVBORw0KGgo=")].

(** Every call succeeds. *)
Definition provider : Provider :=
  mkProvider (Some "key") 1700000000%Z (Normal (Some "three")) (Normal picture)
    (fun _ => Normal ([Some "Intro. "; None; Some "Body."], None))
    (fun _ => Normal picture).

(** No credential is stored. *)
Definition provider_without_key : Provider :=
  mkProvider None 1700000000%Z (Normal (Some "three")) (Normal picture)
    (fun _ => Normal ([Some "Intro. "; None; Some "Body."], None))
    (fun _ => Normal picture).

(** The stream of the second section breaks after one fragment, the one
    of the third before any. *)
Definition provider_broken_stream : Provider :=
  mkProvider (Some "key") 1700000000%Z (Normal (Some "three")) (Normal picture)
    (fun i => match i with
              | 1 => Normal ([Some "Intro. "], Some "network down")
              | 2 => Normal ([], Some "network down")
              | _ => Normal ([Some "Intro. "; Some "Body."], None)
              end)
    (fun _ => Normal picture).

(** Every image call fails, the cover included. *)
Definition provider_no_image : Provider :=
  mkProvider (Some "key") 1700000000%Z (Normal (Some "three")) (Throw "quota")
    (fun _ => Normal ([Some "Intro. "; Some "Body."], None))
    (fun _ => Throw "quota").

(** The outline comes back with an empty list of sections. *)
Definition provider_empty_outline : Provider :=
  mkProvider (Some "key") 1700000000%Z (Normal (Some "none")) (Normal picture)
    (fun _ => Normal ([], None)) (fun _ => Normal picture).

(** The review state after an outline of three sections. *)
Definition reviewing : World :=
  perform_all parse strip [ChangeConfig config; StartOutline provider] initial_world.

(** The project of [reviewing]. *)
Definition project : BookData :=
  mkBookData
    (mkBookConfig "Topic" "A Title" "" "General Reader" "Informative & Engaging" true
       "Modern Minimalist" 3%Z ebook)
    None
    [mkChapter "chap-0" "One" "About One" None None pending;
     mkChapter "chap-1" "Two" "About Two" None None pending;
     mkChapter "chap-2" "Three" "About Three" None None pending]
    1700000000%Z.

(** After a complete run in which everything was made. *)
Definition finished : World := exec (startFullGeneration provider) reviewing.

Definition picture_url : string := "data:image/png;base64,iVBORw0KGgo=".

(** The sections of [finished]. *)
Definition finished_outline : list Chapter :=
  [mkChapter "chap-0" "One" "About One" (Some "Intro. Body.") (Some picture_url) completed;
   mkChapter "chap-1" "Two" "About Two" (Some "Intro. Body.") (Some picture_url) completed;
   mkChapter "chap-2" "Three" "About Three" (Some "Intro. Body.") (Some picture_url)
     completed].

(** The project of [finished]. *)
Definition finished_project : BookData :=
  mkBookData (bd_config project) (Some picture_url) finished_outline 1700000000%Z.

(** The cover call fails, every other call succeeds. *)
Definition provider_no_cover : Provider :=
  mkProvider (Some "key") 1700000000%Z (Normal (Some "three")) (Throw "quota")
    (fun _ => Normal ([Some "Intro. "; None; Some "Body."], None))
    (fun _ => Normal picture).

(** After a complete run in which only the cover could not be made. *)
Definition finished_without_cover : World :=
  exec (startFullGeneration provider_no_cover) reviewing.

(** The reader then saves the second section with its text emptied. *)
Definition emptied : World := exec (handleUpdateBookContent "chap-1" "") finished.

(** The second section of [emptied]. *)
Definition emptied_section : Chapter :=
mkChapter "chap-1" "Two" "About Two" (Some "") (Some picture_url) completed.

(** A run in which the image of the first section could not be made, and
    the second section afterwards. *)
Definition finished_without_first_image : World :=
exec (startFullGeneration
        (mkProvider (Some "key") 1700000000%Z (Normal (Some "three")) (Normal picture)
           (fun _ => Normal ([Some "Intro. "; None; Some "Body."], None))
           (fun i => match i with 0 => Throw "quota" | _ => Normal picture end)))
  reviewing.

Definition unillustrated_section : Chapter :=
mkChapter "chap-0" "One" "About One" (Some "Intro. Body.") None completed.

(** The stream of every section now yields one other fragment. *)
Definition provider_rewriting : Provider :=
mkProvider (Some "key") 1700000000%Z (Normal (Some "three")) (Normal picture)
  (fun _ => Normal ([Some "Another text."], None))
  (fun _ => Normal picture).
End Sample.

(** A section with status [completed], a non-empty content and a non-empty
    illustration reference. *)
Definition fully_done (c : Chapter) : Prop :=
  ch_status c = completed
  /\ (exists t, ch_content c = Some t /\ t <> "")
  /\ (exists u, ch_imageUrl c = Some u /\ u <> "").

(** The failures of the outline synthesis, in the words of the
    specification: the credential is missing or the provider call fails; the
    answer is empty or is not parseable; the list of sections is absent (or
    is not a list). *)
Definition outline_fails (JSON_parse : string -> option json)
    (strip_fences : string -> string) (P : Provider) : Prop :=
  truthy (apiKey P) = false
  \/ (exists e, outline_answer P = Throw e)
  \/ (exists answer, outline_answer P = Normal answer
        /\ let text := strip_fences (default "" answer) in
           text = ""
           \/ JSON_parse text = None
           \/ exists data, JSON_parse text = Some data /\ chapters_array data = None).

(** The project a parsed outline is turned into. *)
Definition outline_project (config : BookConfig) (P : Provider) (data : json)
    (items : list json) : BookData :=
  mkBookData
    (with_cfg_title
       (or_else (or_else (default "" (str_prop "title" data)) (cfg_title config))
          (cfg_topic config))
       config)
    None (imap outline_chapter items) (now P).

(** ** Sample pages *)

Module PageSample.
Import Pagination.
Local Open Scope Q_scope.

(** The A4 page of jsPDF, 595.28 pt by 841.89 pt, in mm (25.4 / 72 mm to
    the point). *)
Definition a4_width : Q := (59528 # 100) * (254 # 10) / 72.
Definition a4_height : Q := (84189 # 100) * (254 # 10) / 72.

(** The canvases of html2canvas at scale 2 for the print container, 800 CSS
    pixels wide: the cover, 1120 pixels high, a chapter of 1240 pixels and a
    chapter of 3000 pixels. *)
Definition cover : Canvas := mkCanvas 1600 2240.
Definition chapter : Canvas := mkCanvas 1600 2480.
Definition long_chapter : Canvas := mkCanvas 1600 6000.
End PageSample.

Module Slices.
Import Pagination.
Local Open Scope Q_scope.

(** [n] times a length. *)
Fixpoint times (n : nat) (c : Q) : Q :=
  match n with
  | O => 0
  | S n' => times n' c + c
  end.

(** The placements of a split in [n] pages: the same image, moved up by one
    more content height on each page. *)
Fixpoint slices (n : nat) (i : nat) (contentWidth imgHeight position step : Q)
    : list Placement :=
  match n with
  | O => []
  | S n' =>
      mkPlacement i margin (margin + position) contentWidth imgHeight
      :: slices n' i contentWidth imgHeight (position - step) step
  end.

(** One placement per page, the first on the current page unless a page
    was already added for this image. *)
Fixpoint place_each (pageAdded : bool) (ps : list Placement) (pdf : Pdf) : Pdf :=
  match ps with
  | [] => pdf
  | p :: rest =>
      place_each true rest (addImage p (if pageAdded then addPage pdf else pdf))
  end.

(** [n] rounds use up the height [h] in steps of [c]: [(n - 1) c < h <= n c]
    (and [h <= 0] for no round). *)
Definition rounds (n : nat) (h c : Q) : Prop :=
  h <= times n c /\ (forall m, n = S m -> times m c < h).

(** The band of a placement, between the margins of its page. *)
Definition band (pdfHeight : Q) (p : Placement) : Q * Q :=
  (band_top p, band_bottom pdfHeight p).

(** Bands that lie end to end from [from] to [upto], none of them empty. *)
Fixpoint tiles (from upto : Q) (bands : list (Q * Q)) : Prop :=
  match bands with
  | [] => from == upto
  | (top, bottom) :: rest => top == from /\ top < bottom /\ tiles bottom upto rest
  end.
End Slices.

(** ** More sample inputs *)

Module Fixture.
(** The form filled in, before any outline. *)
Definition configured : World := exec (handleConfigChange Sample.config) initial_world.

(** The outline [Sample.parse] reads from "three". *)
Definition three_items : list json :=
  [Sample.section "One"; Sample.section "Two"; Sample.section "Three"].
Definition three_sections : json :=
  JObj [("title", JStr "A Title"); ("chapters", JArr three_items)].

(** The provider answers the outline request with something that is not
    JSON. *)
Definition provider_garbled : Provider :=
  mkProvider (Some "key") 1700000000%Z (Normal (Some "<html>")) (Normal Sample.picture)
    (fun _ => Normal ([], None)) (fun _ => Normal Sample.picture).

(** The project of [Sample.finished_without_first_image]. *)
Definition project_without_first_image : BookData :=
  with_outline (Sample.unillustrated_section :: tail Sample.finished_outline)
    Sample.finished_project.
End Fixture.

(** The progress updates of a log, in order. *)
Definition progresses (l : list Event) : list Progress :=
  omap (fun e => match e with ProgressShown p => Some p | _ => None end) l.

(** The counts shown go up from [lo], without ever going down, and end at
    most at [hi]. *)
Fixpoint climbs (lo hi : nat) (ps : list Progress) : Prop :=
  match ps with
  | [] => lo <= hi
  | p :: rest => lo <= current p /\ climbs (current p) hi rest
  end.

(** What identifies a section and is given by the outline. *)
Definition skeleton (c : Chapter) : string * string * string :=
  (ch_id c, ch_title c, ch_description c).

(** ** The reader ([src/components/BookReader.tsx]) *)

Module Reader.
(** [currentChapterIndex >= 0 ? book.outline[currentChapterIndex] : null];
    the index [-1] is the cover. *)
Definition currentChapter (book : BookData) (currentChapterIndex : Z) : option Chapter :=
  if (0 <=? currentChapterIndex)%Z then bd_outline book !! Z.to_nat currentChapterIndex
  else None.

Definition handleNext (book : BookData) (currentChapterIndex : Z) : Z :=
  if (currentChapterIndex <? Z.of_nat (length (bd_outline book)) - 1)%Z
  then (currentChapterIndex + 1)%Z
  else currentChapterIndex.

Definition handlePrev (currentChapterIndex : Z) : Z :=
  if (-1 <? currentChapterIndex)%Z then (currentChapterIndex - 1)%Z
  else currentChapterIndex.

(** What the reader offers to move through the book: the two buttons of
    the footer and the entries of the table of contents, one for the cover
    and one for each position of the outline. *)
Inductive Move :=
| Next
| Prev
| OpenCover
| OpenChapter (idx : nat).

Definition move (book : BookData) (m : Move) (currentChapterIndex : Z) : Z :=
  match m with
  | Next => handleNext book currentChapterIndex
  | Prev => handlePrev currentChapterIndex
  | OpenCover => (-1)%Z
  | OpenChapter idx =>
      (* the entries are made by [book.outline.map] *)
      if bool_decide (idx < length (bd_outline book)) then Z.of_nat idx
      else currentChapterIndex
  end.

(** [onUpdateContent] is [handleUpdateBookContent] of [App]; the flags of
    the reader itself are not part of the world. *)
Definition handleSaveEdit (currentChapterIndex : Z) (editBuffer : string) : M unit :=
  with_bookData (fun book =>
    match currentChapter book currentChapterIndex with
    | Some chapter => handleUpdateBookContent (ch_id chapter) editBuffer
    | None => mret tt
    end).

(** [handleUpdateBookImage] as one render of [App] made it: it writes from
    the [bookData] of that render. *)
Definition handleUpdateBookImage_of (bookData : BookData) (chapterId newImageUrl : string)
    : M unit :=
  let newOutline :=
    map (fun c => if String.eqb (ch_id c) chapterId then with_imageUrl newImageUrl c else c)
      (bd_outline bookData) in
  setBookData (fun _ => Some (with_outline newOutline bookData)).

(** What other handlers do while a call is awaited; it is no part of the
    awaiting handler, whose control flow it leaves alone. *)
Definition meanwhile (others : M unit) : M unit :=
  fun w => (Normal tt, (others w).2).

(** The handler belongs to one render: [book], [currentChapter] and
    [onUpdateImage] are those of the click, also after the [await], during
    which [others] may run. The answer is the one the provider has for the
    illustration of that position. *)
Definition handleRegenerateImage (P : Provider) (currentChapterIndex : Z)
    (others : M unit) : M unit :=
  with_bookData (fun book =>
    match currentChapter book currentChapterIndex with
    | None => mret tt
    | Some chapter =>
        try_catch
          (newUrl ← (emit (Called (CallIllustration (ch_title chapter)
                                     (cfg_style (bd_config book))
                                     (cfg_format (bd_config book)))) ;;
                     meanwhile others ;;
                     settle (generateImage P
                               (illustration_answer P (Z.to_nat currentChapterIndex)))) ;
           handleUpdateBookImage_of book (ch_id chapter) newUrl)
          (fun _ => console_error "Failed to regenerate image")
    end).

(** The index after a series of moves. *)
Definition moves (book : BookData) (ms : list Move) (currentChapterIndex : Z) : Z :=
  foldl (fun i m => move book m i) currentChapterIndex ms.
End Reader.

(** The image update of a project. *)
Definition redrawn (chapterId newImageUrl : string) (bookData : BookData) : BookData :=
  with_outline
    (map (fun c => if String.eqb (ch_id c) chapterId then with_imageUrl newImageUrl c else c)
       (bd_outline bookData))
    bookData.

(** The content update of a project. *)
Definition edited (chapterId newContent : string) (bookData : BookData) : BookData :=
  with_outline
    (map (fun c => if String.eqb (ch_id c) chapterId then with_content newContent c else c)
       (bd_outline bookData))
    bookData.

(** ** The pages of the exported document, in closed form *)

Module Layout.
Import Pagination Slices.
Local Open Scope Q_scope.

(** The pages a rendered section takes: one when its scaled height is at
    most the page height, else the scaled height over the content height,
    rounded up. *)
Definition section_pages (pdfWidth pdfHeight : Q) (c : Canvas) : nat :=
  if Qle_bool (scaled_height pdfWidth c) pdfHeight then 1%nat
  else Z.to_nat (Qceiling (scaled_height pdfWidth c / contentHeight pdfHeight)).

(** Where its image is placed on each of them. *)
Definition section_placements (pdfWidth pdfHeight : Q) (i : nat) (c : Canvas)
    : list Placement :=
  let H := scaled_height pdfWidth c in
  if Qle_bool H pdfHeight then [mkPlacement i margin margin (contentWidth pdfWidth) H]
  else slices (section_pages pdfWidth pdfHeight c) i (contentWidth pdfWidth) H 0
         (contentHeight pdfHeight).

(** The pages of the document: one placement each, section after
    section; the one empty page of a new document when nothing is
    rendered. *)
Definition document_pages (pdfWidth pdfHeight : Q) (sections : list Canvas) : list Page :=
  match sections with
  | [] => [[]]
  | _ => (fun p => [p]) <$> concat (imap (section_placements pdfWidth pdfHeight) sections)
  end.

(** jsPDF draws the whole image at each placement, and the page cuts it at
    its edges, not at the margins. The part of the image that a page of
    height [pdfHeight] shows, in the coordinates of the image: from
    [visible_top] to [visible_bottom]. *)
Definition visible_top (p : Placement) : Q := Qmax 0 (- pos_y p).
Definition visible_bottom (pdfHeight : Q) (p : Placement) : Q :=
  Qmin (height p) (pdfHeight - pos_y p).
Definition visible (pdfHeight : Q) (p : Placement) : Q * Q :=
  (visible_top p, visible_bottom pdfHeight p).

(** Parts that go on from [reached] to [upto]: none is empty, each begins
    before the point the one before it reached, so that a strip is shown
    twice, and ends at that point or after it. *)
Fixpoint overlapping (reached upto : Q) (parts : list (Q * Q)) : Prop :=
  match parts with
  | [] => reached == upto
  | (top, bottom) :: rest =>
      top < reached /\ top < bottom /\ reached <= bottom
      /\ overlapping bottom upto rest
  end.

(** Parts that show an image of height [upto] from its top to its foot. *)
Definition shows_all (upto : Q) (parts : list (Q * Q)) : Prop :=
  match parts with
  | [] => False
  | (top, bottom) :: rest => top == 0 /\ 0 < bottom /\ overlapping bottom upto rest
  end.
End Layout.

(** ** The credential dialog ([src/components/ApiKeyModal.tsx]) *)

Module ApiKeyModal.
Definition STORAGE_KEY : string := "gemini_api_key".

Section Dialog.
(** [String.prototype.trim], of the JavaScript runtime. *)
Variable trim : string -> string.

(** [handleSave], on [localStorage]: the key that was typed is stored
    trimmed, and a blank one clears what was stored. *)
Definition handleSave (key : string) (localStorage : gmap string string)
    : gmap string string :=
  if negb (String.eqb (trim key) "") then <[STORAGE_KEY := trim key]> localStorage
  else delete STORAGE_KEY localStorage.
End Dialog.

(** [localStorage.getItem('gemini_api_key') || process.env.API_KEY], what
    [getClient] reads. *)
Definition stored_apiKey (localStorage : gmap string string) (env : option string)
    : option string :=
  if truthy (localStorage !! STORAGE_KEY) then localStorage !! STORAGE_KEY else env.

(** The provider as it answers with that credential. *)
Definition with_apiKey (k : option string) (P : Provider) : Provider :=
  mkProvider k (now P) (outline_answer P) (cover_answer P) (stream_answer P)
    (illustration_answer P).
End ApiKeyModal.

(** ** The figure of a section ([InteractiveSvg] of the reader) *)

Module Figure.
Local Open Scope Q_scope.

(** [handleWheel]: only with the control or the meta key held. *)
Definition handleWheel (ctrlOrMeta : bool) (deltaY : Q) (scale : Q) : Q :=
  if ctrlOrMeta then
    let delta := if Qlt_le_dec 0 deltaY then 9 # 10 else 11 # 10 in
    Qmin (Qmax (1 # 2) (scale * delta)) 4
  else scale.

Definition zoomIn (scale : Q) : Q := Qmin (scale + (2 # 10)) 4.
Definition zoomOut (scale : Q) : Q := Qmax (scale - (2 # 10)) (1 # 2).
Definition resetView : Q := 1.

Inductive Control :=
| Wheel (ctrlOrMeta : bool) (deltaY : Q)
| ZoomIn
| ZoomOut
| ResetView.

Definition use (c : Control) (scale : Q) : Q :=
  match c with
  | Wheel ctrlOrMeta deltaY => handleWheel ctrlOrMeta deltaY scale
  | ZoomIn => zoomIn scale
  | ZoomOut => zoomOut scale
  | ResetView => resetView
  end.

(** The scale after a series of actions, from the initial [1]. *)
Definition scale_after (cs : list Control) : Q := foldl (fun s c => use c s) 1 cs.
End Figure.

(** ** The name of the exported file *)

Module FileName.
(** A JavaScript string is a sequence of UTF-16 code units, and [replace]
    with a regular expression without the flag [u] goes through it unit by
    unit: a letter with an accent is one unit or two, a character outside
    the basic plane is two. A title is given here by its code units. *)
Definition JsString : Type := list N.

(** The units of a string of ASCII characters. *)
Definition of_ascii (s : string) : JsString :=
  Ascii.N_of_ascii <$> String.list_ascii_of_string s.

(** [[a-z0-9]] under the flag [i]: the digits and the letters of ASCII, in
    either case. Without the flag [u] no unit above 127 is taken for a
    letter of ASCII. *)
Definition alphanumeric (u : N) : bool :=
  ((48 <=? u) && (u <=? 57)
   || (65 <=? u) && (u <=? 90)
   || (97 <=? u) && (u <=? 122))%N.

Definition underscore : N := 95.

(** [.replace(/[^a-z0-9]/gi, '_')]. *)
Definition replace_others (s : JsString) : JsString :=
  (fun u => if alphanumeric u then u else underscore) <$> s.

(** [.toLowerCase()], on what the replacement leaves, letters and digits
    of ASCII and underscores: only the letters [A] to [Z] change. *)
Definition lower (u : N) : N :=
  if ((65 <=? u) && (u <=? 90))%N then (u + 32)%N else u.

Definition toLowerCase (s : JsString) : JsString := lower <$> s.

(** The argument of [pdf.save]. *)
Definition pdf_name (title : JsString) : JsString :=
  toLowerCase (replace_others title) ++ of_ascii ".pdf".

(** A lower-case letter, a digit or the underscore. *)
Definition plain (u : N) : bool :=
  ((48 <=? u) && (u <=? 57)
   || (97 <=? u) && (u <=? 122)
   || (u =? 95))%N.

Definition all_plain (s : JsString) : bool := forallb plain s.
End FileName.

(** A snapshot that shows a project with the plan and the settings of
    [bookData]: the same sections by identifier, title and description, in
    the same order, the same configuration and the same creation date. *)
Definition same_plan (bookData : BookData) (b : option BookData) : Prop :=
  exists shown_book,
    b = Some shown_book
    /\ skeleton <$> bd_outline shown_book = skeleton <$> bd_outline bookData
    /\ bd_config shown_book = bd_config bookData
    /\ bd_generatedAt shown_book = bd_generatedAt bookData.

(** * Phase C as React runs it

    [setBookData(prev => ...)] does not change the state: it queues the
    function, and React calls it when it next renders, or at once when
    nothing is queued. The functions of the run spread [newOutline], the
    array the run goes on writing to, so what an update returns depends on
    when React calls it. React renders while the run is suspended in an
    [await], where other handlers can set the project too, or inside the
    call of [setBookData] where it does not batch the updates made in
    asynchronous code; between two [await]s the run is not interrupted.
    The schedule, which the code does not decide, is a parameter. *)

Module Scheduled.

(** The arguments [setBookData] is called with: the two functions of the
    run, [prev => prev ? ({ ...prev, coverImage: coverUrl }) : null] and
    [prev => prev ? ({ ...prev, outline: [...newOutline] }) : null]; and
    what anything else passes, a value, as the other handlers of [App] do,
    or a function of its own, as another run would. *)
Inductive Updater :=
| Other (f : option BookData -> option BookData)
| CoverImage (coverUrl : string)
| NewOutline.

(** What the function returns when it is called, [newOutline] being what
    the array holds at that moment. *)
Definition run_updater (newOutline : list Chapter) (u : Updater)
    (prev : option BookData) : option BookData :=
  match u with
  | Other f => f prev
  | CoverImage coverUrl => with_coverImage coverUrl <$> prev
  | NewOutline => with_outline newOutline <$> prev
  end.

(** A queued update: still to be called, or called when it was queued. *)
Inductive Update :=
| Deferred (u : Updater)
| Computed (u : Updater) (b : option BookData).

(** What happens while the run is suspended: React renders, or something
    else sets the project. *)
Inductive Turn :=
| Render
| Handler (f : option BookData -> option BookData).

(** What the code leaves open: the turns taken during each [await], counted
    from the first; and for each call of [setBookData], counted likewise,
    whether a function that finds nothing queued is called at once, and
    whether React renders before the call returns, as it does where it does
    not batch the updates made outside its own event handlers. *)
Record Schedule := mkSchedule {
  turns : nat -> list Turn;
  eager : nat -> bool;
  sync : nat -> bool
}.

(** What can be observed of a run: the state an update of the project
    returns when React calls it, the state a render shows, and what the run
    does besides (calls, console messages, the other state variables). *)
Inductive Obs :=
| Returned (u : Updater) (b : option BookData)
| Committed (b : option BookData)
| Did (e : Event)
| ErrorSet (msg : option string)
| DialogOpened.

Record State := mkState {
  current : option BookData;
  pending : list Update;
  locals : Frame;
  seen : list Obs;
  awaits : nat;
  sets : nat
}.

Definition R (A : Type) : Type := State -> Completion A * State.

Global Instance R_ret : MRet R := fun A a s => (Normal a, s).
Global Instance R_bind : MBind R := fun A B f m s =>
  match m s with
  | (Normal a, s') => f a s'
  | (Throw e, s') => (Throw e, s')
  end.

Definition exec {A} (m : R A) (s : State) : State := (m s).2.

Definition throw {A} (msg : string) : R A := fun s => (Throw msg, s).
Definition try_catch {A} (body : R A) (handler : string -> R A) : R A :=
  fun s =>
    match body s with
    | (Normal a, s') => (Normal a, s')
    | (Throw e, s') => handler e s'
    end.
Definition settle {A} (c : Completion A) : R A := fun s => (c, s).
Definition read {A} (f : State -> A) : R A := fun s => (Normal (f s), s).
Definition observe (o : Obs) : R unit := fun s =>
  (Normal tt,
   mkState (current s) (pending s) (locals s) (seen s ++ [o]) (awaits s) (sets s)).
Definition update_locals (f : Frame -> Frame) : R unit := fun s =>
  (Normal tt, mkState (current s) (pending s) (f (locals s)) (seen s) (awaits s) (sets s)).

(** A render calls the queued functions in order, each on what the one
    before returned, and shows the last state. *)
Fixpoint flush (newOutline : list Chapter) (ups : list Update) (prev : option BookData)
    : option BookData * list Obs :=
  match ups with
  | [] => (prev, [])
  | Computed u b :: rest => flush newOutline rest b
  | Deferred u :: rest =>
      let b := run_updater newOutline u prev in
      let r := flush newOutline rest b in
      (r.1, Returned u b :: r.2)
  end.

Definition render (s : State) : State :=
  match pending s with
  | [] => s
  | _ :: _ =>
      let r := flush (newOutline (locals s)) (pending s) (current s) in
      mkState r.1 [] (locals s) (seen s ++ r.2 ++ [Committed r.1]) (awaits s) (sets s)
  end.

Definition turn (t : Turn) (s : State) : State :=
  match t with
  | Render => render s
  | Handler f =>
      mkState (current s) (pending s ++ [Deferred (Other f)]) (locals s) (seen s)
        (awaits s) (sets s)
  end.

Section Run.
Variable sch : Schedule.

(** The update is queued. *)
Definition queue_update (u : Updater) (s : State) : State :=
  match pending s with
  | [] =>
      if eager sch (sets s) then
        let b := run_updater (newOutline (locals s)) u (current s) in
        mkState (current s) [Computed u b] (locals s) (seen s ++ [Returned u b])
          (awaits s) (S (sets s))
      else mkState (current s) [Deferred u] (locals s) (seen s) (awaits s) (S (sets s))
  | _ :: _ =>
      mkState (current s) (pending s ++ [Deferred u]) (locals s) (seen s)
        (awaits s) (S (sets s))
  end.

Definition setBookData (u : Updater) : R unit := fun s =>
  (Normal tt,
   if sync sch (sets s) then render (queue_update u s) else queue_update u s).

(** The run is suspended; the turns of this [await] are taken. *)
Definition await : R unit := fun s =>
  (Normal tt,
   foldl (fun s t => turn t s)
     (mkState (current s) (pending s) (locals s) (seen s) (S (awaits s)) (sets s))
     (turns sch (awaits s))).

(** The other state variables are set to values; their requests are
    recorded. *)
Definition setStatus (st : GenerationStatus) : R unit := observe (Did (StatusSet st)).
Definition console_error (label : string) : R unit := observe (Did (ConsoleError label)).
Definition updateProgress (msg : string) : R unit :=
  f ← read locals ;
  observe (Did (ProgressShown (mkProgress (completedSteps f) (totalSteps f) msg))).

(** The calls of the client, awaited. *)
Definition generateBookCover (P : Provider) (title style : string)
    (format : BookFormat) : R string :=
  observe (Did (Called (CallCover title style format))) ;;
  await ;;
  settle (generateImage P (cover_answer P)).

Definition generateChapterIllustration (P : Provider) (i : nat)
    (chapterTitle style : string) (format : BookFormat) : R string :=
  observe (Did (Called (CallIllustration chapterTitle style format))) ;;
  await ;;
  settle (generateImage P (illustration_answer P i)).

Definition generateChapterContentStream (P : Provider) (i : nat)
    (chapter : Chapter) (bookTitle : string) (config : BookConfig)
    (previousChapterSummary : option string) : R Generator :=
  observe (Did (Called (CallChapterStream chapter bookTitle config previousChapterSummary))) ;;
  mret (chapter_generator P i).

(** [for await (const chunk of stream) body(chunk)]: every step of the
    generator is awaited. *)
Fixpoint for_await (frags : list string) (broken : option string)
    (body : string -> R unit) : R unit :=
  match frags with
  | [] => await ;;
          match broken with
          | None => mret tt
          | Some e => throw e
          end
  | chunk :: rest => await ;; body chunk ;; for_await rest broken body
  end.

Definition set_completedSteps (n : nat) : R unit :=
  update_locals (fun f => mkFrame (totalSteps f) n (newOutline f) (fullText f)).
Definition set_fullText (t : string) : R unit :=
  update_locals (fun f => mkFrame (totalSteps f) (completedSteps f) (newOutline f) t).
Definition set_newOutline (o : list Chapter) : R unit :=
  update_locals (fun f => mkFrame (totalSteps f) (completedSteps f) o (fullText f)).

(** [newOutline[i] = { ...newOutline[i], ... }]: the array is written in
    place. *)
Definition assign_newOutline (i : nat) (f : Chapter -> Chapter) : R unit :=
  o ← read (fun s => newOutline (locals s)) ;
  set_newOutline (alter f i o).

(** [setBookData(prev => prev ? ({ ...prev, outline: [...newOutline] }) : null)]. *)
Definition publish_newOutline : R unit := setBookData NewOutline.

Definition receive_chunk (i : nat) (chunk : string) : R unit :=
  t ← read (fun s => fullText (locals s)) ;
  set_fullText (t +:+ chunk) ;;
  t ← read (fun s => fullText (locals s)) ;
  assign_newOutline i (with_content t) ;;
  publish_newOutline.

Definition stream_text (P : Provider) (bookData : BookData) (i : nat)
    (chapter : Chapter) (prevContext : option string) : R unit :=
  set_fullText "" ;;
  try_catch
    (stream ← generateChapterContentStream P i chapter
                (cfg_title (bd_config bookData)) (bd_config bookData) prevContext ;
     for_await (yields stream) (failure stream) (receive_chunk i))
    (fun streamError =>
       console_error "Stream error" ;;
       t ← read (fun s => fullText (locals s)) ;
       set_fullText (or_else t TEXT_ERROR_PLACEHOLDER)).

Definition illustrate (P : Provider) (bookData : BookData) (i : nat)
    (chapter : Chapter) : R unit :=
  try_catch
    (imageUrl ← generateChapterIllustration P i (ch_title chapter)
                  (cfg_style (bd_config bookData)) (cfg_format (bd_config bookData)) ;
     assign_newOutline i (fun c => with_status completed (with_imageUrl imageUrl c)))
    (fun e =>
       console_error ("Image for chap " +:+ pretty i +:+ " failed") ;;
       assign_newOutline i (with_status completed)).

Definition image_step (P : Provider) (bookData : BookData) (i : nat)
    (chapter : Chapter) : R unit :=
  illustrate P bookData i chapter ;;
  publish_newOutline ;;
  n ← read (fun s => completedSteps (locals s)) ;
  set_completedSteps (n + 1).

Definition generate_chapter (P : Provider) (bookData : BookData) (i : nat) : R unit :=
  o ← read (fun s => newOutline (locals s)) ;
  match o !! i with
  | None => throw "Cannot read properties of undefined (reading 'status')"
  | Some chapter =>
      if skip chapter then
        n ← read (fun s => completedSteps (locals s)) ;
        set_completedSteps (n + 2)
      else
        assign_newOutline i (fun _ => with_status generating_text chapter) ;;
        publish_newOutline ;;
        updateProgress ("Writing Chapter " +:+ pretty (i + 1) +:+ ": "
                        +:+ ch_title chapter +:+ "...") ;;
        o ← read (fun s => newOutline (locals s)) ;
        prevContext ←
          match i with
          | 0 => mret None
          | S j => match o !! j with
                   | Some prev => mret (Some (ch_description prev))
                   | None => throw "Cannot read properties of undefined (reading 'description')"
                   end
          end ;
        stream_text P bookData i chapter prevContext ;;
        t ← read (fun s => fullText (locals s)) ;
        assign_newOutline i (fun c => with_content t (with_status generating_image c)) ;;
        publish_newOutline ;;
        n ← read (fun s => completedSteps (locals s)) ;
        set_completedSteps (n + 1) ;;
        updateProgress ("Illustrating Chapter " +:+ pretty (i + 1) +:+ "...") ;;
        image_step P bookData i chapter
  end.

Fixpoint chapters_loop (P : Provider) (bookData : BookData) (from rounds : nat) : R unit :=
  match rounds with
  | 0 => mret tt
  | S rounds' =>
      generate_chapter P bookData from ;;
      chapters_loop P bookData (S from) rounds'
  end.

Definition generate_cover (P : Provider) (bookData : BookData) : R unit :=
  if truthy (bd_coverImage bookData) then mret tt
  else
    updateProgress "Designing book cover..." ;;
    try_catch
      (coverUrl ← generateBookCover P (cfg_title (bd_config bookData))
                    (cfg_style (bd_config bookData)) (cfg_format (bd_config bookData)) ;
       setBookData (CoverImage coverUrl))
      (fun e => console_error "Cover generation failed").

(** The part of the run from [const newOutline = [...bookData.outline]]
    on. *)
Definition write_chapters (P : Provider) (bookData : BookData) : R unit :=
  set_newOutline (bd_outline bookData) ;;
  o ← read (fun s => newOutline (locals s)) ;
  chapters_loop P bookData 0 (length o) ;;
  setStatus COMPLETED.

(** The run on a project. *)
Definition generate (P : Provider) (bookData : BookData) : R unit :=
  setStatus GENERATING_BOOK ;;
  update_locals (fun _ => mkFrame (1 + length (bd_outline bookData) * 2) 0 [] "") ;;
  try_catch
    (generate_cover P bookData ;;
     n ← read (fun s => completedSteps (locals s)) ;
     set_completedSteps (n + 1) ;;
     write_chapters P bookData)
    (fun e =>
       observe (ErrorSet (Some (or_else e "Generation failed midway."))) ;;
       setStatus ERROR ;;
       if includes "API Key" e then observe DialogOpened else mret tt).

(** The handler belongs to a render: its [bookData] is the state that
    render showed. *)
Definition startFullGeneration (P : Provider) : R unit :=
  b ← read current ;
  match b with
  | None => mret tt
  | Some bookData => generate P bookData
  end.
End Run.

(** The application showing [b], nothing queued, when the generation is
    asked for; and the run to its end, with the render that follows it. *)
Definition start (b : option BookData) : State :=
  mkState b [] (mkFrame 0 0 [] "") [] 0 0.

Definition run (sch : Schedule) (P : Provider) (b : option BookData) : State :=
  render (exec (startFullGeneration sch P) (start b)).

(** The projects the outline updates of the run returned, and what they
    show as the content of section [i]. *)
Definition outlines (l : list Obs) : list (list Chapter) :=
  omap (fun o => match o with
                 | Returned NewOutline (Some bd) => Some (bd_outline bd)
                 | _ => None
                 end) l.

Definition content_at (i : nat) (o : list Chapter) : option string :=
  o !! i ≫= ch_content.

Definition contents (i : nat) (l : list Obs) : list (option string) :=
  content_at i <$> outlines l.

(** Every state of the project React was given or showed, in order. *)
Definition states (l : list Obs) : list (option BookData) :=
  omap (fun o => match o with
                 | Returned _ b => Some b
                 | Committed b => Some b
                 | _ => None
                 end) l.

(** The states the functions passed to [setBookData] returned, and what
    the run did besides, both in order. *)
Definition returned (l : list Obs) : list (option BookData) :=
  omap (fun o => match o with Returned _ b => Some b | _ => None end) l.

Definition did (l : list Obs) : list Event :=
  omap (fun o => match o with Did e => Some e | _ => None end) l.

(** Nothing else sets the project while the run goes on. *)
Definition calm (sch : Schedule) : Prop :=
  forall n, Forall (fun t => t = Render) (turns sch n).

(** Besides, React renders whenever the run is suspended, and a function
    that finds nothing queued is called before [setBookData] returns, at
    once or in a render. *)
Definition timely (sch : Schedule) : Prop :=
  calm sch
  /\ (forall n, turns sch n <> [])
  /\ (forall n, eager sch n || sync sch n = true).

(** Some schedules. React renders during every [await] and calls no
    function before; React renders only when the run is over; the first of
    these with something else setting the project during the [n]-th
    [await], and with a click on Reset there ([setBookData(null)], rendered
    whenever the status is not [IDLE]); React renders during every [await]
    and calls a function at once when nothing is queued; and React renders
    inside every call of [setBookData]. *)
Definition every_await : Schedule :=
  mkSchedule (fun _ => [Render]) (fun _ => false) (fun _ => false).
Definition at_the_end : Schedule :=
  mkSchedule (fun _ => []) (fun _ => false) (fun _ => false).
Definition set_during (n : nat) (f : option BookData -> option BookData) : Schedule :=
  mkSchedule (fun k => if decide (k = n) then [Handler f; Render] else [Render])
    (fun _ => false) (fun _ => false).
Definition reset_during (n : nat) : Schedule := set_during n (fun _ => None).
Definition prompt : Schedule :=
  mkSchedule (fun _ => [Render]) (fun _ => true) (fun _ => false).
Definition unbatched : Schedule :=
  mkSchedule (fun _ => [Render]) (fun _ => false) (fun _ => true).
End Scheduled.

(** ** What holds of a run under every schedule *)

Module Schedules.
Import Scheduled.

(** Whatever state [m] starts in that satisfies [I], the state it ends in
    satisfies [Jn] when it returns and [Je] when it throws. *)
Definition triple {A} (I : State -> Prop) (m : R A) (Jn : A -> State -> Prop)
    (Je : string -> State -> Prop) : Prop :=
  forall s, I s ->
    match m s with
    | (Normal a, s') => Jn a s'
    | (Throw e, s') => Je e s'
    end.

Definition keeps {A} (I : State -> Prop) (m : R A) : Prop :=
  triple I m (fun _ => I) (fun _ => I).

(** From [s] to [s'] the locals of the run have not changed, and the
    outline updates that returned a project returned it with what
    [newOutline] holds. *)
Definition quietly (s s' : State) : Prop :=
  locals s' = locals s
  /\ exists k, outlines (seen s') = outlines (seen s) ++ replicate k (newOutline (locals s)).

(** [m] returns, and changes the state quietly. *)
Definition quiet {A} (m : R A) : Prop :=
  forall s, exists a s', m s = (Normal a, s') /\ quietly s s'.

(** A property of the locals and of the outlines returned so far. *)
Definition about (G : Frame -> list (list Chapter) -> Prop) (s : State) : Prop :=
  G (locals s) (outlines (seen s)).

(** It still holds when one more update returns the present outline. *)
Definition closed (G : Frame -> list (list Chapter) -> Prop) : Prop :=
  forall fr vs, G fr vs -> G fr (vs ++ [newOutline fr]).

(** A property of [newOutline] alone among the locals. *)
Definition on_outline (G : list Chapter -> list (list Chapter) -> Prop)
    : Frame -> list (list Chapter) -> Prop :=
  fun fr vs => G (newOutline fr) vs.

(** No outline update is queued and none has returned: the run has not
    reached [const newOutline]. *)
Definition updater_of (up : Update) : Updater :=
  match up with
  | Deferred u => u
  | Computed u _ => u
  end.

Definition before_outline (s : State) : Prop :=
  outlines (seen s) = [] /\ Forall (fun up => updater_of up <> NewOutline) (pending s).

(** [vs] are elements of [tl] taken at stages that never go back, the last
    one at stage [q]. *)
Inductive sampled {V} (tl : list V) : nat -> list V -> Prop :=
| sampled_nil q : sampled tl q []
| sampled_snoc q q' vs v :
    sampled tl q vs -> q <= q' -> tl !! q' = Some v -> sampled tl q' (vs ++ [v]).

(** The same, with the stages given. *)
Definition in_order {V} (tl vs : list V) : Prop :=
  exists stages : list nat,
    Forall2 (fun st v => tl !! st = Some v) stages vs
    /\ forall k a b, stages !! k = Some a -> stages !! S k = Some b -> a <= b.

(** The contents section [i] goes through in a run: the content it had,
    then, unless the section is skipped, the fragments received so far put
    together, after each fragment, then the text the sub-step leaves. *)
Definition timeline (P : Provider) (i : nat) (c : Chapter) : list (option string) :=
  if skip c then [ch_content c]
  else ch_content c
       :: (Some <$> running "" (yields (chapter_generator P i)))
       ++ [Some (streamed_text (chapter_generator P i))].

(** [t2] is [t1] with something after it, possibly nothing. *)
Definition extends (v1 v2 : option string) : Prop :=
  exists t1 suffix, v1 = Some t1 /\ v2 = Some (t1 +:+ suffix).

(** Section [i] of [newOutline], of [N] sections, holds the content of
    stage [p] of [tl], and what the updates returned so far was taken from
    [tl] in order, up to that stage. *)
Definition at_stage (tl : list (option string)) (i N p : nat)
    : list Chapter -> list (list Chapter) -> Prop :=
  fun o vs =>
    length o = N
    /\ tl !! p = Some (content_at i o)
    /\ exists q, q <= p /\ sampled tl q (content_at i <$> vs).

(** The same at some stage. *)
Definition at_some_stage (tl : list (option string)) (i N : nat) (s : State) : Prop :=
  exists p, about (on_outline (at_stage tl i N p)) s.

(** While the text streams in, [fullText] holds the first [k] fragments. *)
Definition streaming (tl : list (option string)) (i N : nat) (frags : list string)
    (k : nat) : Frame -> list (list Chapter) -> Prop :=
  fun fr vs => at_stage tl i N k (newOutline fr) vs /\ fullText fr = join (take k frags).

(** The sections of [sk], by identifier, title and description. *)
Definition planned (sk : list (string * string * string))
    : list Chapter -> list (list Chapter) -> Prop :=
  fun o vs => skeleton <$> o = sk /\ Forall (fun v => skeleton <$> v = sk) vs.

(** A state that shows a project with the configuration and the creation
    date of [bookData], and with its outline or one of the outlines [os]. *)
Definition kept (bookData : BookData) (os : list (list Chapter))
    (b : option BookData) : Prop :=
  exists bd,
    b = Some bd
    /\ bd_config bd = bd_config bookData
    /\ bd_generatedAt bd = bd_generatedAt bookData
    /\ (bd_outline bd = bd_outline bookData \/ bd_outline bd ∈ os).

Definition queued_well (bookData : BookData) (os : list (list Chapter))
    (up : Update) : Prop :=
  match up with
  | Computed _ b => kept bookData os b
  | Deferred (Other _) => False
  | Deferred _ => True
  end.

(** Only the run has set the project: the state React holds, the states
    computed in advance and every state seen so far are kept ones, with the
    outlines the outline updates returned; and nothing else is queued. *)
Definition undisturbed (bookData : BookData) (s : State) : Prop :=
  kept bookData (outlines (seen s)) (current s)
  /\ Forall (queued_well bookData (outlines (seen s))) (pending s)
  /\ Forall (kept bookData (outlines (seen s))) (states (seen s)).

(** ** The run with every function called as it is passed *)

(** What a log shows besides the snapshots. *)
Definition unpublished (l : list Event) : list Event :=
  omap (fun e => match e with Published _ => None | _ => Some e end) l.

(** The world [w] of a run in which every function is called as it is
    passed, and the state [s] of the run as React schedules it, agree: the
    locals are the same, the project of [w] is the one React will hold once
    it has called what is queued, and the snapshots of [w] after [base] are
    the states returned in [s] followed by the ones still to be returned;
    what the runs did besides is the same. *)
Definition agrees (base : list (option BookData)) (past : list Event)
    (w : World) (s : State) : Prop :=
  let r := flush (newOutline (locals s)) (pending s) (current s) in
  frame w = locals s
  /\ app_bookData (app w) = r.1
  /\ snapshots (log w) = base ++ returned (seen s) ++ returned r.2
  /\ unpublished (log w) = past ++ did (seen s).

(** Nothing is queued; what is queued has been called already. *)
Definition clear (ups : list Update) : Prop := ups = [].
Definition settled (ups : list Update) : Prop :=
  Forall (fun up => match up with Computed _ _ => True | Deferred _ => False end) ups.
Definition any (ups : list Update) : Prop := True.

(** [me] and [ms] end the same way, in a world and a state that agree when
    they started in ones that do; [X], [Yn] and [Ye] are about what is
    queued before and after. *)
Definition sim {A} (base : list (option BookData)) (past : list Event)
    (X : list Update -> Prop) (me : M A) (ms : R A)
    (Yn Ye : list Update -> Prop) : Prop :=
  forall w s, agrees base past w s -> X (pending s) ->
    match me w, ms s with
    | (Normal a, w'), (Normal a', s') =>
        a = a' /\ agrees base past w' s' /\ Yn (pending s')
    | (Throw e, w'), (Throw e', s') =>
        e = e' /\ agrees base past w' s' /\ Ye (pending s')
    | _, _ => False
    end.
End Schedules.

(** * Evaluation of the model *)

(** Unfolds the monad and the state setters. *)
Ltac run :=
  cbv [mbind M_bind mret M_ret read update update_app update_frame emit settle throw
       try_catch setStatus setConfig setError setIsApiKeyModalOpen setGenerationProgress setBookData
       console_error updateProgress set_completedSteps set_fullText set_newOutline
       assign_newOutline publish_newOutline store_bookData generateChapterContentStream
       generateChapterIllustration generateBookCover];
  cbn [app frame log fullText newOutline totalSteps completedSteps app_bookData app_status
       app_config app_error app_isApiKeyModalOpen app_generationProgress fst snd].

Lemma append_cons (x : Ascii.ascii) (a b : string) :
  String x a +:+ b = String x (a +:+ b).
Proof. reflexivity. Qed.

Lemma append_assoc (a b c : string) : (a +:+ b) +:+ c = a +:+ (b +:+ c).
Proof. induction a as [|x a IH]; [done | by rewrite !append_cons, IH]. Qed.

Lemma append_empty_r (a : string) : a +:+ "" = a.
Proof. induction a as [|x a IH]; [done | by rewrite append_cons, IH]. Qed.

Lemma alter_const {A} (x : A) (i : nat) (l : list A) :
  alter (fun _ => x) i l = <[i := x]> l.
Proof. revert i. induction l as [|y l IH]; intros [|i]; f_equal/=; auto. Qed.

Lemma alter_insert {A} (f : A -> A) (x : A) (i : nat) (l : list A) :
  alter f i (<[i := x]> l) = <[i := f x]> l.
Proof. revert i. induction l as [|y l IH]; intros [|i]; f_equal/=; auto. Qed.

Lemma with_outline_twice o1 o2 (b : option BookData) :
  with_outline o1 <$> (with_outline o2 <$> b) = with_outline o1 <$> b.
Proof. by destruct b. Qed.

Lemma with_outline_shown i o b c o' :
  with_outline o' <$> shown i o b c = with_outline o' <$> b.
Proof. by destruct b. Qed.

(** *** Evaluating the stream *)

Lemma receive_chunk_eq i chunk w :
  receive_chunk i chunk w = (Normal tt, after_chunk i chunk w).
Proof. reflexivity. Qed.

Lemma for_await_eq i frags broken w :
  for_await frags broken (receive_chunk i) w =
  (match broken with None => Normal tt | Some e => Throw e end,
   after_chunks i frags w).
Proof.
  revert w. induction frags as [|c frags IH]; intros w; simpl.
  - by destruct broken.
  - unfold mbind, M_bind. rewrite receive_chunk_eq. apply IH.
Qed.

Lemma after_chunks_eq i x o b frags : forall st cfg err modal prog total steps acc l,
  after_chunks i frags
    (mkWorld (mkApp st cfg (shown i o b x) err modal prog)
       (mkFrame total steps (<[i := x]> o) acc) l) =
  mkWorld
    (mkApp st cfg (shown i o b (latest x (running acc frags))) err modal prog)
    (mkFrame total steps (<[i := latest x (running acc frags)]> o) (acc +:+ join frags))
    (l ++ map (fun t => Published (shown i o b (with_content t x))) (running acc frags)).
Proof.
  revert x. induction frags as [|f frags IH]; intros; simpl.
  - by rewrite append_empty_r, app_nil_r.
  - unfold after_chunk at 1, store_bookData. cbn [app frame log fullText newOutline totalSteps
      completedSteps app_bookData app_status app_config app_error app_isApiKeyModalOpen
      app_generationProgress].
    rewrite alter_insert, with_outline_shown.
    change (with_outline (<[i:=with_content (acc +:+ f) x]> o) <$> b)
      with (shown i o b (with_content (acc +:+ f) x)).
    rewrite IH, append_assoc, <- app_assoc. simpl.
    unfold latest. rewrite last_cons.
    by destruct (last (running (acc +:+ f) frags)).
Qed.

Lemma stream_text_eq P bookData i c x o b prev st cfg err modal prog total steps acc l :
  stream_text P bookData i c prev
    (mkWorld (mkApp st cfg (shown i o b x) err modal prog)
       (mkFrame total steps (<[i := x]> o) acc) l) =
  (Normal tt,
   let g := chapter_generator P i in
   mkWorld
     (mkApp st cfg (shown i o b (latest x (running "" (yields g)))) err modal prog)
     (mkFrame total steps (<[i := latest x (running "" (yields g))]> o) (streamed_text g))
     (l ++ stream_events P bookData i c x o b prev)).
Proof.
  unfold stream_text, stream_events, streamed_text. run.
  rewrite for_await_eq, after_chunks_eq.
  destruct (failure (chapter_generator P i)); run.
  - by rewrite <- !app_assoc.
  - by rewrite <- !app_assoc, app_nil_r.
Qed.

Lemma prev_context_eval (o : list Chapter) (i : nat) (x : Chapter) :
  i < length o ->
  match i with
  | 0 => mret (M := M) None
  | S j =>
      match <[i := x]> o !! j with
      | Some prev => mret (Some (ch_description prev))
      | None => throw "Cannot read properties of undefined (reading 'description')"
      end
  end = mret (prev_context o i).
Proof.
  intros Hi. destruct i as [|j]; [done|]. simpl.
  rewrite list_lookup_insert_ne by lia.
  destruct (lookup_lt_is_Some_2 o j) as [prev ->]; [lia | done].
Qed.

Lemma generate_chapter_skip P bookData i c w :
  newOutline (frame w) !! i = Some c -> skip c = true ->
  generate_chapter P bookData i w =
  (Normal tt,
   mkWorld (app w)
     (mkFrame (totalSteps (frame w)) (completedSteps (frame w) + 2)
        (newOutline (frame w)) (fullText (frame w)))
     (log w)).
Proof. intros Hc Hs. unfold generate_chapter. run. by rewrite Hc, Hs. Qed.

Lemma written_chapter_eq P i c ts :
  with_content (streamed_text (chapter_generator P i))
    (with_status generating_image (latest (with_status generating_text c) ts))
  = written_chapter P i c.
Proof. unfold latest. by destruct (last ts). Qed.

Lemma generate_chapter_eq P bookData i c o b st cfg err modal prog total steps acc l :
  o !! i = Some c -> skip c = false ->
  generate_chapter P bookData i
    (mkWorld (mkApp st cfg b err modal prog) (mkFrame total steps o acc) l) =
  (Normal tt,
   mkWorld
     (mkApp st cfg (shown i o b (final_chapter P i c)) err modal
        (mkProgress (steps + 1) total (illustrating_message i)))
     (mkFrame total (steps + 1 + 1) (<[i := final_chapter P i c]> o)
        (streamed_text (chapter_generator P i)))
     (l ++ round_events P bookData i c o b steps total)).
Proof.
  intros Hc Hs. unfold generate_chapter, image_step, illustrate. run. rewrite Hc, Hs. run.
  rewrite alter_const, prev_context_eval by (by eapply lookup_lt_Some).
  run.
  change (with_outline (<[i:=with_status generating_text c]> o) <$> b)
    with (shown i o b (with_status generating_text c)).
  rewrite stream_text_eq. run.
  rewrite alter_insert, with_outline_shown, written_chapter_eq.
  unfold round_events, stream_events, final_chapter, illustrating_message, writing_message.
  rewrite Hs.
  destruct (generateImage P (illustration_answer P i)) as [imageUrl|e]; run;
    rewrite alter_insert; unfold shown; rewrite ?with_outline_twice, <- !app_assoc.
  all: reflexivity.
Qed.

Lemma alter_final_chapter P i (o : list Chapter) c :
  o !! i = Some c ->
  alter (final_chapter P i) i o = if skip c then o else <[i := final_chapter P i c]> o.
Proof.
  intros Hc. apply list_eq. intros j.
  destruct (decide (i = j)) as [<-|Hne].
  - rewrite list_lookup_alter_eq, Hc. simpl. unfold final_chapter at 1.
    destruct (skip c) eqn:Hs; [done|].
    rewrite list_lookup_insert_eq by (by eapply lookup_lt_Some).
    unfold final_chapter. by rewrite Hs.
  - rewrite list_lookup_alter_ne by done.
    destruct (skip c); [done | by rewrite list_lookup_insert_ne].
Qed.

(** *** Evaluating the loop *)

Lemma chapters_loop_eq P bookData n :
  forall from o b st cfg err modal prog total steps acc l,
  from + n <= length o ->
  exists prog' acc',
    chapters_loop P bookData from n
      (mkWorld (mkApp st cfg b err modal prog) (mkFrame total steps o acc) l) =
    (Normal tt,
     mkWorld (mkApp st cfg (loop_book P from n o b) err modal prog')
       (mkFrame total (steps + 2 * n) (finish P from n o) acc')
       (l ++ loop_events P bookData from n o b steps total)).
Proof.
  induction n as [|n IH]; intros from o b st cfg err modal prog total steps acc l Hn.
  - exists prog, acc. simpl. by rewrite Nat.add_0_r, app_nil_r.
  - destruct (lookup_lt_is_Some_2 o from) as [c Hc]; [lia|].
    replace (steps + 2 * S n) with (steps + 2 + 2 * n) by lia.
    simpl. unfold mbind, M_bind. unfold round_book. rewrite Hc.
    rewrite (alter_final_chapter _ _ _ _ Hc).
    destruct (skip c) eqn:Hs.
    + rewrite (generate_chapter_skip _ _ _ c) by done. cbn [app frame log totalSteps
        completedSteps newOutline fullText].
      destruct (IH (S from) o b st cfg err modal prog total (steps + 2) acc l) as
        (prog' & acc' & ->); [lia|].
      by exists prog', acc'.
    + rewrite (generate_chapter_eq _ _ _ c) by done.
      edestruct (IH (S from)) as (prog' & acc' & ->);
        [rewrite length_insert; lia|].
      exists prog', acc'. rewrite <- app_assoc.
      by replace (steps + 1 + 1) with (steps + 2) by lia.
Qed.

(** *** Evaluating a whole run *)

Lemma generate_cover_eq P bookData st cfg err modal prog total acc l :
  exists prog',
    generate_cover P bookData
      (mkWorld (mkApp st cfg (Some bookData) err modal prog) (mkFrame total 0 [] acc) l) =
    (Normal tt,
     mkWorld (mkApp st cfg (Some (cover_book P bookData)) err modal prog')
       (mkFrame total 0 [] acc) (l ++ cover_events P bookData total)).
Proof.
  unfold generate_cover, cover_book, cover_events.
  destruct (truthy (bd_coverImage bookData)).
  - exists prog. run. by rewrite app_nil_r.
  - eexists. run.
    destruct (generateImage P (cover_answer P)); run; by rewrite <- !app_assoc.
Qed.

Lemma startFullGeneration_eq P bookData st cfg err modal prog f l :
  exists prog' acc',
    startFullGeneration P (mkWorld (mkApp st cfg (Some bookData) err modal prog) f l) =
    (Normal tt,
     let n := length (bd_outline bookData) in
     mkWorld
       (mkApp COMPLETED cfg
          (loop_book P 0 n (bd_outline bookData) (Some (cover_book P bookData)))
          err modal prog')
       (mkFrame (1 + n * 2) (1 + 2 * n) (finish P 0 n (bd_outline bookData)) acc')
       (l ++ run_events P bookData)).
Proof.
  unfold startFullGeneration, run_events. run.
  edestruct (generate_cover_eq P bookData) as (prog1 & ->).
  run.
  edestruct (chapters_loop_eq P bookData (length (bd_outline bookData)) 0) as
    (prog' & acc' & ->); [simpl; lia|].
  exists prog', acc'. run. by rewrite <- !app_assoc.
Qed.

Lemma startFullGeneration_without_project P w :
  app_bookData (app w) = None -> startFullGeneration P w = (Normal tt, w).
Proof. intros Hb. unfold startFullGeneration. run. by rewrite Hb. Qed.

(** *** The outline and the project a run leaves *)

Lemma final_chapter_description P i c :
  ch_description (final_chapter P i c) = ch_description c.
Proof. unfold final_chapter. by destruct (skip c). Qed.

Lemma finish_lookup P n : forall from (o : list Chapter) j,
  finish P from n o !! j =
  if bool_decide (from <= j < from + n) then final_chapter P j <$> o !! j else o !! j.
Proof.
  induction n as [|n IH]; intros from o j; simpl.
  - rewrite bool_decide_eq_false_2 by lia. done.
  - rewrite IH. destruct (decide (j = from)) as [->|Hne].
    + rewrite bool_decide_eq_false_2 by lia. rewrite bool_decide_eq_true_2 by lia.
      apply list_lookup_alter_eq.
    + rewrite list_lookup_alter_ne by done.
      case_bool_decide; case_bool_decide; (done || lia).
Qed.

Lemma finish_all P (o : list Chapter) j :
  finish P 0 (length o) o !! j = final_chapter P j <$> o !! j.
Proof.
  rewrite finish_lookup. case_bool_decide as Hj; [done|].
  rewrite lookup_ge_None_2 by lia. done.
Qed.

Lemma alter_out_of_range {A} (f : A -> A) (i : nat) (l : list A) :
  l !! i = None -> alter f i l = l.
Proof.
  intros Hi. apply list_eq. intros j. destruct (decide (i = j)) as [<-|Hne].
  - by rewrite list_lookup_alter_eq, Hi.
  - by rewrite list_lookup_alter_ne.
Qed.

Lemma with_outline_same (bd : BookData) : with_outline (bd_outline bd) bd = bd.
Proof. by destruct bd. Qed.

Lemma round_book_synced P i bd :
  exists bd', round_book P i (bd_outline bd) (Some bd) = Some bd'
    /\ bd_outline bd' = alter (final_chapter P i) i (bd_outline bd)
    /\ forall o, with_outline o bd' = with_outline o bd.
Proof.
  unfold round_book. destruct (bd_outline bd !! i) as [c|] eqn:Hc.
  - rewrite (alter_final_chapter _ _ _ _ Hc). destruct (skip c).
    + by exists bd.
    + by eexists.
  - exists bd. split_and!; [done| |done].
    by rewrite alter_out_of_range.
Qed.

Lemma loop_book_synced P n : forall from bd,
  loop_book P from n (bd_outline bd) (Some bd) =
  Some (with_outline (finish P from n (bd_outline bd)) bd).
Proof.
  induction n as [|n IH]; intros from bd; simpl.
  - by rewrite with_outline_same.
  - destruct (round_book_synced P from bd) as (bd' & -> & Ho & Hw).
    rewrite <- Ho, IH. by rewrite Hw.
Qed.

Lemma cover_book_outline P bd : bd_outline (cover_book P bd) = bd_outline bd.
Proof.
  unfold cover_book. destruct (truthy _); [done|].
  by destruct (generateImage _ _).
Qed.

(** Everything a run leaves behind, for any provider and any project. *)
Lemma run_summary P w bookData :
  app_bookData (app w) = Some bookData ->
  let n := length (bd_outline bookData) in
  let w' := exec (startFullGeneration P) w in
  outcome (startFullGeneration P) w = Normal tt
  /\ app_status (app w') = COMPLETED
  /\ app_config (app w') = app_config (app w)
  /\ app_error (app w') = app_error (app w)
  /\ app_isApiKeyModalOpen (app w') = app_isApiKeyModalOpen (app w)
  /\ app_bookData (app w') =
       Some (with_outline (finish P 0 n (bd_outline bookData)) (cover_book P bookData))
  /\ totalSteps (frame w') = 1 + n * 2
  /\ completedSteps (frame w') = 1 + 2 * n
  /\ newOutline (frame w') = finish P 0 n (bd_outline bookData)
  /\ log w' = log w ++ run_events P bookData.
Proof.
  destruct w as [[st cfg b err modal prog] f l]. simpl. intros ->.
  destruct (startFullGeneration_eq P bookData st cfg err modal prog f l) as
    (prog' & acc' & Heq).
  unfold exec, outcome. rewrite Heq. simpl.
  pose proof (loop_book_synced P (length (bd_outline bookData)) 0 (cover_book P bookData))
    as Hb.
  rewrite cover_book_outline in Hb. by rewrite Hb.
Qed.

(** *** The provider calls of a run *)

Lemma calls_app l1 l2 : calls (l1 ++ l2) = calls l1 ++ calls l2.
Proof. apply omap_app. Qed.

Lemma calls_published {A} (f : A -> option BookData) (l : list A) :
  calls (map (fun x => Published (f x)) l) = [].
Proof. induction l; simpl; auto. Qed.

Lemma calls_round_events P bookData i c o b steps total :
  skip c = false ->
  calls (round_events P bookData i c o b steps total) = round_calls bookData o i c.
Proof.
  intros Hs. unfold round_events, round_calls. rewrite Hs.
  rewrite !calls_app, calls_published.
  destruct (failure _), (generateImage _ _); reflexivity.
Qed.

Lemma prev_context_alter P k (o : list Chapter) i :
  prev_context (alter (final_chapter P k) k o) i = prev_context o i.
Proof.
  destruct i as [|j]; [done|]. simpl.
  destruct (decide (k = j)) as [->|Hne].
  - rewrite list_lookup_alter_eq. destruct (o !! j); simpl; [|done].
    by rewrite final_chapter_description.
  - by rewrite list_lookup_alter_ne.
Qed.

Lemma loop_calls_alter P bookData k n : forall from (o : list Chapter),
  k < from ->
  loop_calls bookData (alter (final_chapter P k) k o) from n = loop_calls bookData o from n.
Proof.
  induction n as [|n IH]; intros from o Hk; simpl; [done|].
  rewrite IH by lia. rewrite list_lookup_alter_ne by lia.
  destruct (o !! from); [|done].
  unfold round_calls. by rewrite prev_context_alter.
Qed.

Lemma calls_loop_events P bookData n : forall from o b steps total,
  calls (loop_events P bookData from n o b steps total) = loop_calls bookData o from n.
Proof.
  induction n as [|n IH]; intros; simpl; [done|].
  rewrite calls_app, IH, loop_calls_alter by lia. f_equal.
  destruct (o !! from) as [c|]; [|done].
  destruct (skip c) eqn:Hs.
  - unfold round_calls. by rewrite Hs.
  - by apply calls_round_events.
Qed.

Lemma calls_cover_events P bookData total :
  calls (cover_events P bookData total) = cover_calls bookData.
Proof.
  unfold cover_events, cover_calls. destruct (truthy _); [done|].
  by destruct (generateImage _ _).
Qed.

Lemma calls_run_events P bookData :
  calls (run_events P bookData) =
  cover_calls bookData
  ++ loop_calls bookData (bd_outline bookData) 0 (length (bd_outline bookData)).
Proof.
  unfold run_events. rewrite !calls_app, calls_cover_events, calls_loop_events.
  simpl. by rewrite app_nil_r.
Qed.

Lemma loop_calls_split bookData (o : list Chapter) i c : forall n from,
  from <= i < from + n -> o !! i = Some c ->
  loop_calls bookData o from n =
  loop_calls bookData o from (i - from) ++ round_calls bookData o i c
  ++ loop_calls bookData o (S i) (from + n - S i).
Proof.
  induction n as [|n IH]; intros from Hi Hc; [lia|].
  destruct (decide (from = i)) as [->|Hne].
  - rewrite Nat.sub_diag. simpl. rewrite Hc. do 2 f_equal. lia.
  - simpl. rewrite (IH (S from)) by (done || lia).
    replace (i - from) with (S (i - S from)) by lia. simpl.
    rewrite <- app_assoc. do 4 f_equal. lia.
Qed.

(** *** A round within a run *)

(** The section a run leaves at position [i] of the project. *)
Lemma run_final_section P w bookData i c :
  app_bookData (app w) = Some bookData ->
  bd_outline bookData !! i = Some c ->
  app_bookData (app (exec (startFullGeneration P) w)) ≫= (fun b => bd_outline b !! i)
  = Some (final_chapter P i c).
Proof.
  intros Hb Hc.
  destruct (run_summary P w bookData Hb) as (_ & _ & _ & _ & _ & Hbook & _).
  cbv zeta in Hbook. rewrite Hbook. simpl. by rewrite finish_all, Hc.
Qed.

(** The events of the round of a section that is not skipped are part of
    the events of the loop, over an outline of the same length
    and a project that is there when it was before. *)
Lemma loop_events_round P bookData i c n : forall from (o : list Chapter) b steps total,
  from <= i < from + n -> o !! i = Some c -> skip c = false ->
  exists before after o' b' steps',
    loop_events P bookData from n o b steps total =
    before ++ round_events P bookData i c o' b' steps' total ++ after
    /\ length o' = length o
    /\ (is_Some b -> is_Some b').
Proof.
  induction n as [|n IH]; intros from o b steps total Hi Hc Hs; [lia|].
  destruct (decide (from = i)) as [->|Hne]; simpl.
  - rewrite Hc, Hs. by exists [], (loop_events P bookData (S i) n
      (alter (final_chapter P i) i o) (round_book P i o b) (steps + 2) total), o, b, steps.
  - destruct (IH (S from) (alter (final_chapter P from) from o) (round_book P from o b)
                (steps + 2) total) as (before & after & o' & b' & steps' & -> & Hlen & Hsome);
      [lia | by rewrite list_lookup_alter_ne | done |].
    eexists (_ ++ before), after, o', b', steps'. split_and!.
    + by rewrite <- app_assoc.
    + by rewrite Hlen, length_alter.
    + intros Hb. apply Hsome. unfold round_book, shown.
      destruct (o !! from) as [c0|]; [|done]. destruct (skip c0); [done|].
      by apply fmap_is_Some.
Qed.

(** The publication between the two sub-steps of a round, and what
    surrounds it. *)
Lemma round_events_middle P bookData i c o b steps total :
  exists pre post,
    round_events P bookData i c o b steps total =
    pre
    ++ [Published (shown i o b (written_chapter P i c));
        ProgressShown (mkProgress (steps + 1) total (illustrating_message i));
        Called (CallIllustration (ch_title c) (cfg_style (bd_config bookData))
                  (cfg_format (bd_config bookData)))]
    ++ post.
Proof.
  unfold round_events.
  exists ([Published (shown i o b (with_status generating_text c));
           ProgressShown (mkProgress steps total (writing_message i c));
           Called (CallChapterStream c (cfg_title (bd_config bookData))
                     (bd_config bookData) (prev_context o i))]
          ++ map (fun t => Published (shown i o b (writing_chapter c t)))
               (running "" (yields (chapter_generator P i)))
          ++ (if failure (chapter_generator P i) is Some _
              then [ConsoleError "Stream error"] else [])),
    ((match generateImage P (illustration_answer P i) with
      | Normal _ => []
      | Throw _ => [ConsoleError ("Image for chap " +:+ pretty i +:+ " failed")]
      end)
     ++ [Published (shown i o b (final_chapter P i c))]).
  by rewrite <- !app_assoc.
Qed.

(** * The properties of the specification *)

(** ** C1: the step count *)

(** C1. For every project with N sections the run computes
    [totalSteps = 1 + 2N], ends normally with status [COMPLETED], and leaves
    [completedSteps] equal to [totalSteps], whatever the provider answers
    (so whichever sections are skipped and whichever cover, text or image
    calls fail). *)
Theorem C1_steps_completed_reach_total (P : Provider) (w : World) (bookData : BookData) :
  app_bookData (app w) = Some bookData ->
  let w' := exec (startFullGeneration P) w in
  outcome (startFullGeneration P) w = Normal tt
  /\ app_status (app w') = COMPLETED
  /\ totalSteps (frame w') = 1 + 2 * length (bd_outline bookData)
  /\ completedSteps (frame w') = totalSteps (frame w').
Proof.
  intros Hb. destruct (run_summary P w bookData Hb) as
    (Hout & Hst & _ & _ & _ & _ & Htot & Hsteps & _).
  cbv zeta. rewrite Hout, Hst, Htot, Hsteps. split_and!; (done || lia).
Qed.

(** On the sample project, with two streams that break. *)
Lemma C1_witness :
  app_bookData (app Sample.reviewing) = Some Sample.project
  /\ let w' := exec (startFullGeneration Sample.provider_broken_stream) Sample.reviewing in
     outcome (startFullGeneration Sample.provider_broken_stream) Sample.reviewing = Normal tt
     /\ app_status (app w') = COMPLETED
     /\ totalSteps (frame w') = 1 + 2 * length (bd_outline Sample.project)
     /\ completedSteps (frame w') = totalSteps (frame w').
Proof.
  split.
  - vm_compute. reflexivity.
  - apply (C1_steps_completed_reach_total Sample.provider_broken_stream Sample.reviewing
             Sample.project).
    vm_compute. reflexivity.
Defined.

(** The scenario of the specification: three sections, seven steps. *)
Example scenario_seven_steps :
  completedSteps (frame Sample.finished) = 7
  /\ app_status (app Sample.finished) = COMPLETED
  /\ statuses (log Sample.finished) =
     [GENERATING_OUTLINE; REVIEWING_OUTLINE; GENERATING_BOOK; COMPLETED].
Proof. vm_compute. done. Qed.

(** The progress that is displayed lags behind the counter: the last update
    is shown before the last image is made. *)
Example scenario_displayed_progress :
  app_generationProgress (app Sample.finished)
  = mkProgress 6 7 "Illustrating Chapter 3...".
Proof. vm_compute. reflexivity. Qed.

(** ** C2: resuming a finished project *)

Lemma truthy_Some (v : option string) :
  truthy v = true <-> exists s, v = Some s /\ s <> "".
Proof.
  destruct v as [s|]; simpl.
  - rewrite negb_true_iff, String.eqb_neq. split; [eauto | by intros (? & [= <-] & ?)].
  - split; [done | by intros (? & ? & ?)].
Qed.

Lemma skip_fully_done (c : Chapter) : skip c = true <-> fully_done c.
Proof.
  unfold skip, fully_done.
  rewrite !andb_true_iff, bool_decide_eq_true, !truthy_Some. tauto.
Qed.

Lemma final_chapter_skip P i c : skip c = true -> final_chapter P i c = c.
Proof. unfold final_chapter. by intros ->. Qed.

Lemma finish_all_done P n : forall from (o : list Chapter),
  Forall fully_done o -> finish P from n o = o.
Proof.
  intros from o Ho. apply list_eq. intros j. rewrite finish_lookup.
  case_bool_decide; [|done].
  destruct (o !! j) as [c|] eqn:Hc; [|done]. simpl.
  rewrite final_chapter_skip; [done|].
  apply skip_fully_done. by eapply (Forall_lookup_1 _ _ _ _ Ho).
Qed.

Lemma loop_events_all_done P bookData n : forall from o b steps total,
  Forall fully_done o -> loop_events P bookData from n o b steps total = [].
Proof.
  induction n as [|n IH]; intros from o b steps total Ho; simpl; [done|].
  assert (Hskip : forall c, o !! from = Some c -> skip c = true).
  { intros c Hc. apply skip_fully_done. by eapply (Forall_lookup_1 _ _ _ _ Ho). }
  assert (Ho' : alter (final_chapter P from) from o = o).
  { destruct (o !! from) as [c|] eqn:Hc.
    - by rewrite (alter_final_chapter _ _ _ _ Hc), (Hskip c).
    - by apply alter_out_of_range. }
  rewrite Ho', IH by done.
  destruct (o !! from) as [c|]; [|done]. by rewrite (Hskip c).
Qed.

(** C2, as the code has it. On a project in which every section is done with
    a non-empty content and a non-empty illustration reference, a run makes
    no text and no illustration call and leaves every section as it was; its
    only provider call is the one for the cover, made when the project has
    no cover image. When the project has a cover image the run makes no
    provider call at all, publishes nothing and leaves the project
    unchanged. *)
Theorem C2_resume_of_finished_project (P : Provider) (w : World) (bookData : BookData) :
  app_bookData (app w) = Some bookData ->
  Forall fully_done (bd_outline bookData) ->
  let w' := exec (startFullGeneration P) w in
  (bd_outline <$> app_bookData (app w') = Some (bd_outline bookData)
   /\ calls (log w') = calls (log w) ++ cover_calls bookData)
  /\ (truthy (bd_coverImage bookData) = true ->
      app_bookData (app w') = Some bookData
      /\ calls (log w') = calls (log w)
      /\ snapshots (log w') = snapshots (log w)).
Proof.
  intros Hb Hdone.
  destruct (run_summary P w bookData Hb) as (_ & _ & _ & _ & _ & Hbook & _ & _ & _ & Hlog).
  cbv zeta in *. rewrite finish_all_done in Hbook by done.
  assert (Hev : run_events P bookData =
                [StatusSet GENERATING_BOOK] ++ cover_events P bookData
                   (1 + length (bd_outline bookData) * 2) ++ [StatusSet COMPLETED]).
  { unfold run_events. by rewrite loop_events_all_done. }
  rewrite Hbook, Hlog, Hev. split; [split|].
  - done.
  - rewrite !calls_app, calls_cover_events. simpl. by rewrite app_nil_r.
  - intros Hcover. unfold cover_book, cover_events. rewrite Hcover.
    rewrite with_outline_same. split_and!; [done| |].
    + unfold calls. rewrite omap_app. simpl. by rewrite app_nil_r.
    + unfold snapshots. rewrite omap_app. simpl. by rewrite app_nil_r.
Qed.

Lemma C2_witness :
  app_bookData (app Sample.finished) = Some Sample.finished_project
  /\ Forall fully_done (bd_outline Sample.finished_project)
  /\ let w' := exec (startFullGeneration Sample.provider) Sample.finished in
     (bd_outline <$> app_bookData (app w') = Some (bd_outline Sample.finished_project)
      /\ calls (log w') = calls (log Sample.finished) ++ cover_calls Sample.finished_project)
     /\ (truthy (bd_coverImage Sample.finished_project) = true ->
         app_bookData (app w') = Some Sample.finished_project
         /\ calls (log w') = calls (log Sample.finished)
         /\ snapshots (log w') = snapshots (log Sample.finished)).
Proof.
  assert (Hdone : Forall fully_done (bd_outline Sample.finished_project)).
  { repeat constructor; eexists; (split; [reflexivity | discriminate]). }
  split; [vm_compute; reflexivity | split; [exact Hdone|]].
  apply (C2_resume_of_finished_project Sample.provider Sample.finished
           Sample.finished_project); [vm_compute; reflexivity | exact Hdone].
Defined.

(** C2 as stated fails: every section of the project is done, with content
    and illustration, yet the run calls the provider, for the cover the
    earlier run could not make, and the project changes. *)
Lemma C2_counterexample :
  let w := Sample.finished_without_cover in
  let w' := exec (startFullGeneration Sample.provider) w in
  (exists bookData, app_bookData (app w) = Some bookData
                    /\ Forall fully_done (bd_outline bookData))
  /\ calls (log w') = calls (log w) ++ [CallCover "A Title" "Modern Minimalist" ebook]
  /\ app_bookData (app w') <> app_bookData (app w).
Proof.
  split_and!.
  - eexists. split; [vm_compute; reflexivity|].
    repeat constructor; eexists; (split; [reflexivity | discriminate]).
  - vm_compute. reflexivity.
  - vm_compute. discriminate.
Qed.

(** ** C3: a missing credential *)

(** Without a credential every call of the client raises the
    missing-credential error. *)
Lemma missing_credential_raises (P : Provider) :
  truthy (apiKey P) = false ->
  generateImage P (cover_answer P) = Throw API_KEY_MISSING
  /\ (forall i, chapter_generator P i = mkGenerator [] (Some API_KEY_MISSING))
  /\ (forall i, generateImage P (illustration_answer P i) = Throw API_KEY_MISSING).
Proof.
  intros Hkey. unfold generateImage, chapter_generator, getClient. by rewrite Hkey.
Qed.

(** Each of these errors is caught where it is raised: the run ends
    normally in [COMPLETED], no error is stored, the credential dialog is
    not opened, and every section that was not skipped is left [completed]
    with the placeholder as its text. *)
Lemma missing_credential_is_swallowed (P : Provider) (w : World) (bookData : BookData) :
  truthy (apiKey P) = false ->
  app_bookData (app w) = Some bookData ->
  let w' := exec (startFullGeneration P) w in
  outcome (startFullGeneration P) w = Normal tt
  /\ app_status (app w') = COMPLETED
  /\ app_error (app w') = app_error (app w)
  /\ app_isApiKeyModalOpen (app w') = app_isApiKeyModalOpen (app w)
  /\ forall i c, bd_outline bookData !! i = Some c -> skip c = false ->
       exists c', app_bookData (app w') ≫= (fun b => bd_outline b !! i) = Some c'
                  /\ ch_content c' = Some TEXT_ERROR_PLACEHOLDER
                  /\ ch_imageUrl c' = ch_imageUrl c
                  /\ ch_status c' = completed.
Proof.
  intros Hkey Hb.
  destruct (missing_credential_raises P Hkey) as (_ & Hgen & Himg).
  destruct (run_summary P w bookData Hb) as (Hout & Hst & _ & Herr & Hmodal & Hbook & _).
  cbv zeta in *. split_and!; [done..|].
  intros i c Hc Hs. rewrite Hbook. simpl. rewrite finish_all, Hc. simpl.
  eexists. split; [done|]. unfold final_chapter, streamed_text.
  rewrite Hs, Hgen, Himg. done.
Qed.

(** C3, on the code: with no credential stored, the run over the project of
    three pending sections is not stopped. It ends in [COMPLETED], never
    passes through [ERROR], stores no error message and does not open the
    credential dialog; every section is [completed] with the placeholder
    text and no illustration. *)
Theorem C3_missing_credential_does_not_fail_the_run :
  let P := Sample.provider_without_key in
  let w' := exec (startFullGeneration P) Sample.reviewing in
  getClient P = Throw API_KEY_MISSING
  /\ includes "API Key" API_KEY_MISSING = true
  /\ outcome (startFullGeneration P) Sample.reviewing = Normal tt
  /\ app_status (app w') = COMPLETED
  /\ statuses (log w') =
     [GENERATING_OUTLINE; REVIEWING_OUTLINE; GENERATING_BOOK; COMPLETED]
  /\ app_error (app w') = None
  /\ app_isApiKeyModalOpen (app w') = false
  /\ (bd_outline <$> app_bookData (app w')) =
     Some [mkChapter "chap-0" "One" "About One" (Some TEXT_ERROR_PLACEHOLDER) None completed;
           mkChapter "chap-1" "Two" "About Two" (Some TEXT_ERROR_PLACEHOLDER) None completed;
           mkChapter "chap-2" "Three" "About Three" (Some TEXT_ERROR_PLACEHOLDER) None
             completed].
Proof. vm_compute. done. Qed.

(** The sibling path does surface it: the same missing credential stops the
    outline synthesis, stores the message and opens the credential dialog. *)
Example missing_credential_stops_the_outline :
  let w := exec (handleConfigChange Sample.config) initial_world in
  let w' := exec (startOutlineGeneration Sample.parse Sample.strip
                    Sample.provider_without_key) w in
  app_status (app w') = IDLE
  /\ app_error (app w') = Some API_KEY_MISSING
  /\ app_isApiKeyModalOpen (app w') = true
  /\ app_bookData (app w') = None.
Proof. vm_compute. done. Qed.

(** ** The fragments of a stream *)

Lemma yielded_nonempty (chunks : list (option string)) :
  Forall (fun f => f <> "") (yielded chunks).
Proof.
  induction chunks as [|[t|] chunks IH]; simpl; [constructor| |done].
  destruct (String.eqb t "") eqn:Ht; [done|].
  constructor; [by apply String.eqb_neq | done].
Qed.

Lemma generator_yields_nonempty (P : Provider) (i : nat) :
  Forall (fun f => f <> "") (yields (chapter_generator P i)).
Proof.
  unfold chapter_generator. destruct (getClient P); [|constructor].
  destruct (stream_answer P i) as [[chunks broken]|]; [|constructor].
  apply yielded_nonempty.
Qed.

Lemma join_nonempty (frags : list string) :
  Forall (fun f => f <> "") frags -> frags <> [] -> join frags <> "".
Proof.
  intros Hne Hfrags. destruct Hne as [|f frags Hf _]; [done|].
  simpl. destruct f; [done | by rewrite append_cons].
Qed.

(** The [k]-th content shown is what was there before with the first
    [k + 1] fragments appended. *)
Lemma running_lookup (frags : list string) : forall acc k c,
  running acc frags !! k = Some c -> c = acc +:+ join (take (S k) frags).
Proof.
  induction frags as [|f frags IH]; intros acc k c Hk; [done|].
  destruct k as [|k]; simpl in *.
  - injection Hk as <-. unfold join. simpl. by rewrite append_empty_r.
  - rewrite (IH _ _ _ Hk). unfold join. simpl. by rewrite append_assoc.
Qed.

(** ** The full generation under every schedule *)

Module ScheduleFacts.
Import Scheduled Schedules.

(** *** The rules of the triples *)

Lemma triple_ret {A} (I : State -> Prop) (a : A) Jn Je :
  (forall s, I s -> Jn a s) -> triple I (mret a) Jn Je.
Proof. intros H s Hs. by apply H. Qed.

Lemma triple_bind {A B} (I : State -> Prop) (m : R A) (k : A -> R B)
    (K : A -> State -> Prop) Jn Je :
  triple I m K Je -> (forall a, triple (K a) (k a) Jn Je) -> triple I (m ≫= k) Jn Je.
Proof.
  intros Hm Hk s Hs. specialize (Hm s Hs). unfold mbind, R_bind.
  destruct (m s) as [[a|e] s']; [by apply Hk | done].
Qed.

Lemma triple_try_catch {A} (I : State -> Prop) (body : R A) (handler : string -> R A)
    (K : string -> State -> Prop) Jn Je :
  triple I body Jn K -> (forall e, triple (K e) (handler e) Jn Je) ->
  triple I (try_catch body handler) Jn Je.
Proof.
  intros Hb Hh s Hs. specialize (Hb s Hs). unfold try_catch.
  destruct (body s) as [[a|e] s']; [done | by apply Hh].
Qed.

Lemma triple_weaken {A} (I I' : State -> Prop) (m : R A) (Jn Jn' : A -> State -> Prop)
    (Je Je' : string -> State -> Prop) :
  triple I' m Jn' Je' ->
  (forall s, I s -> I' s) -> (forall a s, Jn' a s -> Jn a s) ->
  (forall e s, Je' e s -> Je e s) ->
  triple I m Jn Je.
Proof.
  intros Hm HI Hn He s Hs. specialize (Hm s (HI s Hs)).
  destruct (m s) as [[a|e] s']; auto.
Qed.

Lemma triple_read {A B} (I : State -> Prop) (f : State -> A) (k : A -> R B) Jn Je :
  (forall a, triple (fun s => I s /\ f s = a) (k a) Jn Je) ->
  triple I (read f ≫= k) Jn Je.
Proof. intros Hk s Hs. unfold mbind, R_bind, read. by apply (Hk (f s)). Qed.

Lemma triple_settle {A} (I : State -> Prop) (c : Completion A) Jn Je :
  (forall s, I s -> match c with Normal a => Jn a s | Throw e => Je e s end) ->
  triple I (settle c) Jn Je.
Proof. intros H s Hs. unfold settle. specialize (H s Hs). by destruct c. Qed.

Lemma triple_throw {A} (I : State -> Prop) (e : string) (Jn : A -> State -> Prop) Je :
  (forall s, I s -> Je e s) -> triple I (throw e) Jn Je.
Proof. intros H s Hs. by apply H. Qed.

Lemma triple_update_locals (I : State -> Prop) (f : Frame -> Frame) Jn Je :
  (forall s, I s ->
     Jn tt (mkState (current s) (pending s) (f (locals s)) (seen s) (awaits s) (sets s))) ->
  triple I (update_locals f) Jn Je.
Proof. intros H s Hs. by apply H. Qed.

Lemma keeps_bind {A B} (I : State -> Prop) (m : R A) (k : A -> R B) :
  keeps I m -> (forall a, keeps I (k a)) -> keeps I (m ≫= k).
Proof. intros Hm Hk. by eapply triple_bind. Qed.

Lemma keeps_try_catch {A} (I : State -> Prop) (body : R A) (handler : string -> R A) :
  keeps I body -> (forall e, keeps I (handler e)) -> keeps I (try_catch body handler).
Proof. intros Hb Hh. by eapply triple_try_catch. Qed.

Lemma keeps_ret {A} (I : State -> Prop) (a : A) : keeps I (mret a).
Proof. by apply triple_ret. Qed.

Lemma keeps_throw {A} (I : State -> Prop) (e : string) : keeps I (@throw A e).
Proof. by apply triple_throw. Qed.

Lemma keeps_settle {A} (I : State -> Prop) (c : Completion A) : keeps I (settle c).
Proof. apply triple_settle. by destruct c. Qed.

Lemma keeps_read {A B} (I : State -> Prop) (f : State -> A) (k : A -> R B) :
  (forall a, keeps I (k a)) -> keeps I (read f ≫= k).
Proof.
  intros Hk. apply triple_read. intros a.
  eapply triple_weaken; [apply (Hk a) | by intros s [? _] | done | done].
Qed.

(** *** What the turns of an [await] can do *)

Lemma quietly_refl s : quietly s s.
Proof. split; [done|]. exists 0. by rewrite app_nil_r. Qed.

Lemma quietly_trans s1 s2 s3 : quietly s1 s2 -> quietly s2 s3 -> quietly s1 s3.
Proof.
  intros [Hl1 [k1 H1]] [Hl2 [k2 H2]]. split; [congruence|].
  exists (k1 + k2). rewrite H2, H1, Hl1, <- app_assoc. by rewrite replicate_add.
Qed.

Lemma outlines_app l1 l2 : outlines (l1 ++ l2) = outlines l1 ++ outlines l2.
Proof. apply omap_app. Qed.

Lemma flush_outlines o (ups : list Update) : forall prev,
  exists k, outlines (flush o ups prev).2 = replicate k o.
Proof.
  induction ups as [|[u|u b] ups IH]; intros prev; simpl.
  - by exists 0.
  - destruct (IH (run_updater o u prev)) as [k Hk].
    destruct u as [v|url|]; simpl in *.
    + by exists k.
    + destruct prev; simpl in *; by exists k.
    + destruct prev as [bd|]; simpl in *; [|by exists k].
      exists (S k). simpl. by rewrite Hk.
  - apply IH.
Qed.

Lemma render_quietly s : quietly s (render s).
Proof.
  unfold render. destruct (pending s) as [|up ups] eqn:Hp; [apply quietly_refl|].
  split; [done|]. cbv zeta. cbn [seen locals].
  destruct (flush_outlines (newOutline (locals s)) (up :: ups) (current s)) as [k Hk].
  exists k. rewrite !outlines_app, Hk. cbn [outlines omap]. by rewrite app_nil_r.
Qed.

Lemma turn_quietly t s : quietly s (turn t s).
Proof.
  destruct t as [|b]; [apply render_quietly|].
  split; [done|]. exists 0. simpl. by rewrite app_nil_r.
Qed.

Lemma turns_quietly (ts : list Turn) : forall s, quietly s (foldl (fun s t => turn t s) s ts).
Proof.
  induction ts as [|t ts IH]; intros s; simpl; [apply quietly_refl|].
  eapply quietly_trans; [apply turn_quietly | apply IH].
Qed.

Lemma await_quiet sch : quiet (await sch).
Proof.
  intros s. eexists _, _. split; [reflexivity|].
  eapply quietly_trans; [|apply turns_quietly].
  split; [done|]. exists 0. simpl. by rewrite app_nil_r.
Qed.

Lemma queue_update_quietly sch u s : quietly s (queue_update sch u s).
Proof.
  unfold queue_update.
  destruct (pending s) as [|up ups]; [destruct (eager sch (sets s))|]; simpl.
  - split; [done|]. simpl. rewrite outlines_app.
    destruct u as [v|url|]; simpl.
    + by exists 0.
    + exists 0. by destruct (current s).
    + destruct (current s) as [bd|]; simpl; [by exists 1 | by exists 0].
  - split; [done|]. exists 0. simpl. by rewrite app_nil_r.
  - split; [done|]. exists 0. simpl. by rewrite app_nil_r.
Qed.

Lemma setBookData_quiet sch u : quiet (setBookData sch u).
Proof.
  intros s. eexists _, _. split; [reflexivity|].
  destruct (sync sch (sets s)); [|apply queue_update_quietly].
  eapply quietly_trans; [apply queue_update_quietly | apply render_quietly].
Qed.

Lemma observe_quiet (o : Obs) :
  (forall b, o <> Returned NewOutline b) -> quiet (observe o).
Proof.
  intros Ho s. eexists _, _. split; [reflexivity|]. split; [done|]. exists 0. simpl.
  rewrite outlines_app, app_nil_r.
  destruct o as [u b| | | |]; simpl; rewrite ?app_nil_r; try done.
  destruct u; simpl; rewrite ?app_nil_r; try done.
  destruct b; simpl; rewrite ?app_nil_r; try done. by destruct (Ho (Some b)).
Qed.

Lemma quiet_ret {A} (a : A) : quiet (mret a : R A).
Proof. intros s. eexists _, _. split; [reflexivity | apply quietly_refl]. Qed.

Lemma quiet_bind {A B} (m : R A) (k : A -> R B) :
  quiet m -> (forall a, quiet (k a)) -> quiet (m ≫= k).
Proof.
  intros Hm Hk s. destruct (Hm s) as (a & s1 & Hs1 & Hq1).
  destruct (Hk a s1) as (b & s2 & Hs2 & Hq2).
  exists b, s2. unfold mbind, R_bind. rewrite Hs1, Hs2. split; [done|].
  by eapply quietly_trans.
Qed.

Lemma quiet_read {A} (f : State -> A) : quiet (read f).
Proof. intros s. eexists _, _. split; [reflexivity | apply quietly_refl]. Qed.

Lemma setStatus_quiet st : quiet (setStatus st).
Proof. by apply observe_quiet. Qed.

Lemma console_error_quiet label : quiet (console_error label).
Proof. by apply observe_quiet. Qed.

Lemma updateProgress_quiet msg : quiet (updateProgress msg).
Proof. apply quiet_bind; [apply quiet_read|]. intros f. by apply observe_quiet. Qed.

(** A closed property holds after a quiet change. *)
Lemma about_quietly G s s' : closed G -> about G s -> quietly s s' -> about G s'.
Proof.
  intros HG Hs [Hl [k Hk]]. unfold about in *. rewrite Hl, Hk. clear Hk Hl.
  induction k as [|k IH]; [by rewrite app_nil_r|].
  replace (S k) with (k + 1) by lia. rewrite replicate_add, app_assoc.
  change (replicate 1 (newOutline (locals s))) with [newOutline (locals s)].
  by apply HG.
Qed.

Lemma triple_quiet {A} G (m : R A) Je :
  closed G -> quiet m -> triple (about G) m (fun _ => about G) Je.
Proof.
  intros HG Hm s Hs. destruct (Hm s) as (a & s' & -> & Hq). by eapply about_quietly.
Qed.

Lemma keeps_quiet {A} G (m : R A) : closed G -> quiet m -> keeps (about G) m.
Proof. intros. by apply triple_quiet. Qed.

(** *** Before [newOutline] exists *)

Lemma flush_before o (ups : list Update) : forall prev,
  Forall (fun up => updater_of up <> NewOutline) ups ->
  outlines (flush o ups prev).2 = [].
Proof.
  induction ups as [|[u|u b] ups IH]; intros prev Hups; [done|..];
    apply Forall_cons in Hups as [Hu Hups]; simpl.
  - rewrite <- (IH (run_updater o u prev) Hups). by destruct u.
  - by apply IH.
Qed.

Lemma render_before s : before_outline s -> before_outline (render s).
Proof.
  intros [Hseen Hpending]. unfold render.
  destruct (pending s) as [|up ups] eqn:Hp; [by split; [|rewrite Hp]|].
  split; [|done]. cbv zeta. cbn [seen].
  rewrite !outlines_app, Hseen, flush_before by done. done.
Qed.

Lemma await_before sch : keeps before_outline (await sch).
Proof.
  intros s Hs. unfold await.
  set (s0 := mkState (current s) (pending s) (locals s) (seen s) (S (awaits s)) (sets s)).
  assert (Hs0 : before_outline s0) by done. clearbody s0.
  revert s0 Hs0. induction (turns sch (awaits s)) as [|t ts IH]; intros s0 Hs0; [done|].
  simpl. apply IH. destruct t as [|b]; [by apply render_before|].
  destruct Hs0 as [Hseen Hpending]. split; [done|]. simpl.
  apply Forall_app. split; [done|]. by constructor.
Qed.

Lemma queue_update_before sch u s :
  u <> NewOutline -> before_outline s -> before_outline (queue_update sch u s).
Proof.
  intros Hu [Hseen Hpending]. unfold queue_update.
  destruct (pending s) as [|up ups] eqn:Hp; [destruct (eager sch (sets s))|].
  - split; simpl; [|by constructor]. rewrite outlines_app, Hseen. by destruct u.
  - split; simpl; [done | by constructor].
  - split; [done|]. cbn [pending]. apply Forall_app. split; [done | by constructor].
Qed.

Lemma setBookData_before sch u :
  u <> NewOutline -> keeps before_outline (setBookData sch u).
Proof.
  intros Hu s Hs. unfold setBookData.
  pose proof (queue_update_before sch u s Hu Hs) as Hq.
  destruct (sync sch (sets s)); [by apply render_before | done].
Qed.

Lemma observe_before (o : Obs) :
  (forall b, o <> Returned NewOutline b) -> keeps before_outline (observe o).
Proof.
  intros Ho s [Hseen Hpending]. split; [|done]. simpl. rewrite outlines_app, Hseen.
  destruct o as [u b| | | |]; try done. destruct u; try done.
  destruct b; [|done]. by destruct (Ho (Some b)).
Qed.

Lemma update_locals_before f : keeps before_outline (update_locals f).
Proof. by intros s Hs. Qed.

Lemma updateProgress_before msg : keeps before_outline (updateProgress msg).
Proof. apply keeps_read. intros f. by apply observe_before. Qed.

Lemma generate_cover_before sch P bookData :
  keeps before_outline (generate_cover sch P bookData).
Proof.
  unfold generate_cover. destruct (truthy _); [apply keeps_ret|].
  apply keeps_bind; [apply updateProgress_before|]. intros _.
  apply keeps_try_catch.
  - apply keeps_bind.
    + unfold generateBookCover. apply keeps_bind; [by apply observe_before|]. intros _.
      apply keeps_bind; [apply await_before|]. intros _. apply keeps_settle.
    + intros coverUrl. by apply setBookData_before.
  - intros e. by apply observe_before.
Qed.

Lemma prev_context_keeps (I : State -> Prop) (i : nat) (o : list Chapter) :
  keeps I (match i with
           | 0 => mret None
           | S j => match o !! j with
                    | Some prev => mret (Some (ch_description prev))
                    | None =>
                        throw "Cannot read properties of undefined (reading 'description')"
                    end
           end : R (option string)).
Proof.
  destruct i as [|j]; [apply keeps_ret|].
  destruct (o !! j); [apply keeps_ret | apply keeps_throw].
Qed.

(** *** A round, for a property of [newOutline] that the writes of the round
    do not break *)

Section AnyRound.
Variable sch : Schedule.
Variable I : State -> Prop.
Variable j : nat.
(** What a write of the round has to leave alone. *)
Variable keep : Chapter -> Chapter -> Prop.
Hypothesis I_alter : forall s f,
  I s -> (forall x, newOutline (locals s) !! j = Some x -> keep x (f x)) ->
  I (exec (assign_newOutline j f) s).
Hypothesis I_fullText : forall t, keeps I (set_fullText t).
Hypothesis I_completedSteps : forall n, keeps I (set_completedSteps n).
Hypothesis I_publish : keeps I (publish_newOutline sch).
Hypothesis I_await : keeps I (await sch).
Hypothesis I_did : forall e, keeps I (observe (Did e)).
Hypothesis keep_status : forall x st, keep x (with_status st x).
Hypothesis keep_content : forall x t, keep x (with_content t x).
Hypothesis keep_written :
  forall x t, keep x (with_content t (with_status generating_image x)).
Hypothesis keep_illustrated :
  forall x u, keep x (with_status completed (with_imageUrl u x)).

Lemma assign_holds_at (I' : State -> Prop) (f : Chapter -> Chapter) :
  (forall s, I' s -> I s /\ forall x, newOutline (locals s) !! j = Some x -> keep x (f x)) ->
  triple I' (assign_newOutline j f) (fun _ => I) (fun _ => I).
Proof. intros HI s Hs. destruct (HI s Hs) as [HG Hf]. exact (I_alter s f HG Hf). Qed.

Lemma assign_holds (f : Chapter -> Chapter) :
  (forall x, keep x (f x)) -> keeps I (assign_newOutline j f).
Proof. intros Hf. apply assign_holds_at. intros s Hs. split; [done | by intros]. Qed.

Lemma updateProgress_holds msg : keeps I (updateProgress msg).
Proof. unfold updateProgress. apply keeps_read. intros f. apply I_did. Qed.

Lemma count_holds k :
  keeps I (n ← read (fun s => completedSteps (locals s)) ; set_completedSteps (n + k)).
Proof. apply keeps_read. intros n. apply I_completedSteps. Qed.

Lemma receive_chunk_holds chunk : keeps I (receive_chunk sch j chunk).
Proof.
  unfold receive_chunk. apply keeps_read. intros t.
  apply keeps_bind; [apply I_fullText|]. intros _.
  apply keeps_read. intros t'.
  apply keeps_bind; [by apply assign_holds|]. intros _. apply I_publish.
Qed.

Lemma for_await_holds (frags : list string) broken :
  keeps I (for_await sch frags broken (receive_chunk sch j)).
Proof.
  induction frags as [|chunk rest IH]; simpl.
  - apply keeps_bind; [apply I_await|]. intros _.
    destruct broken; [apply keeps_throw | apply keeps_ret].
  - apply keeps_bind; [apply I_await|]. intros _.
    apply keeps_bind; [apply receive_chunk_holds|]. intros _. apply IH.
Qed.

Lemma stream_text_holds P bookData chapter prevContext :
  keeps I (stream_text sch P bookData j chapter prevContext).
Proof.
  unfold stream_text. apply keeps_bind; [apply I_fullText|]. intros _.
  apply keeps_try_catch.
  - apply keeps_bind.
    + unfold generateChapterContentStream.
      apply keeps_bind; [apply I_did|]. intros _. apply keeps_ret.
    + intros stream. apply for_await_holds.
  - intros e. apply keeps_bind; [apply I_did|]. intros _.
    apply keeps_read. intros t. apply I_fullText.
Qed.

(** The round from the publication of the text on. *)
Lemma illustrating_holds P bookData chapter msg :
  keeps I
    (publish_newOutline sch ;;
     n ← read (fun s => completedSteps (locals s)) ;
     set_completedSteps (n + 1) ;;
     updateProgress msg ;;
     image_step sch P bookData j chapter).
Proof.
  apply keeps_bind; [apply I_publish|]. intros _.
  apply keeps_read. intros n.
  apply keeps_bind; [apply I_completedSteps|]. intros _.
  apply keeps_bind; [apply updateProgress_holds|]. intros _.
  unfold image_step, illustrate. apply keeps_bind.
  - apply keeps_try_catch.
    + apply keeps_bind.
      * unfold generateChapterIllustration.
        apply keeps_bind; [apply I_did|]. intros _.
        apply keeps_bind; [apply I_await|]. intros _. apply keeps_settle.
      * intros imageUrl. by apply assign_holds.
    + intros e. apply keeps_bind; [apply I_did|]. intros _.
      by apply assign_holds.
  - intros _. apply keeps_bind; [apply I_publish|]. intros _. apply count_holds.
Qed.

Lemma generate_chapter_holds P bookData :
  keeps I (generate_chapter sch P bookData j).
Proof.
  unfold generate_chapter. apply triple_read. intros o.
  destruct (o !! j) as [chapter|] eqn:Hj.
  2:{ apply triple_throw. by intros s [Hs _]. }
  destruct (skip chapter).
  { eapply triple_weaken; [apply (count_holds 2) | by intros s [Hs _] | done | done]. }
  eapply triple_bind.
  { apply assign_holds_at. intros s [Hs Ho]. split; [done|].
    intros x Hx. rewrite Ho, Hj in Hx. injection Hx as <-. apply keep_status. }
  intros []. apply keeps_bind; [apply I_publish|]. intros _.
  apply keeps_bind; [apply updateProgress_holds|]. intros _.
  apply keeps_read. intros o'. apply keeps_bind.
  { apply prev_context_keeps. }
  intros prevContext. apply keeps_bind; [apply stream_text_holds|]. intros _.
  apply keeps_read. intros t. apply keeps_bind; [by apply assign_holds|]. intros _.
  apply illustrating_holds.
Qed.
End AnyRound.

(** *** The same for a property of [newOutline] and of the outlines
    returned *)

Section Round.
Variable sch : Schedule.
Variable G : list Chapter -> list (list Chapter) -> Prop.
Variable j : nat.
Variable keep : Chapter -> Chapter -> Prop.
Hypothesis G_closed : forall o vs, G o vs -> G o (vs ++ [o]).
Hypothesis G_alter : forall o vs f,
  G o vs -> (forall x, o !! j = Some x -> keep x (f x)) -> G (alter f j o) vs.
Hypothesis keep_status : forall x st, keep x (with_status st x).
Hypothesis keep_content : forall x t, keep x (with_content t x).
Hypothesis keep_written :
  forall x t, keep x (with_content t (with_status generating_image x)).
Hypothesis keep_illustrated :
  forall x u, keep x (with_status completed (with_imageUrl u x)).

Lemma on_outline_closed : closed (on_outline G).
Proof. intros fr vs. apply G_closed. Qed.

Lemma on_outline_alter s f :
  about (on_outline G) s ->
  (forall x, newOutline (locals s) !! j = Some x -> keep x (f x)) ->
  about (on_outline G) (exec (assign_newOutline j f) s).
Proof. intros Hs Hf. unfold about, on_outline. simpl. by apply G_alter. Qed.

Lemma set_fullText_keeps t : keeps (about (on_outline G)) (set_fullText t).
Proof. by intros s Hs. Qed.

Lemma set_completedSteps_keeps n : keeps (about (on_outline G)) (set_completedSteps n).
Proof. by intros s Hs. Qed.

Lemma publish_keeps : keeps (about (on_outline G)) (publish_newOutline sch).
Proof. apply keeps_quiet; [apply on_outline_closed | apply setBookData_quiet]. Qed.

Lemma await_keeps : keeps (about (on_outline G)) (await sch).
Proof. apply keeps_quiet; [apply on_outline_closed | apply await_quiet]. Qed.

Lemma observe_keeps o :
  (forall b, o <> Returned NewOutline b) -> keeps (about (on_outline G)) (observe o).
Proof. intros. apply keeps_quiet; [apply on_outline_closed | by apply observe_quiet]. Qed.

Lemma updateProgress_keeps msg : keeps (about (on_outline G)) (updateProgress msg).
Proof. apply keeps_quiet; [apply on_outline_closed | apply updateProgress_quiet]. Qed.

Lemma illustrating_keeps P bookData chapter msg :
  keeps (about (on_outline G))
    (publish_newOutline sch ;;
     n ← read (fun s => completedSteps (locals s)) ;
     set_completedSteps (n + 1) ;;
     updateProgress msg ;;
     image_step sch P bookData j chapter).
Proof.
  apply (illustrating_holds sch (about (on_outline G)) j keep);
    [apply on_outline_alter | apply set_completedSteps_keeps | apply publish_keeps
    | apply await_keeps | by intros e; apply observe_keeps | apply keep_status
    | apply keep_illustrated].
Qed.

Lemma generate_chapter_keeps P bookData :
  keeps (about (on_outline G)) (generate_chapter sch P bookData j).
Proof.
  apply (generate_chapter_holds sch (about (on_outline G)) j keep);
    [apply on_outline_alter | apply set_fullText_keeps | apply set_completedSteps_keeps
    | apply publish_keeps | apply await_keeps | by intros e; apply observe_keeps
    | apply keep_status | apply keep_content | apply keep_written | apply keep_illustrated].
Qed.
End Round.

Lemma chapters_loop_keeps sch P bookData (I : State -> Prop) rounds : forall from,
  (forall j, keeps I (generate_chapter sch P bookData j)) ->
  keeps I (chapters_loop sch P bookData from rounds).
Proof.
  induction rounds as [|rounds IH]; intros from Hround; simpl; [apply keeps_ret|].
  apply keeps_bind; [apply Hround|]. intros _. by apply IH.
Qed.

(** *** The whole run *)

Lemma render_about G s : closed G -> about G s -> about G (render s).
Proof. intros HG Hs. eapply about_quietly; [done | done | apply render_quietly]. Qed.

(** What the loop establishes holds, when the run is over and React has
    rendered, unless the run never got to the loop. *)
Lemma generate_outcome sch P bookData (G0 G : Frame -> list (list Chapter) -> Prop) :
  closed G ->
  (forall fr, newOutline fr = bd_outline bookData -> G0 fr []) ->
  triple (fun s => about G0 s /\ newOutline (locals s) = bd_outline bookData)
    (chapters_loop sch P bookData 0 (length (bd_outline bookData)))
    (fun _ => about G) (fun _ => about G) ->
  triple before_outline (generate sch P bookData)
    (fun _ s => before_outline s \/ about G s)
    (fun _ s => before_outline s \/ about G s).
Proof.
  intros HG HG0 Hloop.
  assert (Hquiet : forall (m : R unit), quiet m -> keeps before_outline m ->
            keeps (fun s => before_outline s \/ about G s) m).
  { intros m Hq Hb s [Hs|Hs].
    - specialize (Hb s Hs). destruct (m s) as [[a|e] s']; by left.
    - pose proof (triple_quiet G m (fun _ => about G) HG Hq s Hs) as Ha.
      destruct (m s) as [[a|e] s']; by right. }
  assert (Hbefore : forall (m : R unit) Je, keeps before_outline m ->
            (forall e s, before_outline s -> Je e s) ->
            triple before_outline m (fun _ => before_outline) Je).
  { intros m Je Hm HJe. eapply triple_weaken; [exact Hm | done | done | exact HJe]. }
  unfold generate.
  eapply triple_bind.
  { apply Hbefore; [by apply (observe_before (Did (StatusSet GENERATING_BOOK)))|].
    intros; by left. }
  intros []. eapply triple_bind.
  { apply Hbefore; [apply update_locals_before | intros; by left]. }
  intros [].
  apply triple_try_catch with (K := fun _ s => before_outline s \/ about G s).
  - eapply triple_bind.
    { apply Hbefore; [apply generate_cover_before | intros; by left]. }
    intros []. apply triple_read. intros n.
    eapply triple_bind with (K := fun _ => before_outline).
    { eapply triple_weaken; [apply (update_locals_before _) | by intros s [Hs _] | done |].
      intros; by left. }
    intros []. unfold write_chapters.
    eapply triple_bind with
      (K := fun _ s => about G0 s /\ newOutline (locals s) = bd_outline bookData).
    { intros s [Hseen Hpending]. simpl. split; [|done].
      unfold about. simpl. rewrite Hseen. by apply HG0. }
    intros []. apply triple_read. intros o.
    eapply triple_bind with (K := fun _ => about G).
    { intros s [[Hs Ho] <-]. rewrite Ho.
      pose proof (Hloop s (conj Hs Ho)) as Hl.
      destruct (chapters_loop _ _ _ _ _ s) as [[a|e'] s']; [done | by right]. }
    intros []. eapply triple_weaken;
      [apply (triple_quiet G _ (fun _ => about G) HG (setStatus_quiet COMPLETED))
      | done | intros; by right | intros; by right].
  - intros e. apply keeps_bind; [by apply Hquiet; [apply observe_quiet | apply observe_before]|].
    intros _. apply keeps_bind;
      [by apply Hquiet; [apply observe_quiet | apply observe_before]|].
    intros _. destruct (includes "API Key" e); [|apply keeps_ret].
    by apply Hquiet; [apply observe_quiet | apply observe_before].
Qed.

Lemma run_outcome sch P bookData (G0 G : Frame -> list (list Chapter) -> Prop) :
  closed G ->
  (forall fr, newOutline fr = bd_outline bookData -> G0 fr []) ->
  triple (fun s => about G0 s /\ newOutline (locals s) = bd_outline bookData)
    (chapters_loop sch P bookData 0 (length (bd_outline bookData)))
    (fun _ => about G) (fun _ => about G) ->
  let s := run sch P (Some bookData) in
  before_outline s \/ about G s.
Proof.
  intros HG HG0 Hloop. cbv zeta. unfold run, exec.
  assert (Hstart : before_outline (start (Some bookData))) by (split; [done | constructor]).
  change (startFullGeneration sch P (start (Some bookData)))
    with (generate sch P bookData (start (Some bookData))).
  pose proof (generate_outcome sch P bookData G0 G HG HG0 Hloop _ Hstart) as Ht.
  destruct (generate sch P bookData (start (Some bookData))) as [[[]|e] s']; simpl;
    (destruct Ht as [Hb|Ha]; [left; by apply render_before | right; by apply render_about]).
Qed.

(** *** A run that nothing else disturbs *)

Lemma states_app l1 l2 : states (l1 ++ l2) = states l1 ++ states l2.
Proof. apply omap_app. Qed.

Lemma more_outlines {V} (os l : list V) : os ⊆ os ++ l.
Proof. intros x Hx. apply elem_of_app. by left. Qed.

Lemma kept_more bookData os os' b :
  os ⊆ os' -> kept bookData os b -> kept bookData os' b.
Proof.
  intros Hsub (bd & -> & Hc & Hd & Ho). exists bd. split_and!; [done..|].
  destruct Ho as [Ho|Ho]; [by left | right; by apply Hsub].
Qed.

Lemma queued_well_more bookData os os' up :
  os ⊆ os' -> queued_well bookData os up -> queued_well bookData os' up.
Proof.
  intros Hsub. destruct up as [[]|u b]; simpl; try done. by apply kept_more.
Qed.

Lemma undisturbed_more bookData os os' (b : option BookData) ups bs :
  os ⊆ os' ->
  kept bookData os b /\ Forall (queued_well bookData os) ups /\ Forall (kept bookData os) bs ->
  kept bookData os' b /\ Forall (queued_well bookData os') ups
  /\ Forall (kept bookData os') bs.
Proof.
  intros Hsub (Hb & Hups & Hbs). split_and!.
  - by eapply kept_more.
  - eapply Forall_impl; [exact Hups|]. intros up. by apply queued_well_more.
  - eapply Forall_impl; [exact Hbs|]. intros b'. by apply kept_more.
Qed.

(** What a function of the run returns on a kept state is kept, with the
    outline it returns. *)
Lemma run_updater_kept bookData os o u prev :
  (forall f, u <> Other f) ->
  kept bookData os prev ->
  kept bookData (os ++ outlines [Returned u (run_updater o u prev)]) (run_updater o u prev).
Proof.
  intros Hu (bd & -> & Hc & Hd & Ho). destruct u as [b|coverUrl|]; simpl.
  - by destruct (Hu b).
  - eexists. split_and!; [done..|]. simpl. rewrite app_nil_r. exact Ho.
  - eexists. split_and!; [done..|]. simpl. right.
    apply elem_of_app. right. by constructor.
Qed.

Lemma flush_kept bookData o (ups : list Update) : forall prev os,
  kept bookData os prev ->
  Forall (queued_well bookData os) ups ->
  kept bookData (os ++ outlines (flush o ups prev).2) (flush o ups prev).1
  /\ Forall (kept bookData (os ++ outlines (flush o ups prev).2))
       (states (flush o ups prev).2).
Proof.
  induction ups as [|[u|u b] ups IH]; intros prev os Hprev Hups.
  - simpl. rewrite app_nil_r. by split.
  - apply Forall_cons in Hups as [Hu Hups].
    assert (Hval : forall f, u <> Other f) by (intros f ->; done).
    pose proof (run_updater_kept bookData os o u prev Hval Hprev) as Hb.
    change (flush o (Deferred u :: ups) prev)
      with ((flush o ups (run_updater o u prev)).1,
            Returned u (run_updater o u prev) :: (flush o ups (run_updater o u prev)).2).
    generalize dependent (run_updater o u prev). intros b Hb.
    destruct (IH b (os ++ outlines [Returned u b]) Hb) as [Hlast Hstates].
    { eapply Forall_impl; [exact Hups|]. intros up. apply queued_well_more, more_outlines. }
    cbn [fst snd].
    assert (Hos : os ++ outlines (Returned u b :: (flush o ups b).2)
                  = (os ++ outlines [Returned u b]) ++ outlines (flush o ups b).2).
    { rewrite <- app_assoc. f_equal.
      change (Returned u b :: (flush o ups b).2) with ([Returned u b] ++ (flush o ups b).2).
      apply outlines_app. }
    rewrite Hos. split; [done|].
    change (states (Returned u b :: (flush o ups b).2))
      with (b :: states (flush o ups b).2).
    constructor; [|done]. eapply kept_more; [apply more_outlines | exact Hb].
  - apply Forall_cons in Hups as [Hb Hups]. by apply IH.
Qed.

Section Undisturbed.
Variable sch : Schedule.
Variable bookData : BookData.
Hypothesis sch_calm : calm sch.

Lemma undisturbed_render s : undisturbed bookData s -> undisturbed bookData (render s).
Proof.
  intros (Hcur & Hpend & Hseen). unfold render.
  destruct (pending s) as [|up ups] eqn:Hp; [by split_and!; [| rewrite Hp |]|].
  destruct (flush_kept bookData (newOutline (locals s)) (up :: ups) (current s)
              (outlines (seen s)) Hcur Hpend) as [Hlast Hstates].
  revert Hlast Hstates. generalize (flush (newOutline (locals s)) (up :: ups) (current s)).
  intros r Hlast Hstates. cbv zeta.
  assert (Hos : outlines (seen s ++ r.2 ++ [Committed r.1]) = outlines (seen s) ++ outlines r.2).
  { by rewrite !outlines_app, app_nil_r. }
  unfold undisturbed. cbn [current pending seen]. rewrite Hos. split_and!; [done | done |].
  rewrite !states_app, !Forall_app. split_and!; [|done | by repeat constructor].
  eapply Forall_impl; [exact Hseen|]. intros b. apply kept_more, more_outlines.
Qed.

Lemma undisturbed_await : keeps (undisturbed bookData) (await sch).
Proof.
  intros s Hs. unfold await. pose proof (sch_calm (awaits s)) as Hturns.
  assert (Hstart : undisturbed bookData
            (mkState (current s) (pending s) (locals s) (seen s) (S (awaits s)) (sets s)))
    by done.
  revert Hstart. generalize (mkState (current s) (pending s) (locals s) (seen s)
                               (S (awaits s)) (sets s)).
  induction Hturns as [|t ts -> _ IH]; intros s' Hs'; [done|].
  apply IH. by apply undisturbed_render.
Qed.

Lemma undisturbed_observe o :
  (forall u b, o <> Returned u b) -> (forall b, o <> Committed b) ->
  keeps (undisturbed bookData) (observe o).
Proof.
  intros Hr Hc s (Hcur & Hpend & Hseen). unfold observe, undisturbed.
  cbn [current pending seen].
  assert (outlines (seen s ++ [o]) = outlines (seen s)
          /\ states (seen s ++ [o]) = states (seen s)) as [-> ->].
  { rewrite outlines_app, states_app.
    destruct o as [u b|b|e|msg|];
      [by destruct (Hr u b) | by destruct (Hc b) | simpl; by rewrite !app_nil_r..]. }
  done.
Qed.

Lemma undisturbed_locals f : keeps (undisturbed bookData) (update_locals f).
Proof. by intros s Hs. Qed.

Lemma undisturbed_queue_update u s :
  (forall f, u <> Other f) ->
  undisturbed bookData s -> undisturbed bookData (queue_update sch u s).
Proof.
  intros Hu (Hcur & Hpend & Hseen). unfold queue_update.
  assert (Hdef : queued_well bookData (outlines (seen s)) (Deferred u)).
  { destruct u as [b| |]; [by destruct (Hu b) | done | done]. }
  destruct (pending s) as [|up ups] eqn:Hp.
  - destruct (eager sch (sets s)).
    + pose proof (run_updater_kept bookData (outlines (seen s)) (newOutline (locals s))
                    u (current s) Hu Hcur) as Hb.
      revert Hb. generalize (run_updater (newOutline (locals s)) u (current s)).
      intros b Hb. unfold undisturbed. cbn [current pending seen].
      rewrite outlines_app, states_app.
      assert (Hsub : outlines (seen s) ⊆ outlines (seen s) ++ outlines [Returned u b])
        by apply more_outlines.
      split_and!.
      * by eapply kept_more.
      * by repeat constructor.
      * apply Forall_app. split; [|by repeat constructor].
        eapply Forall_impl; [exact Hseen|]. intros b'. by apply kept_more.
    + unfold undisturbed. cbn [current pending seen]. split_and!; [done | | done].
      by repeat constructor.
  - unfold undisturbed. cbn [current pending seen]. split_and!; [done | | done].
    apply Forall_app. split; [done | by repeat constructor].
Qed.

Lemma undisturbed_setBookData u :
  (forall f, u <> Other f) -> keeps (undisturbed bookData) (setBookData sch u).
Proof.
  intros Hu s Hs. unfold setBookData.
  pose proof (undisturbed_queue_update u s Hu Hs) as Hq.
  destruct (sync sch (sets s)); [by apply undisturbed_render | done].
Qed.

Lemma undisturbed_did e : keeps (undisturbed bookData) (observe (Did e)).
Proof. by apply undisturbed_observe. Qed.

Lemma undisturbed_round P bd j :
  keeps (undisturbed bookData) (generate_chapter sch P bd j).
Proof.
  apply (generate_chapter_holds sch (undisturbed bookData) j (fun _ _ => True));
    [ by intros s f Hs _
    | intros t; apply undisturbed_locals
    | intros n; apply undisturbed_locals
    | by apply undisturbed_setBookData
    | apply undisturbed_await
    | apply undisturbed_did
    | done.. ].
Qed.

Lemma undisturbed_generate P bd :
  keeps (undisturbed bookData) (generate sch P bd).
Proof.
  unfold generate.
  apply keeps_bind; [apply undisturbed_did|]. intros _.
  apply keeps_bind; [apply undisturbed_locals|]. intros _.
  apply keeps_try_catch.
  - apply keeps_bind.
    { unfold generate_cover. destruct (truthy (bd_coverImage bd)); [apply keeps_ret|].
      apply keeps_bind.
      { unfold updateProgress. apply keeps_read. intros f. apply undisturbed_did. }
      intros _. apply keeps_try_catch.
      - apply keeps_bind.
        + unfold generateBookCover. apply keeps_bind; [apply undisturbed_did|]. intros _.
          apply keeps_bind; [apply undisturbed_await|]. intros _. apply keeps_settle.
        + intros coverUrl. by apply undisturbed_setBookData.
      - intros e. apply undisturbed_did. }
    intros _. apply keeps_read. intros n.
    apply keeps_bind; [apply undisturbed_locals|]. intros _.
    unfold write_chapters. apply keeps_bind; [apply undisturbed_locals|]. intros _.
    apply keeps_read. intros o. apply keeps_bind.
    { apply chapters_loop_keeps. intros j. apply undisturbed_round. }
    intros _. apply undisturbed_did.
  - intros e. apply keeps_bind; [by apply undisturbed_observe|]. intros _.
    apply keeps_bind; [apply undisturbed_did|]. intros _.
    destruct (includes "API Key" e); [by apply undisturbed_observe | apply keeps_ret].
Qed.

Lemma run_undisturbed P :
  undisturbed bookData (run sch P (Some bookData)).
Proof.
  unfold run, exec. apply undisturbed_render.
  assert (Hstart : undisturbed bookData (start (Some bookData))).
  { split_and!; [|constructor..]. exists bookData. split_and!; [done..|by left]. }
  change (startFullGeneration sch P (start (Some bookData)))
    with (generate sch P bookData (start (Some bookData))).
  pose proof (undisturbed_generate P bookData _ Hstart) as Hrun.
  by destruct (generate sch P bookData (start (Some bookData))) as [[[]|e] s'].
Qed.
End Undisturbed.

(** The outlines returned have the plan of the project of the click,
    whatever the schedule. *)
Lemma planned_closed sk o vs : planned sk o vs -> planned sk o (vs ++ [o]).
Proof.
  intros [Ho Hvs]. split; [done|]. apply Forall_app. split; [done | by constructor].
Qed.

Lemma planned_round sch P bookData sk j :
  keeps (about (on_outline (planned sk))) (generate_chapter sch P bookData j).
Proof.
  apply (generate_chapter_keeps sch _ j (fun x y => skeleton y = skeleton x));
    [apply planned_closed | | done..].
  intros o vs f [Ho Hvs] Hf. split; [|done]. rewrite <- Ho.
  apply list_eq. intros k. rewrite !list_lookup_fmap.
  destruct (decide (k = j)) as [->|Hk].
  - rewrite list_lookup_alter_eq. destruct (o !! j) as [x|] eqn:Hx; [|done].
    simpl. f_equal. by apply Hf.
  - by rewrite list_lookup_alter_ne.
Qed.

Lemma run_planned sch P bookData :
  Forall (fun o => skeleton <$> o = skeleton <$> bd_outline bookData)
    (outlines (seen (run sch P (Some bookData)))).
Proof.
  destruct (run_outcome sch P bookData
              (on_outline (planned (skeleton <$> bd_outline bookData)))
              (on_outline (planned (skeleton <$> bd_outline bookData))))
    as [[Hnone _]|[_ Hvs]].
  - intros fr vs. apply planned_closed.
  - intros fr Hfr. unfold on_outline. rewrite Hfr. by split.
  - eapply triple_weaken;
      [apply chapters_loop_keeps; intros j; apply planned_round
      | by intros s [? _] | done | done].
  - rewrite Hnone. constructor.
  - exact Hvs.
Qed.

(** *** The content of a section, as the updates return it *)

Lemma length_running (frags : list string) : forall acc,
  length (running acc frags) = length frags.
Proof. induction frags as [|f frags IH]; intros acc; simpl; auto. Qed.

Lemma running_at (frags : list string) : forall acc k,
  k < length frags ->
  running acc frags !! k = Some (acc +:+ join (take (S k) frags)).
Proof.
  intros acc k Hk.
  destruct (lookup_lt_is_Some_2 (running acc frags) k) as [t Ht];
    [by rewrite length_running|].
  by rewrite Ht, (running_lookup _ _ _ _ Ht).
Qed.

Lemma join_app (l1 l2 : list string) : join (l1 ++ l2) = join l1 +:+ join l2.
Proof.
  induction l1 as [|f l1 IH]; [done|].
  change (join ((f :: l1) ++ l2)) with (f +:+ join (l1 ++ l2)).
  change (join (f :: l1)) with (f +:+ join l1). by rewrite IH, append_assoc.
Qed.

Lemma join_take_S (frags : list string) k chunk :
  frags !! k = Some chunk -> join (take (S k) frags) = join (take k frags) +:+ chunk.
Proof.
  intros Hk. rewrite (take_S_r _ _ _ Hk), join_app.
  change (join [chunk]) with (chunk +:+ ""). by rewrite append_empty_r.
Qed.

Lemma join_take_extends (frags : list string) a b :
  a <= b -> exists suffix, join (take b frags) = join (take a frags) +:+ suffix.
Proof.
  intros Hab. exists (join (drop a (take b frags))).
  rewrite <- join_app. f_equal.
  rewrite <- (take_drop a (take b frags)) at 1. f_equal.
  rewrite take_take. f_equal. lia.
Qed.

Lemma sampled_stages {V} (tl vs : list V) q :
  sampled tl q vs ->
  exists stages : list nat,
    Forall2 (fun st v => tl !! st = Some v) stages vs
    /\ (forall k a b, stages !! k = Some a -> stages !! S k = Some b -> a <= b)
    /\ Forall (fun st => st <= q) stages.
Proof.
  induction 1 as [q|q q' vs v _ (stages & Hvs & Hup & Hq) Hle Hv].
  - exists []. split_and!; [constructor | done | constructor].
  - exists (stages ++ [q']). split_and!.
    + apply Forall2_app; [done | by constructor].
    + intros k a b Ha Hb.
      destruct (decide (S k < length stages)) as [Hk|Hk].
      * rewrite lookup_app_l in Ha, Hb by lia. by eapply Hup.
      * pose proof (lookup_lt_Some _ _ _ Hb) as Hlen. rewrite length_app in Hlen.
        simpl in Hlen. assert (S k = length stages) as Hk' by lia.
        rewrite lookup_app_l in Ha by lia.
        rewrite lookup_app_r, Hk', Nat.sub_diag in Hb by lia. injection Hb as <-.
        pose proof (Forall_lookup_1 _ _ _ _ Hq Ha). simpl in *. lia.
    + apply Forall_app. split; [|by constructor].
      eapply Forall_impl; [exact Hq|]. simpl. intros; lia.
Qed.

Section Stream.
Variable sch : Schedule.
Variable P : Provider.
Variable bookData : BookData.
Variable i : nat.
Variable c : Chapter.
Hypothesis section_i : bd_outline bookData !! i = Some c.

Let N := length (bd_outline bookData).
Let frags := yields (chapter_generator P i).
Let tl := timeline P i c.

Lemma timeline_start : tl !! 0 = Some (ch_content c).
Proof. unfold tl, timeline. by destruct (skip c). Qed.

Lemma timeline_fragment k :
  skip c = false -> 1 <= k <= length frags ->
  tl !! k = Some (Some (join (take k frags))).
Proof.
  intros Hs Hk. unfold tl, timeline. rewrite Hs.
  destruct k as [|k]; [lia|]. simpl.
  rewrite lookup_app_l by (rewrite length_fmap, length_running; fold frags; lia).
  rewrite list_lookup_fmap. fold frags. rewrite running_at by lia. done.
Qed.

Lemma timeline_end :
  skip c = false ->
  tl !! S (length frags) = Some (Some (streamed_text (chapter_generator P i))).
Proof.
  intros Hs. unfold tl, timeline. rewrite Hs. simpl.
  rewrite lookup_app_r by (rewrite length_fmap, length_running; fold frags; lia).
  rewrite length_fmap, length_running. fold frags. by rewrite Nat.sub_diag.
Qed.

Lemma at_stage_closed p o vs : at_stage tl i N p o vs -> at_stage tl i N p o (vs ++ [o]).
Proof.
  intros (Hlen & Hp & q & Hq & Hvs). split_and!; [done | done |].
  exists p. split; [done|]. rewrite fmap_app. by eapply sampled_snoc.
Qed.

Lemma content_at_alter_ne f j (o : list Chapter) :
  j <> i -> content_at i (alter f j o) = content_at i o.
Proof. intros Hj. unfold content_at. by rewrite list_lookup_alter_ne. Qed.

Lemma content_at_alter f (o : list Chapter) :
  content_at i (alter f i o) = (o !! i) ≫= (fun x => ch_content (f x)).
Proof. unfold content_at. rewrite list_lookup_alter_eq. by destruct (o !! i). Qed.

(** Writing to another section changes nothing. *)
Lemma at_stage_alter_other p j o vs f :
  j <> i -> at_stage tl i N p o vs -> at_stage tl i N p (alter f j o) vs.
Proof.
  intros Hj (Hlen & Hp & Hvs). split_and!; [by rewrite length_alter | | done].
  by rewrite content_at_alter_ne.
Qed.

(** Neither does a write to the section that leaves its content. *)
Lemma at_stage_alter_same p o vs f :
  at_stage tl i N p o vs ->
  (forall x, o !! i = Some x -> ch_content (f x) = ch_content x) ->
  at_stage tl i N p (alter f i o) vs.
Proof.
  intros (Hlen & Hp & Hvs) Hf. split_and!; [by rewrite length_alter | | done].
  rewrite content_at_alter, Hp. unfold content_at.
  destruct (o !! i) as [x|] eqn:Hx; [|done]. simpl. f_equal. symmetry. by apply Hf.
Qed.

(** A write of the content takes the section to a later stage. *)
Lemma at_stage_advance p p' o vs f t :
  at_stage tl i N p o vs ->
  p <= p' -> tl !! p' = Some (Some t) ->
  (forall x, ch_content (f x) = Some t) ->
  at_stage tl i N p' (alter f i o) vs.
Proof.
  intros (Hlen & Hp & q & Hq & Hvs) Hle Hp' Hf.
  split_and!; [by rewrite length_alter | | exists q; split; [lia | done]].
  rewrite content_at_alter, Hp'.
  destruct (lookup_lt_is_Some_2 o i) as [x Hx].
  { rewrite Hlen. unfold N. by eapply lookup_lt_Some. }
  rewrite Hx. simpl. by rewrite Hf.
Qed.

(** The rounds of the other sections. *)
Lemma other_round_keeps p j (Hj : j <> i) :
  keeps (about (on_outline (at_stage tl i N p))) (generate_chapter sch P bookData j).
Proof.
  apply (generate_chapter_keeps sch _ j (fun _ _ => True));
    [apply at_stage_closed | | done..].
  intros o vs f Ho _. by apply at_stage_alter_other.
Qed.

Lemma other_round_keeps_section j (Hj : j <> i) :
  keeps (about (on_outline (fun o vs => at_stage tl i N 0 o vs /\ o !! i = Some c)))
    (generate_chapter sch P bookData j).
Proof.
  apply (generate_chapter_keeps sch _ j (fun _ _ => True)); [| | done..].
  - intros o vs [Ho Hi]. split; [by apply at_stage_closed | done].
  - intros o vs f [Ho Hi] _. split; [by apply at_stage_alter_other|].
    by rewrite list_lookup_alter_ne.
Qed.

(** The stream of the section, fragment after fragment. *)
Lemma streaming_closed k : closed (streaming tl i N frags k).
Proof. intros fr vs [Hst Hft]. split; [by apply at_stage_closed | done]. Qed.

Lemma receive_chunk_stage k chunk Je :
  skip c = false -> frags !! k = Some chunk ->
  triple (about (streaming tl i N frags k)) (receive_chunk sch i chunk)
    (fun _ => about (streaming tl i N frags (S k))) Je.
Proof.
  intros Hs Hk. pose proof (lookup_lt_Some _ _ _ Hk) as Hlt.
  unfold receive_chunk. apply triple_read. intros t.
  eapply triple_bind with
    (K := fun _ s => about (on_outline (at_stage tl i N k)) s
                     /\ fullText (locals s) = join (take (S k) frags)).
  { intros s [[Hst Hft] <-]. split; [done|]. simpl. rewrite Hft.
    symmetry. by apply join_take_S. }
  intros []. apply triple_read. intros t'.
  eapply triple_bind with (K := fun _ => about (streaming tl i N frags (S k))).
  { intros s [[Hst Hft] <-]. split; [|done]. simpl.
    eapply at_stage_advance; [exact Hst | lia | | done].
    rewrite Hft. apply timeline_fragment; [done | lia]. }
  intros []. apply triple_quiet; [apply streaming_closed | apply setBookData_quiet].
Qed.

Lemma for_await_stage broken (rest : list string) : forall k,
  skip c = false -> k <= length frags -> drop k frags = rest ->
  triple (about (streaming tl i N frags k))
    (for_await sch rest broken (receive_chunk sch i))
    (fun _ s => about (streaming tl i N frags (length frags)) s /\ broken = None)
    (fun e s => about (streaming tl i N frags (length frags)) s /\ broken = Some e).
Proof.
  induction rest as [|chunk rest IH]; intros k Hs Hle Hrest; simpl.
  - assert (Hk : k = length frags).
    { apply (f_equal length) in Hrest. rewrite length_drop in Hrest. simpl in Hrest. lia. }
    subst k.
    eapply triple_bind with (K := fun _ => about (streaming tl i N frags (length frags))).
    { apply triple_quiet; [apply streaming_closed | apply await_quiet]. }
    intros []. destruct broken as [e|]; [by apply triple_throw | by apply triple_ret].
  - assert (Hk : frags !! k = Some chunk).
    { rewrite <- (Nat.add_0_r k), <- lookup_drop, Hrest. done. }
    pose proof (lookup_lt_Some _ _ _ Hk) as Hlt.
    eapply triple_bind with (K := fun _ => about (streaming tl i N frags k)).
    { apply triple_quiet; [apply streaming_closed | apply await_quiet]. }
    intros []. eapply triple_bind; [by apply receive_chunk_stage|].
    intros []. apply IH; [done | lia |].
    rewrite (drop_S _ _ _ Hk) in Hrest. by injection Hrest.
Qed.

Lemma triple_assume {A} (I : State -> Prop) (m : R A) Jn Je (fact : Prop) :
  (forall s, I s -> fact) -> (fact -> triple I m Jn Je) -> triple I m Jn Je.
Proof. intros HI Hm s Hs. by apply (Hm (HI s Hs)). Qed.

(** A step that keeps the stage, in a run that may end at any stage. *)
Lemma at_stage_step {A} p (m : R A) :
  keeps (about (on_outline (at_stage tl i N p))) m ->
  triple (about (on_outline (at_stage tl i N p))) m
    (fun _ => about (on_outline (at_stage tl i N p)))
    (fun _ => at_some_stage tl i N).
Proof.
  intros Hm. eapply triple_weaken; [exact Hm | done | done |].
  intros e s Hs. by exists p.
Qed.

Lemma same_content_alter p o vs f :
  at_stage tl i N p o vs ->
  (forall x, o !! i = Some x -> ch_content (f x) = ch_content x) ->
  at_stage tl i N p (alter f i o) vs.
Proof. apply at_stage_alter_same. Qed.

(** The stream of the section: from the content it had to the text the
    stream leaves. *)
Lemma stream_text_stage chapter prevContext :
  skip c = false ->
  triple (about (on_outline (at_stage tl i N 0)))
    (stream_text sch P bookData i chapter prevContext)
    (fun _ s => about (on_outline (at_stage tl i N (length frags))) s
                /\ fullText (locals s) = streamed_text (chapter_generator P i))
    (fun _ => at_some_stage tl i N).
Proof.
  intros Hs. unfold stream_text.
  eapply triple_bind with (K := fun _ => about (streaming tl i N frags 0)).
  { intros s Hst. by split. }
  intros [].
  apply triple_try_catch with
    (K := fun e s => about (streaming tl i N frags (length frags)) s
                     /\ failure (chapter_generator P i) = Some e).
  - eapply triple_bind with
      (K := fun stream s => about (streaming tl i N frags 0) s
                            /\ stream = chapter_generator P i).
    { unfold generateChapterContentStream.
      eapply triple_bind with (K := fun _ => about (streaming tl i N frags 0)).
      { apply triple_quiet; [apply streaming_closed | by apply observe_quiet]. }
      intros []. by apply triple_ret. }
    intros stream. apply (triple_assume _ _ _ _ (stream = chapter_generator P i)).
    { by intros s [_ ?]. }
    intros ->. eapply triple_weaken;
      [apply (for_await_stage (failure (chapter_generator P i)) frags 0 Hs);
         [lia | done]
      | by intros s [? _] | | done].
    intros _ s [[Hst Hft] Hnone]. split; [done|].
    rewrite Hft, firstn_all. unfold streamed_text. by rewrite Hnone.
  - intros e.
    eapply triple_bind with
      (K := fun _ s => about (streaming tl i N frags (length frags)) s
                       /\ failure (chapter_generator P i) = Some e).
    { intros s [Hst He].
      destruct (console_error_quiet "Stream error" s) as (a & s' & Heq & Hq).
      rewrite Heq. split; [|done].
      eapply about_quietly; [apply streaming_closed | exact Hst | exact Hq]. }
    intros []. apply triple_read. intros t.
    intros s [[[Hst Hft] He] <-]. simpl. split; [done|].
    rewrite Hft, firstn_all. unfold streamed_text. by rewrite He.
Qed.

(** The round of the section. *)
Lemma this_round :
  triple (about (on_outline (fun o vs => at_stage tl i N 0 o vs /\ o !! i = Some c)))
    (generate_chapter sch P bookData i)
    (fun _ => at_some_stage tl i N) (fun _ => at_some_stage tl i N).
Proof.
  unfold generate_chapter. apply triple_read. intros o.
  apply (triple_assume _ _ _ _ (o !! i = Some c)).
  { by intros s [[_ Hi] <-]. }
  intros ->. destruct (skip c) eqn:Hs.
  { apply triple_read. intros n. intros s [[[Hst _] _] _]. by exists 0. }
  eapply triple_bind with (K := fun _ => about (on_outline (at_stage tl i N 0))).
  { intros s [[Hst Hi] _]. unfold about, on_outline. simpl.
    apply same_content_alter; [done|]. intros x Hx.
    unfold about, on_outline in Hi. rewrite Hi in Hx. by injection Hx as <-. }
  intros []. eapply triple_bind.
  { apply at_stage_step, publish_keeps, at_stage_closed. }
  intros []. eapply triple_bind.
  { apply at_stage_step, updateProgress_keeps, at_stage_closed. }
  intros []. apply triple_read. intros o'.
  eapply triple_bind with (K := fun _ => about (on_outline (at_stage tl i N 0))).
  { eapply triple_weaken;
      [apply at_stage_step, prev_context_keeps | by intros s [? _] | done | done]. }
  intros prevContext. eapply triple_bind; [by apply stream_text_stage|].
  intros []. apply triple_read. intros t.
  eapply triple_bind with (K := fun _ => about (on_outline (at_stage tl i N (S (length frags))))).
  { intros s [[Hst Hft] <-]. unfold about, on_outline. simpl.
    eapply at_stage_advance; [exact Hst | lia | | done].
    rewrite Hft. by apply timeline_end. }
  intros []. eapply triple_weaken;
    [apply (illustrating_keeps sch (at_stage tl i N (S (length frags))) i
              (fun x y => ch_content y = ch_content x))
    | done | | ].
  - intros o0 vs. apply at_stage_closed.
  - intros o0 vs f Hst Hf. by apply same_content_alter.
  - done.
  - done.
  - intros [] s Hst. by exists (S (length frags)).
  - intros e s Hst. by exists (S (length frags)).
Qed.

(** The loop: the rounds before the section leave it as it is, its round
    takes it through the stages, the rounds after leave it where it is. *)
Lemma later_rounds rounds : forall from,
  i < from ->
  keeps (at_some_stage tl i N) (chapters_loop sch P bookData from rounds).
Proof.
  induction rounds as [|rounds IH]; intros from Hfrom; simpl; [apply keeps_ret|].
  apply keeps_bind; [|intros _; apply IH; lia].
  intros s [p Hp]. pose proof (other_round_keeps p from ltac:(lia) s Hp) as Hr.
  destruct (generate_chapter sch P bookData from s) as [[a|e] s']; by exists p.
Qed.

Lemma rounds_to_the_section rounds : forall from,
  from <= i ->
  triple (about (on_outline (fun o vs => at_stage tl i N 0 o vs /\ o !! i = Some c)))
    (chapters_loop sch P bookData from rounds)
    (fun _ => at_some_stage tl i N) (fun _ => at_some_stage tl i N).
Proof.
  induction rounds as [|rounds IH]; intros from Hfrom; simpl.
  { apply triple_ret. intros s [Hst _]. by exists 0. }
  destruct (decide (from = i)) as [->|Hne].
  - eapply triple_bind; [apply this_round|]. intros []. apply later_rounds. lia.
  - eapply triple_bind with
      (K := fun _ => about (on_outline (fun o vs => at_stage tl i N 0 o vs /\ o !! i = Some c))).
    + eapply triple_weaken; [by apply other_round_keeps_section | done | done |].
      intros e s [Hst _]. by exists 0.
    + intros []. apply IH. lia.
Qed.

(** Under every schedule, what the outline updates of a run return as the
    content of the section is taken from its timeline, in order. *)
Lemma contents_sampled :
  exists q, sampled tl q (contents i (seen (run sch P (Some bookData)))).
Proof.
  destruct (run_outcome sch P bookData
              (on_outline (fun o vs => at_stage tl i N 0 o vs /\ o !! i = Some c))
              (fun fr vs => exists p, at_stage tl i N p (newOutline fr) vs))
    as [[Hnone _]|[p (_ & _ & q & _ & Hq)]].
  - intros fr vs [p Hp]. exists p. by apply at_stage_closed.
  - intros fr Hfr. unfold on_outline. rewrite Hfr. split; [|done].
    split_and!; [done | |].
    + rewrite timeline_start. unfold content_at. by rewrite section_i.
    + exists 0. split; [done | constructor].
  - eapply triple_weaken; [apply (rounds_to_the_section _ 0); lia | by intros s [? _] | ..];
      intros _ s [p Hp]; by exists p.
  - exists 0. unfold contents. rewrite Hnone. constructor.
  - by exists q.
Qed.

(** From the first fragment on, a later stage of the timeline has an
    earlier one at its beginning. *)
Lemma timeline_extends a b v1 v2 :
  1 <= a <= b -> tl !! a = Some v1 -> tl !! b = Some v2 -> extends v1 v2.
Proof.
  intros Hab Ha Hb. destruct (skip c) eqn:Hs.
  { unfold tl, timeline in Ha. rewrite Hs in Ha. by destruct a as [|[|a]]; [lia|..]. }
  assert (Hlen : length tl = S (S (length frags))).
  { unfold tl, timeline. rewrite Hs. simpl.
    rewrite length_app, length_fmap, length_running. fold frags. simpl. lia. }
  pose proof (lookup_lt_Some _ _ _ Ha) as Ha'. pose proof (lookup_lt_Some _ _ _ Hb) as Hb'.
  assert (Hend : frags <> [] -> streamed_text (chapter_generator P i) = join frags).
  { intros Hne. pose proof (generator_yields_nonempty P i) as Hall. fold frags in Hall.
    unfold streamed_text. fold frags.
    destruct (failure (chapter_generator P i)); [|done].
    unfold or_else. destruct (String.eqb (join frags) "") eqn:Hj; [|done].
    apply String.eqb_eq in Hj. by destruct (join_nonempty frags Hall Hne). }
  destruct (decide (b = S (length frags))) as [->|Hb''].
  - rewrite timeline_end in Hb by done. injection Hb as <-.
    destruct (decide (a = S (length frags))) as [->|Ha''].
    + rewrite timeline_end in Ha by done. injection Ha as <-.
      eexists _, "". split; [done|]. by rewrite append_empty_r.
    + rewrite timeline_fragment in Ha by (done || lia). injection Ha as <-.
      rewrite Hend by (intros Hnil; rewrite Hnil in *; simpl in *; lia).
      destruct (join_take_extends frags a (length frags) ltac:(lia)) as [suffix Hsuf].
      rewrite firstn_all in Hsuf. exists (join (take a frags)), suffix. by rewrite Hsuf.
  - rewrite timeline_fragment in Ha, Hb by (done || lia).
    injection Ha as <-. injection Hb as <-.
    destruct (join_take_extends frags a b ltac:(lia)) as [suffix Hsuf].
    exists (join (take a frags)), suffix. by rewrite Hsuf.
Qed.

(** The contents in order, and each with the one before at its beginning
    once the first fragment has been shown. *)
Lemma contents_follow_the_stream :
  let shown := contents i (seen (run sch P (Some bookData))) in
  in_order tl shown
  /\ forall k v1 v2, shown !! k = Some v1 -> shown !! S k = Some v2 ->
       v1 = ch_content c \/ extends v1 v2.
Proof.
  cbv zeta. destruct contents_sampled as [q Hq].
  destruct (sampled_stages _ _ _ Hq) as (stages & Hall & Hup & _).
  split; [by exists stages|].
  intros k v1 v2 H1 H2.
  destruct (Forall2_lookup_r _ _ _ _ _ Hall H1) as (a & Ha & Hta).
  destruct (Forall2_lookup_r _ _ _ _ _ Hall H2) as (b & Hb & Htb).
  pose proof (Hup k a b Ha Hb) as Hab.
  destruct a as [|a].
  - left. rewrite timeline_start in Hta. by injection Hta.
  - right. by apply (timeline_extends (S a) b); [lia|..].
Qed.
End Stream.
End ScheduleFacts.

(** ** The run with every function called as it is passed, as a schedule *)

Module Agreement.
Import Schedules.

Lemma flush_snoc o (ups : list Scheduled.Update) u : forall prev,
  Scheduled.flush o (ups ++ [Scheduled.Deferred u]) prev =
  (Scheduled.run_updater o u (Scheduled.flush o ups prev).1,
   (Scheduled.flush o ups prev).2
   ++ [Scheduled.Returned u (Scheduled.run_updater o u (Scheduled.flush o ups prev).1)]).
Proof.
  induction ups as [|[v|v b] ups IH]; intros prev; simpl; [done | | apply IH].
  by rewrite IH.
Qed.

(** What has been called already does not read [newOutline] any more. *)
Lemma flush_settled o o' (ups : list Scheduled.Update) : forall prev,
  settled ups ->
  Scheduled.flush o ups prev = Scheduled.flush o' ups prev
  /\ (Scheduled.flush o ups prev).2 = [].
Proof.
  induction ups as [|[v|v b] ups IH]; intros prev Hups; simpl; [done | |].
  - by apply Forall_cons in Hups as [[] _].
  - apply Forall_cons in Hups as [_ Hups]. by apply IH.
Qed.

Lemma returned_app l1 l2 :
  Scheduled.returned (l1 ++ l2) = Scheduled.returned l1 ++ Scheduled.returned l2.
Proof. apply omap_app. Qed.

Lemma did_app l1 l2 : Scheduled.did (l1 ++ l2) = Scheduled.did l1 ++ Scheduled.did l2.
Proof. apply omap_app. Qed.

Lemma unpublished_app l1 l2 : unpublished (l1 ++ l2) = unpublished l1 ++ unpublished l2.
Proof. apply omap_app. Qed.

Lemma snapshots_snoc l e : snapshots (l ++ [e]) = snapshots l ++ snapshots [e].
Proof. apply omap_app. Qed.

Lemma did_flush o (ups : list Scheduled.Update) : forall prev,
  Scheduled.did (Scheduled.flush o ups prev).2 = [].
Proof. induction ups as [|[v|v b] ups IH]; intros prev; simpl; auto. Qed.

Section Timely.
Variable sch : Scheduled.Schedule.
Hypothesis sch_timely : Scheduled.timely sch.
Variable base : list (option BookData).
Variable past : list Event.

(** *** What React does *)

Lemma agrees_render w s : agrees base past w s -> agrees base past w (Scheduled.render s).
Proof.
  intros (Hf & Hb & Hs & Hd). unfold Scheduled.render.
  destruct (Scheduled.pending s) as [|up ups] eqn:Hp.
  { unfold agrees. by rewrite Hp. }
  pose proof (did_flush (newOutline (Scheduled.locals s)) (up :: ups)
                (Scheduled.current s)) as Hdid.
  revert Hb Hs Hdid.
  generalize (Scheduled.flush (newOutline (Scheduled.locals s)) (up :: ups)
                (Scheduled.current s)).
  intros r Hb Hs Hdid. unfold agrees. cbn.
  rewrite !returned_app, !did_app, Hdid. cbn. by rewrite !app_nil_r.
Qed.

Lemma render_clear s : clear (Scheduled.pending (Scheduled.render s)).
Proof.
  unfold Scheduled.render. by destruct (Scheduled.pending s) as [|up ups] eqn:Hp.
Qed.

Lemma agrees_await w s :
  agrees base past w s ->
  exists s', Scheduled.await sch s = (Normal tt, s')
             /\ agrees base past w s' /\ clear (Scheduled.pending s').
Proof.
  intros Hag. eexists. split; [reflexivity|].
  destruct sch_timely as (Hcalm & Hturns & _).
  specialize (Hcalm (Scheduled.awaits s)). specialize (Hturns (Scheduled.awaits s)).
  assert (Hstart : agrees base past w
            (Scheduled.mkState (Scheduled.current s) (Scheduled.pending s)
               (Scheduled.locals s) (Scheduled.seen s) (S (Scheduled.awaits s))
               (Scheduled.sets s))) by done.
  revert Hstart.
  generalize (Scheduled.mkState (Scheduled.current s) (Scheduled.pending s)
                (Scheduled.locals s) (Scheduled.seen s) (S (Scheduled.awaits s))
                (Scheduled.sets s)).
  destruct Hcalm as [|t ts -> Hts]; [done|]. clear Hturns.
  intros s0 Hs0. simpl.
  assert (Hfirst : agrees base past w (Scheduled.render s0)
                   /\ clear (Scheduled.pending (Scheduled.render s0))).
  { split; [by apply agrees_render | apply render_clear]. }
  revert Hfirst. generalize (Scheduled.render s0). clear s0 Hs0.
  induction Hts as [|t ts -> _ IH]; intros s0 [Hs0 Hclear]; [done|].
  simpl. apply IH. split; [by apply agrees_render | apply render_clear].
Qed.

Lemma setBookData_exec f w :
  exec (setBookData f) w =
  mkWorld (store_bookData (f (app_bookData (app w))) (app w)) (frame w)
    (log w ++ [Published (f (app_bookData (app w)))]).
Proof. reflexivity. Qed.

Lemma agrees_queue_update w s f u :
  agrees base past w s ->
  f = Scheduled.run_updater (newOutline (Scheduled.locals s)) u ->
  agrees base past (exec (setBookData f) w) (Scheduled.queue_update sch u s).
Proof.
  intros (Hf & Hb & Hs & Hd) ->. rewrite setBookData_exec.
  unfold Scheduled.queue_update, agrees.
  cbn [frame app log app_bookData store_bookData].
  rewrite snapshots_snoc, unpublished_app. cbn [snapshots unpublished omap].
  rewrite app_nil_r.
  destruct (Scheduled.pending s) as [|up ups] eqn:Hp.
  - cbn in Hb, Hs. rewrite app_nil_r in Hs.
    destruct (Scheduled.eager sch (Scheduled.sets s)); cbn;
      rewrite ?returned_app, ?did_app; cbn; rewrite ?app_nil_r, Hb, Hs;
      split_and!; try done; by rewrite <- ?app_assoc.
  - cbn [Scheduled.locals Scheduled.pending Scheduled.current Scheduled.seen].
    rewrite <- Hp in Hb, Hs |- *. rewrite flush_snoc. cbn [fst snd].
    rewrite returned_app. cbn.
    rewrite Hb, Hs. split_and!; try done. by rewrite <- !app_assoc.
Qed.

Lemma queue_update_settled u s :
  clear (Scheduled.pending s) ->
  Scheduled.eager sch (Scheduled.sets s) = true ->
  settled (Scheduled.pending (Scheduled.queue_update sch u s)).
Proof.
  intros Hclear Heager. unfold Scheduled.queue_update. rewrite Hclear, Heager. simpl.
  by repeat constructor.
Qed.

(** A function passed when nothing is queued has been called when
    [setBookData] returns. *)
Lemma agrees_setBookData w s f u :
  agrees base past w s ->
  f = Scheduled.run_updater (newOutline (Scheduled.locals s)) u ->
  exists s', Scheduled.setBookData sch u s = (Normal tt, s')
             /\ agrees base past (exec (setBookData f) w) s'
             /\ (clear (Scheduled.pending s) -> settled (Scheduled.pending s')).
Proof.
  intros Hag Hfu. eexists. split; [reflexivity|].
  pose proof (agrees_queue_update w s f u Hag Hfu) as Hq.
  destruct sch_timely as (_ & _ & Hprompt). specialize (Hprompt (Scheduled.sets s)).
  destruct (Scheduled.sync sch (Scheduled.sets s)).
  - split; [by apply agrees_render|]. intros _.
    rewrite render_clear. constructor.
  - split; [done|]. intros Hclear. apply queue_update_settled; [done|].
    by rewrite orb_false_r in Hprompt.
Qed.

(** *** The rules *)

Lemma sim_ret {A} (X : list Scheduled.Update -> Prop) (a : A) Yn Ye :
  (forall ups, X ups -> Yn ups) -> sim base past X (mret a) (mret a) Yn Ye.
Proof. intros HX w s Hag Hx. split_and!; [done | done | by apply HX]. Qed.

Lemma sim_throw {A} (X : list Scheduled.Update -> Prop) e Yn Ye :
  (forall ups, X ups -> Ye ups) -> sim base past X (@throw A e) (Scheduled.throw e) Yn Ye.
Proof. intros HX w s Hag Hx. split_and!; [done | done | by apply HX]. Qed.

Lemma sim_settle {A} (X : list Scheduled.Update -> Prop) (c : Completion A) Yn Ye :
  (forall ups, X ups -> Yn ups) -> (forall ups, X ups -> Ye ups) ->
  sim base past X (settle c) (Scheduled.settle c) Yn Ye.
Proof.
  intros Hn He w s Hag Hx. destruct c; (split_and!; [done | done | auto]).
Qed.

Lemma sim_bind {A B} (X K : list Scheduled.Update -> Prop) (me : M A) (ms : Scheduled.R A)
    (ke : A -> M B) (ks : A -> Scheduled.R B) Yn Ye :
  sim base past X me ms K Ye -> (forall a, sim base past K (ke a) (ks a) Yn Ye) ->
  sim base past X (me ≫= ke) (ms ≫= ks) Yn Ye.
Proof.
  intros Hm Hk w s Hag Hx. specialize (Hm w s Hag Hx).
  unfold mbind, M_bind, Scheduled.R_bind.
  destruct (me w) as [[a|e] w'], (ms s) as [[a'|e'] s']; try done.
  destruct Hm as (-> & Hag' & HK). by apply Hk.
Qed.

Lemma sim_try_catch {A} (X K : list Scheduled.Update -> Prop) (be : M A)
    (bs : Scheduled.R A) (he : string -> M A) (hs : string -> Scheduled.R A) Yn Ye :
  sim base past X be bs Yn K -> (forall e, sim base past K (he e) (hs e) Yn Ye) ->
  sim base past X (try_catch be he) (Scheduled.try_catch bs hs) Yn Ye.
Proof.
  intros Hb Hh w s Hag Hx. specialize (Hb w s Hag Hx).
  unfold try_catch, Scheduled.try_catch.
  destruct (be w) as [[a|e] w'], (bs s) as [[a'|e'] s']; try done.
  destruct Hb as (-> & Hag' & HK). by apply Hh.
Qed.

Lemma sim_weaken {A} (X X' Yn Yn' Ye Ye' : list Scheduled.Update -> Prop)
    (me : M A) (ms : Scheduled.R A) :
  sim base past X me ms Yn Ye ->
  (forall ups, X' ups -> X ups) -> (forall ups, Yn ups -> Yn' ups) ->
  (forall ups, Ye ups -> Ye' ups) ->
  sim base past X' me ms Yn' Ye'.
Proof.
  intros Hm HX Hn He w s Hag Hx. specialize (Hm w s Hag (HX _ Hx)).
  destruct (me w) as [[a|e] w'], (ms s) as [[a'|e'] s']; try done;
    destruct Hm as (-> & Hag' & HY); auto.
Qed.

(** Both read the same of the locals. *)
Lemma sim_read {A B} (X : list Scheduled.Update -> Prop) (f : Frame -> A)
    (ke : A -> M B) (ks : A -> Scheduled.R B) Yn Ye :
  (forall a, sim base past X (ke a) (ks a) Yn Ye) ->
  sim base past X (a ← read (fun w => f (frame w)) ; ke a)
    (a ← Scheduled.read (fun s => f (Scheduled.locals s)) ; ks a) Yn Ye.
Proof.
  intros Hk w s Hag Hx. unfold mbind, M_bind, Scheduled.R_bind, read, Scheduled.read.
  destruct Hag as (Hf & Hrest). rewrite Hf. apply Hk; [by split | done].
Qed.

(** The run as React schedules it is suspended; the other is not. *)
Lemma sim_await {A} (X : list Scheduled.Update -> Prop) (me : M A) (ms : Scheduled.R A)
    Yn Ye :
  sim base past clear me ms Yn Ye -> sim base past X me (Scheduled.await sch ;; ms) Yn Ye.
Proof.
  intros Hm w s Hag Hx. destruct (agrees_await w s Hag) as (s' & Heq & Hag' & Hclear).
  unfold mbind, Scheduled.R_bind. rewrite Heq. by apply Hm.
Qed.

(** *** The steps of the run *)

Lemma sim_observe (X : list Scheduled.Update -> Prop) (e : Event) Ye :
  (forall b, e <> Published b) ->
  sim base past X (emit e) (Scheduled.observe (Scheduled.Did e)) X Ye.
Proof.
  intros He w s (Hf & Hb & Hs & Hd) Hx. split_and!; [done | | done].
  unfold agrees. cbn. rewrite snapshots_snoc, unpublished_app, returned_app, did_app.
  cbn. destruct e as [| |b| |]; try (by destruct (He b)); cbn;
    rewrite ?app_nil_r, ?Hd; split_and!; try done; by rewrite ?app_assoc.
Qed.

Lemma sim_setStatus (X : list Scheduled.Update -> Prop) st Ye :
  sim base past X (setStatus st) (Scheduled.setStatus st) X Ye.
Proof.
  intros w s (Hf & Hb & Hs & Hd) Hx. split_and!; [done | | done].
  unfold agrees. cbn. rewrite snapshots_snoc, unpublished_app, returned_app, did_app.
  cbn. rewrite !app_nil_r, Hd. split_and!; try done. by rewrite app_assoc.
Qed.

Lemma sim_console_error (X : list Scheduled.Update -> Prop) label Ye :
  sim base past X (console_error label) (Scheduled.console_error label) X Ye.
Proof. by apply sim_observe. Qed.

Lemma sim_updateProgress (X : list Scheduled.Update -> Prop) msg Ye :
  sim base past X (updateProgress msg) (Scheduled.updateProgress msg) X Ye.
Proof.
  intros w s (Hf & Hb & Hs & Hd) Hx. split_and!; [done | | done].
  unfold agrees. cbn. rewrite snapshots_snoc, unpublished_app, returned_app, did_app.
  cbn. rewrite !app_nil_r, Hd, Hf. split_and!; try done. by rewrite app_assoc.
Qed.

(** The other state variables of [App] are not compared. *)
Lemma sim_unseen (X : list Scheduled.Update -> Prop) (f : App -> App) o Ye :
  (forall a, app_bookData (f a) = app_bookData a) ->
  Scheduled.returned [o] = [] -> Scheduled.did [o] = [] ->
  sim base past X (update_app f) (Scheduled.observe o) X Ye.
Proof.
  intros Hfa Hr Hdid w s (Hf & Hb & Hs & Hd) Hx. split_and!; [done | | done].
  unfold agrees. cbn. rewrite returned_app, did_app, Hr, Hdid, !app_nil_r, Hfa.
  done.
Qed.

Lemma sim_update_locals (X : list Scheduled.Update -> Prop) (f : Frame -> Frame) Ye :
  (forall ups, X ups -> settled ups) ->
  sim base past X (update_frame f) (Scheduled.update_locals f) X Ye.
Proof.
  intros HX w s (Hf & Hb & Hs & Hd) Hx. split_and!; [done | | done].
  unfold agrees. cbn.
  destruct (flush_settled (newOutline (f (Scheduled.locals s)))
              (newOutline (Scheduled.locals s)) (Scheduled.pending s)
              (Scheduled.current s) (HX _ Hx)) as [-> _].
  by rewrite Hf.
Qed.

Lemma sim_keep_outline (X : list Scheduled.Update -> Prop) (f : Frame -> Frame) Ye :
  (forall fr, newOutline (f fr) = newOutline fr) ->
  sim base past X (update_frame f) (Scheduled.update_locals f) X Ye.
Proof.
  intros Hfo w s (Hf & Hb & Hs & Hd) Hx. split_and!; [done | | done].
  unfold agrees. cbn. by rewrite Hfo, Hf.
Qed.

Lemma sim_set_fullText (X : list Scheduled.Update -> Prop) t Ye :
  sim base past X (set_fullText t) (Scheduled.set_fullText t) X Ye.
Proof. by apply sim_keep_outline. Qed.

Lemma sim_set_completedSteps (X : list Scheduled.Update -> Prop) n Ye :
  sim base past X (set_completedSteps n) (Scheduled.set_completedSteps n) X Ye.
Proof. by apply sim_keep_outline. Qed.

Lemma sim_count (X : list Scheduled.Update -> Prop) k Ye :
  sim base past X (n ← read (fun w => completedSteps (frame w)) ; set_completedSteps (n + k))
    (n ← Scheduled.read (fun s => completedSteps (Scheduled.locals s)) ;
     Scheduled.set_completedSteps (n + k)) X Ye.
Proof. apply (sim_read X completedSteps). intros n. apply sim_set_completedSteps. Qed.

Lemma sim_assign (X : list Scheduled.Update -> Prop) i f Ye :
  (forall ups, X ups -> settled ups) ->
  sim base past X (assign_newOutline i f) (Scheduled.assign_newOutline i f) X Ye.
Proof.
  intros HX. apply (sim_read X newOutline). intros o. by apply sim_update_locals.
Qed.

Lemma sim_publish (X Y : list Scheduled.Update -> Prop) Ye :
  (forall ups, X ups -> clear ups \/ forall ups', Y ups') ->
  (forall ups, settled ups -> Y ups) ->
  sim base past X publish_newOutline (Scheduled.publish_newOutline sch) Y Ye.
Proof.
  intros HX HY w s Hag Hx.
  destruct (agrees_setBookData w s (fmap (with_outline (newOutline (frame w))))
              Scheduled.NewOutline Hag) as (s' & Heq & Hag' & Hsettled).
  { destruct Hag as [Hf _]. by rewrite Hf. }
  change (publish_newOutline w)
    with (Normal tt, exec (setBookData (fmap (with_outline (newOutline (frame w))))) w).
  unfold Scheduled.publish_newOutline. rewrite Heq.
  split_and!; [done | done |].
  destruct (HX _ Hx) as [Hclear|Hany]; [by apply HY, Hsettled | apply Hany].
Qed.

Lemma sim_publish_clear Ye :
  sim base past clear publish_newOutline (Scheduled.publish_newOutline sch) settled Ye.
Proof. apply sim_publish; [by left | done]. Qed.

Lemma sim_publish_any (X : list Scheduled.Update -> Prop) Ye :
  sim base past X publish_newOutline (Scheduled.publish_newOutline sch) any Ye.
Proof. apply sim_publish; [by right | done]. Qed.

Lemma sim_cover coverUrl Ye :
  sim base past clear (setBookData (fmap (with_coverImage coverUrl)))
    (Scheduled.setBookData sch (Scheduled.CoverImage coverUrl)) settled Ye.
Proof.
  intros w s Hag Hx.
  destruct (agrees_setBookData w s (fmap (with_coverImage coverUrl))
              (Scheduled.CoverImage coverUrl) Hag) as (s' & Heq & Hag' & Hsettled); [done|].
  change (setBookData (fmap (with_coverImage coverUrl)) w)
    with (Normal tt, exec (setBookData (fmap (with_coverImage coverUrl))) w).
  rewrite Heq. split_and!; [done | done | by apply Hsettled].
Qed.

(** *** The run *)

Lemma clear_settled ups : clear ups -> settled ups.
Proof. intros ->. constructor. Qed.

Lemma sim_call (X : list Scheduled.Update -> Prop) (c : ProviderCall)
    (answer : Completion string) :
  sim base past X (emit (Called c) ;; settle answer)
    (Scheduled.observe (Scheduled.Did (Called c)) ;; Scheduled.await sch ;;
     Scheduled.settle answer) clear clear.
Proof.
  eapply sim_bind; [by apply sim_observe|]. intros _.
  apply sim_await. by apply sim_settle.
Qed.

Lemma sim_receive_chunk i chunk Ye :
  sim base past clear (receive_chunk i chunk) (Scheduled.receive_chunk sch i chunk)
    settled Ye.
Proof.
  unfold receive_chunk, Scheduled.receive_chunk.
  apply (sim_read clear fullText). intros t.
  eapply sim_bind; [apply sim_set_fullText|]. intros _.
  apply (sim_read clear fullText). intros t'.
  eapply sim_bind; [apply sim_assign, clear_settled|]. intros _.
  apply sim_publish_clear.
Qed.

Lemma sim_for_await (frags : list string) broken i :
  forall X : list Scheduled.Update -> Prop,
  sim base past X (for_await frags broken (receive_chunk i))
    (Scheduled.for_await sch frags broken (Scheduled.receive_chunk sch i)) clear clear.
Proof.
  induction frags as [|chunk rest IH]; intros X; simpl.
  - apply sim_await. destruct broken; [by apply sim_throw | by apply sim_ret].
  - apply sim_await. eapply sim_bind; [apply sim_receive_chunk|]. intros _. apply IH.
Qed.

Lemma sim_stream_text (X : list Scheduled.Update -> Prop) P bookData i chapter prevContext Ye :
  sim base past X (stream_text P bookData i chapter prevContext)
    (Scheduled.stream_text sch P bookData i chapter prevContext) clear Ye.
Proof.
  unfold stream_text, Scheduled.stream_text.
  eapply sim_bind; [apply sim_set_fullText|]. intros _.
  apply sim_try_catch with (K := clear).
  - unfold generateChapterContentStream, Scheduled.generateChapterContentStream.
    eapply sim_bind.
    { eapply sim_bind; [by apply sim_observe|]. intros _. by apply sim_ret. }
    intros stream. apply sim_for_await.
  - intros e. eapply sim_bind; [apply sim_console_error|]. intros _.
    apply (sim_read clear fullText). intros t. apply sim_set_fullText.
Qed.

Lemma sim_image_step P bookData i chapter Ye :
  forall X : list Scheduled.Update -> Prop,
  sim base past X (image_step P bookData i chapter)
    (Scheduled.image_step sch P bookData i chapter) settled Ye.
Proof.
  intros X. unfold image_step, Scheduled.image_step, illustrate, Scheduled.illustrate.
  eapply sim_bind with (K := clear).
  - apply sim_try_catch with (K := clear).
    + eapply sim_bind; [apply sim_call|]. intros imageUrl.
      apply sim_assign, clear_settled.
    + intros e. eapply sim_bind; [apply sim_console_error|]. intros _.
      apply sim_assign, clear_settled.
  - intros _. eapply sim_bind; [apply sim_publish_clear|]. intros _. apply sim_count.
Qed.

Lemma sim_generate_chapter P bookData i :
  sim base past settled (generate_chapter P bookData i)
    (Scheduled.generate_chapter sch P bookData i) settled any.
Proof.
  unfold generate_chapter, Scheduled.generate_chapter.
  apply (sim_read settled newOutline). intros o.
  destruct (o !! i) as [chapter|]; [|by apply sim_throw].
  destruct (skip chapter); [apply sim_count|].
  eapply sim_bind; [by apply sim_assign|]. intros _.
  eapply sim_bind; [apply (sim_publish_any settled)|]. intros _.
  eapply sim_bind; [apply sim_updateProgress|]. intros _.
  apply (sim_read any newOutline). intros o'.
  eapply sim_bind with (K := any).
  { destruct i as [|j]; [by apply sim_ret|].
    destruct (o' !! j); [by apply sim_ret | by apply sim_throw]. }
  intros prevContext. eapply sim_bind; [apply sim_stream_text|]. intros _.
  apply (sim_read clear fullText). intros t.
  eapply sim_bind; [apply sim_assign, clear_settled|]. intros _.
  eapply sim_bind; [apply sim_publish_clear|]. intros _.
  apply (sim_read settled completedSteps). intros n.
  eapply sim_bind; [apply sim_set_completedSteps|]. intros _.
  eapply sim_bind; [apply sim_updateProgress|]. intros _.
  apply sim_image_step.
Qed.

Lemma sim_chapters_loop P bookData rounds : forall from,
  sim base past settled (chapters_loop P bookData from rounds)
    (Scheduled.chapters_loop sch P bookData from rounds) settled any.
Proof.
  induction rounds as [|rounds IH]; intros from; simpl; [by apply sim_ret|].
  eapply sim_bind; [apply sim_generate_chapter|]. intros _. apply IH.
Qed.

Lemma sim_generate_cover P bookData Ye :
  sim base past clear (generate_cover P bookData) (Scheduled.generate_cover sch P bookData)
    settled Ye.
Proof.
  unfold generate_cover, Scheduled.generate_cover.
  destruct (truthy (bd_coverImage bookData)); [apply sim_ret, clear_settled|].
  eapply sim_bind; [apply sim_updateProgress|]. intros _.
  apply sim_try_catch with (K := clear).
  - eapply sim_bind; [apply sim_call|]. intros coverUrl. apply sim_cover.
  - intros e. eapply sim_weaken; [apply sim_console_error | done | apply clear_settled | done].
Qed.

(** The run from [try] on. *)
Lemma sim_generate P bookData :
  sim base past clear
    (try_catch
       (generate_cover P bookData ;;
        n ← read (fun w => completedSteps (frame w)) ;
        set_completedSteps (n + 1) ;;
        set_newOutline (bd_outline bookData) ;;
        o ← read (fun w => newOutline (frame w)) ;
        chapters_loop P bookData 0 (length o) ;;
        setStatus COMPLETED)
       (fun e =>
          setError (Some (or_else e "Generation failed midway.")) ;;
          setStatus ERROR ;;
          if includes "API Key" e then setIsApiKeyModalOpen true else mret tt))
    (Scheduled.try_catch
       (Scheduled.generate_cover sch P bookData ;;
        n ← Scheduled.read (fun s => completedSteps (Scheduled.locals s)) ;
        Scheduled.set_completedSteps (n + 1) ;;
        Scheduled.write_chapters sch P bookData)
       (fun e =>
          Scheduled.observe
            (Scheduled.ErrorSet (Some (or_else e "Generation failed midway."))) ;;
          Scheduled.setStatus ERROR ;;
          if includes "API Key" e then Scheduled.observe Scheduled.DialogOpened
          else mret tt))
    any any.
Proof.
  apply sim_try_catch with (K := any).
  - eapply sim_bind; [apply sim_generate_cover|]. intros _.
    apply (sim_read settled completedSteps). intros n.
    eapply sim_bind; [apply sim_set_completedSteps|]. intros _.
    unfold Scheduled.write_chapters.
    eapply sim_bind; [by apply sim_update_locals|]. intros _.
    apply (sim_read settled newOutline). intros o.
    eapply sim_bind; [apply sim_chapters_loop|]. intros _.
    apply (sim_weaken settled settled settled any any any); [apply sim_setStatus | done..].
  - intros e. eapply sim_bind; [by apply sim_unseen|]. intros _.
    eapply sim_bind; [apply sim_setStatus|]. intros _.
    destruct (includes "API Key" e); [by apply sim_unseen | by apply sim_ret].
Qed.
End Timely.

(** The two runs from the click on. *)
Lemma runs_agree sch P w bookData :
  Scheduled.timely sch ->
  app_bookData (app w) = Some bookData ->
  agrees (snapshots (log w)) (unpublished (log w))
    (exec (startFullGeneration P) w) (Scheduled.run sch P (Some bookData)).
Proof.
  intros Htimely Hb. unfold Scheduled.run. apply agrees_render.
  set (tot := 1 + length (bd_outline bookData) * 2).
  set (w1 := mkWorld
               (mkApp GENERATING_BOOK (app_config (app w)) (app_bookData (app w))
                  (app_error (app w)) (app_isApiKeyModalOpen (app w))
                  (app_generationProgress (app w)))
               (mkFrame tot 0 [] "") (log w ++ [StatusSet GENERATING_BOOK])).
  set (s1 := Scheduled.mkState (Some bookData) [] (mkFrame tot 0 [] "")
               [Scheduled.Did (StatusSet GENERATING_BOOK)] 0 0).
  assert (Hstart : agrees (snapshots (log w)) (unpublished (log w)) w1 s1).
  { unfold agrees, w1, s1. cbn. rewrite snapshots_snoc, unpublished_app. cbn.
    by rewrite !app_nil_r. }
  pose proof (sim_generate sch Htimely _ _ P bookData w1 s1 Hstart eq_refl) as Hsim.
  assert (He : startFullGeneration P w =
               try_catch
                 (generate_cover P bookData ;;
                  n ← read (fun w => completedSteps (frame w)) ;
                  set_completedSteps (n + 1) ;;
                  set_newOutline (bd_outline bookData) ;;
                  o ← read (fun w => newOutline (frame w)) ;
                  chapters_loop P bookData 0 (length o) ;;
                  setStatus COMPLETED)
                 (fun e =>
                    setError (Some (or_else e "Generation failed midway.")) ;;
                    setStatus ERROR ;;
                    if includes "API Key" e then setIsApiKeyModalOpen true else mret tt)
                 w1).
  { unfold startFullGeneration. unfold mbind at 1, M_bind at 1, read at 1.
    rewrite Hb. reflexivity. }
  unfold exec, Scheduled.exec. rewrite He.
  change (Scheduled.startFullGeneration sch P (Scheduled.start (Some bookData)))
    with (Scheduled.try_catch
            (Scheduled.generate_cover sch P bookData ;;
             n ← Scheduled.read (fun s => completedSteps (Scheduled.locals s)) ;
             Scheduled.set_completedSteps (n + 1) ;;
             Scheduled.write_chapters sch P bookData)
            (fun e =>
               Scheduled.observe
                 (Scheduled.ErrorSet (Some (or_else e "Generation failed midway."))) ;;
               Scheduled.setStatus ERROR ;;
               if includes "API Key" e then Scheduled.observe Scheduled.DialogOpened
               else mret tt) s1).
  revert Hsim.
  generalize (try_catch
                 (generate_cover P bookData ;;
                  n ← read (fun w => completedSteps (frame w)) ;
                  set_completedSteps (n + 1) ;;
                  set_newOutline (bd_outline bookData) ;;
                  o ← read (fun w => newOutline (frame w)) ;
                  chapters_loop P bookData 0 (length o) ;;
                  setStatus COMPLETED)
                 (fun e =>
                    setError (Some (or_else e "Generation failed midway.")) ;;
                    setStatus ERROR ;;
                    if includes "API Key" e then setIsApiKeyModalOpen true else mret tt)
                 w1).
  generalize (Scheduled.try_catch
            (Scheduled.generate_cover sch P bookData ;;
             n ← Scheduled.read (fun s => completedSteps (Scheduled.locals s)) ;
             Scheduled.set_completedSteps (n + 1) ;;
             Scheduled.write_chapters sch P bookData)
            (fun e =>
               Scheduled.observe
                 (Scheduled.ErrorSet (Some (or_else e "Generation failed midway."))) ;;
               Scheduled.setStatus ERROR ;;
               if includes "API Key" e then Scheduled.observe Scheduled.DialogOpened
               else mret tt) s1).
  intros [[[]|e] s'] [[[]|e'] w']; try done; by intros (_ & Hag & _).
Qed.
End Agreement.

(** The model in which every function passed to [setBookData] is called as
    it is passed is the run under every timely schedule: the snapshots it
    publishes are the states the functions return when React calls them, in
    the same order; the run does the same besides; and it leaves the same
    project and the same locals. *)
Theorem call_time_run_is_a_timely_run (sch : Scheduled.Schedule) (P : Provider)
    (w : World) (bookData : BookData) :
  Scheduled.timely sch ->
  app_bookData (app w) = Some bookData ->
  let w' := exec (startFullGeneration P) w in
  let s' := Scheduled.run sch P (Some bookData) in
  snapshots (log w') = snapshots (log w) ++ Scheduled.returned (Scheduled.seen s')
  /\ Schedules.unpublished (log w')
     = Schedules.unpublished (log w) ++ Scheduled.did (Scheduled.seen s')
  /\ app_bookData (app w') = Scheduled.current s'
  /\ frame w' = Scheduled.locals s'.
Proof.
  intros Htimely Hb. cbv zeta.
  destruct (Agreement.runs_agree sch P w bookData Htimely Hb) as (Hf & Hcur & Hs & Hd).
  pose proof (Agreement.render_clear
                (Scheduled.exec (Scheduled.startFullGeneration sch P)
                   (Scheduled.start (Some bookData)))) as Hclear.
  fold (Scheduled.run sch P (Some bookData)) in Hclear.
  rewrite Hclear in Hcur, Hs. cbn in Hcur, Hs. rewrite app_nil_r in Hs.
  by split_and!.
Qed.

Lemma prompt_is_timely : Scheduled.timely Scheduled.prompt.
Proof. split_and!; [intros n; by repeat constructor | done | done]. Qed.

Lemma unbatched_is_timely : Scheduled.timely Scheduled.unbatched.
Proof. split_and!; [intros n; by repeat constructor | done | done]. Qed.

(** When React calls a function that finds nothing queued only in the next
    render, the states returned are not those snapshots: the function
    passed when the illustration of a section is done is called after the
    next section has been marked as being written. *)
Example deferred_calls_differ :
  let w := Sample.reviewing in
  let w' := exec (startFullGeneration Sample.provider) w in
  let s' := Scheduled.run Scheduled.every_await Sample.provider (Some Sample.project) in
  app_bookData (app w) = Some Sample.project
  /\ Scheduled.calm Scheduled.every_await
  /\ length (snapshots (log w')) = length (snapshots (log w)) + 16
  /\ length (Scheduled.returned (Scheduled.seen s')) = 16
  /\ snapshots (log w') <> snapshots (log w) ++ Scheduled.returned (Scheduled.seen s').
Proof.
  split_and!; [reflexivity | intros n; by repeat constructor | vm_compute; reflexivity..|].
  vm_compute. discriminate.
Qed.

(** ** C4: the content of a section in the states a run publishes *)

(** C4. Whenever React renders and whatever else sets the project in
    between, the contents of section [i] in the successive states that the
    outline updates of a run return are taken in order from the timeline of
    the section: the content it had when the run started, then the first
    fragment, the first two put together, and so on, then the text the
    writing sub-step leaves. A state may repeat the content of the one before
    and stages may be passed over, but none comes back. From the stage of
    the first fragment on, a later stage begins with every earlier one, so
    the content shown never shrinks nor is reordered; the first fragment,
    however, replaces the content the section had, it is not added to it. *)
Theorem C4_published_content_follows_the_stream (sch : Scheduled.Schedule)
    (P : Provider) (bookData : BookData) (i : nat) (c : Chapter) :
  bd_outline bookData !! i = Some c ->
  let shown := Scheduled.contents i
                 (Scheduled.seen (Scheduled.run sch P (Some bookData))) in
  let tl := Schedules.timeline P i c in
  Schedules.in_order tl shown
  /\ (forall a b v1 v2, 1 <= a <= b -> tl !! a = Some v1 -> tl !! b = Some v2 ->
        Schedules.extends v1 v2)
  /\ (forall k v1 v2, shown !! k = Some v1 -> shown !! S k = Some v2 ->
        v1 = ch_content c \/ Schedules.extends v1 v2).
Proof.
  intros Hc. cbv zeta.
  destruct (ScheduleFacts.contents_follow_the_stream sch P bookData i c Hc) as [Hin Hnext].
  split_and!; [exact Hin | | exact Hnext].
  intros a b v1 v2. by apply ScheduleFacts.timeline_extends.
Qed.

Lemma C4_witness :
  bd_outline Sample.project !! 1
  = Some (mkChapter "chap-1" "Two" "About Two" None None pending)
  /\ let shown := Scheduled.contents 1
                    (Scheduled.seen
                       (Scheduled.run Scheduled.every_await Sample.provider
                          (Some Sample.project))) in
     let tl := Schedules.timeline Sample.provider 1
                 (mkChapter "chap-1" "Two" "About Two" None None pending) in
     Schedules.in_order tl shown
     /\ (forall a b v1 v2, 1 <= a <= b -> tl !! a = Some v1 -> tl !! b = Some v2 ->
           Schedules.extends v1 v2)
     /\ (forall k v1 v2, shown !! k = Some v1 -> shown !! S k = Some v2 ->
           v1 = None \/ Schedules.extends v1 v2).
Proof.
  split; [reflexivity|].
  apply (C4_published_content_follows_the_stream Scheduled.every_await Sample.provider
           Sample.project 1 (mkChapter "chap-1" "Two" "About Two" None None pending)).
  reflexivity.
Defined.

(** C4 as stated fails: the first section has a text and no illustration,
    so the run writes it again. Whether React renders during every [await],
    or calls each function as soon as it can, or renders inside every call
    of [setBookData], the first state published in the writing sub-step
    shows the section being written with the text it had, the next one
    shows it with the first fragment of the new stream, and the text it had
    is not the beginning of that. *)
Lemma C4_counterexample :
  let bookData := Fixture.project_without_first_image in
  app_bookData (app Sample.finished_without_first_image) = Some bookData
  /\ Forall (fun sch =>
       let s := Scheduled.run sch Sample.provider_rewriting (Some bookData) in
       take 2 (Scheduled.outlines (Scheduled.seen s)) ≫= (fun o => option_list (o !! 0))
       = [mkChapter "chap-0" "One" "About One" (Some "Intro. Body.") None generating_text;
          mkChapter "chap-0" "One" "About One" (Some "Another text.") None
            generating_text])
      [Scheduled.every_await; Scheduled.prompt; Scheduled.unbatched]
  /\ ~ exists suffix, "Another text." = "Intro. Body." +:+ suffix.
Proof.
  split_and!; [vm_compute; reflexivity | repeat constructor |].
  intros [suffix Hsuffix]. discriminate Hsuffix.
Qed.

(** The same run when React renders only once it is over: every update
    returns the section as the run left it, so the states do not show the
    text growing at all. *)
Example one_render_shows_one_text :
  let s := Scheduled.run Scheduled.at_the_end Sample.provider (Some Sample.project) in
  Scheduled.contents 0 (Scheduled.seen s)
  = replicate 15 (Some "Intro. Body.").
Proof. vm_compute. reflexivity. Qed.

(** ** C5: a stream that breaks *)

Lemma streamed_text_broken (g : Generator) e :
  failure g = Some e ->
  Forall (fun f => f <> "") (yields g) ->
  streamed_text g = match yields g with
                    | [] => TEXT_ERROR_PLACEHOLDER
                    | _ :: _ => join (yields g)
                    end.
Proof.
  intros He Hne. unfold streamed_text. rewrite He.
  destruct (yields g) as [|f frags] eqn:Hy; [done|].
  unfold or_else. destruct (String.eqb _ _) eqn:Heq; [|done].
  apply String.eqb_eq in Heq. by apply join_nonempty in Heq.
Qed.

(** C5. When the text stream of a section that is not skipped breaks, after
    zero or more fragments, the run is not aborted: it ends normally in
    [COMPLETED]. The section is published with status [generating_image]
    and, as content, the fragments received put together when there is at
    least one, the fixed placeholder when there is none; its illustration is
    then requested; and it ends with that same content and status
    [completed]. *)
Theorem C5_broken_stream_falls_back (P : Provider) (w : World) (bookData : BookData)
    (i : nat) (c : Chapter) (e : string) :
  app_bookData (app w) = Some bookData ->
  bd_outline bookData !! i = Some c ->
  skip c = false ->
  failure (chapter_generator P i) = Some e ->
  let text := match yields (chapter_generator P i) with
              | [] => TEXT_ERROR_PLACEHOLDER
              | _ :: _ => join (yields (chapter_generator P i))
              end in
  let w' := exec (startFullGeneration P) w in
  (outcome (startFullGeneration P) w = Normal tt /\ app_status (app w') = COMPLETED)
  /\ (exists c', app_bookData (app w') ≫= (fun b => bd_outline b !! i) = Some c'
                 /\ ch_content c' = Some text /\ ch_status c' = completed)
  /\ (exists before after b p c',
        log w' = log w ++ before
                 ++ [Published (Some b); ProgressShown p;
                     Called (CallIllustration (ch_title c) (cfg_style (bd_config bookData))
                               (cfg_format (bd_config bookData)))]
                 ++ after
        /\ message p = illustrating_message i
        /\ bd_outline b !! i = Some c'
        /\ ch_content c' = Some text /\ ch_status c' = generating_image).
Proof.
  intros Hb Hc Hs He text w'.
  assert (Htext : streamed_text (chapter_generator P i) = text).
  { apply (streamed_text_broken _ e He), generator_yields_nonempty. }
  destruct (run_summary P w bookData Hb) as (Hout & Hst & _ & _ & _ & _ & _ & _ & _ & Hlog).
  split_and!; [done | done | |].
  - exists (final_chapter P i c). split; [by apply (run_final_section P w bookData)|].
    unfold final_chapter. rewrite Hs. simpl. by rewrite Htext.
  - pose proof (lookup_lt_Some _ _ _ Hc) as Hi.
    destruct (loop_events_round P bookData i c (length (bd_outline bookData)) 0
                (bd_outline bookData) (Some (cover_book P bookData)) 1
                (1 + length (bd_outline bookData) * 2)) as
      (before & after & o' & b' & steps' & Hloop & Hlen & Hsome); [lia | done | done |].
    destruct Hsome as [bd' ->]; [done|].
    destruct (round_events_middle P bookData i c o' (Some bd') steps'
                (1 + length (bd_outline bookData) * 2)) as (pre & post & Hround).
    fold w' in Hlog. cbv zeta in Hlog. unfold run_events in Hlog.
    rewrite Hloop, Hround in Hlog.
    exists ([StatusSet GENERATING_BOOK]
            ++ cover_events P bookData (1 + length (bd_outline bookData) * 2)
            ++ before ++ pre),
      (post ++ after ++ [StatusSet COMPLETED]),
      (with_outline (<[i := written_chapter P i c]> o') bd'),
      (mkProgress (steps' + 1) (1 + length (bd_outline bookData) * 2)
         (illustrating_message i)),
      (written_chapter P i c).
    split_and!.
    + rewrite Hlog. clear. by rewrite <- !app_assoc.
    + done.
    + simpl. apply list_lookup_insert_eq. lia.
    + simpl. by rewrite Htext.
    + done.
Qed.

Lemma C5_witness :
  let P := Sample.provider_broken_stream in
  let w := Sample.reviewing in
  let c := mkChapter "chap-1" "Two" "About Two" None None pending in
  app_bookData (app w) = Some Sample.project
  /\ bd_outline Sample.project !! 1 = Some c
  /\ skip c = false
  /\ failure (chapter_generator P 1) = Some "network down"
  /\ let text := match yields (chapter_generator P 1) with
                 | [] => TEXT_ERROR_PLACEHOLDER
                 | _ :: _ => join (yields (chapter_generator P 1))
                 end in
     let w' := exec (startFullGeneration P) w in
     (outcome (startFullGeneration P) w = Normal tt /\ app_status (app w') = COMPLETED)
     /\ (exists c', app_bookData (app w') ≫= (fun b => bd_outline b !! 1) = Some c'
                    /\ ch_content c' = Some text /\ ch_status c' = completed)
     /\ (exists before after b p c',
           log w' = log w ++ before
                    ++ [Published (Some b); ProgressShown p;
                        Called (CallIllustration (ch_title c)
                                  (cfg_style (bd_config Sample.project))
                                  (cfg_format (bd_config Sample.project)))]
                    ++ after
           /\ message p = illustrating_message 1
           /\ bd_outline b !! 1 = Some c'
           /\ ch_content c' = Some text /\ ch_status c' = generating_image).
Proof.
  split_and!; [vm_compute; reflexivity..|].
  apply (C5_broken_stream_falls_back Sample.provider_broken_stream Sample.reviewing
           Sample.project 1 _ "network down"); vm_compute; reflexivity.
Defined.

(** The scenario of the specification: the stream of the second section
    breaks after "Intro. ", the one of the third before any fragment. *)
Example scenario_broken_streams :
  let w' := exec (startFullGeneration Sample.provider_broken_stream) Sample.reviewing in
  (map ch_content <$> (bd_outline <$> app_bookData (app w')))
  = Some [Some "Intro. Body."; Some "Intro. "; Some TEXT_ERROR_PLACEHOLDER]
  /\ (map ch_status <$> (bd_outline <$> app_bookData (app w')))
     = Some [completed; completed; completed]
  /\ app_status (app w') = COMPLETED.
Proof. vm_compute. done. Qed.

(** ** C6: an illustration that fails *)

(** The data URL of an image is never empty. *)
Lemma generateImage_nonempty P answer imageUrl :
  generateImage P answer = Normal imageUrl -> imageUrl <> "".
Proof.
  unfold generateImage. destruct (getClient P); [|done].
  destruct answer as [parts|]; [|done].
  induction parts as [|[d|] parts IH]; simpl; [done| |done].
  intros [= <-]. discriminate.
Qed.

(** The image sub-step on its own: it never throws, counts one step, and
    leaves the section [completed], with the new illustration when there is
    one and with the illustration reference it had when there is none. *)
Lemma image_step_spec P bookData i chapter w x :
  newOutline (frame w) !! i = Some x ->
  let w' := exec (image_step P bookData i chapter) w in
  outcome (image_step P bookData i chapter) w = Normal tt
  /\ completedSteps (frame w') = completedSteps (frame w) + 1
  /\ newOutline (frame w') !! i =
     Some (match generateImage P (illustration_answer P i) with
           | Normal imageUrl => with_status completed (with_imageUrl imageUrl x)
           | Throw _ => with_status completed x
           end)
  /\ app_bookData (app w') = with_outline (newOutline (frame w')) <$> app_bookData (app w).
Proof.
  intros Hx. unfold exec, outcome, image_step, illustrate. run.
  destruct (generateImage P (illustration_answer P i)); run;
    (split_and!; [done | done | by rewrite list_lookup_alter_eq, Hx | done]).
Qed.

Lemma run_calls_of_section P w bookData i c :
  app_bookData (app w) = Some bookData ->
  bd_outline bookData !! i = Some c ->
  exists before after,
    calls (log (exec (startFullGeneration P) w)) =
    calls (log w) ++ before ++ round_calls bookData (bd_outline bookData) i c ++ after.
Proof.
  intros Hb Hc.
  destruct (run_summary P w bookData Hb) as (_ & _ & _ & _ & _ & _ & _ & _ & _ & Hlog).
  cbv zeta in Hlog. rewrite Hlog, calls_app, calls_run_events.
  rewrite (loop_calls_split bookData _ i c) by
    (done || (apply lookup_lt_Some in Hc; lia)).
  exists (cover_calls bookData ++ loop_calls bookData (bd_outline bookData) 0 (i - 0)),
    (loop_calls bookData (bd_outline bookData) (S i)
       (0 + length (bd_outline bookData) - S i)).
  by rewrite <- !app_assoc.
Qed.

(** C6, as the code has it. Whatever the image sub-step of a section [k]
    that is not skipped does, the run goes on to the end: it ends normally
    in [COMPLETED] with every step counted, and every later section is left
    as its own round leaves it, the calls of that round made. Section [k]
    ends [completed], with the new illustration reference when the image
    call succeeds and with the illustration reference it had before (none,
    if it had none) when the call fails; the sub-step counts one step in
    both cases. *)
Theorem C6_failed_illustration_is_isolated (P : Provider) (w : World)
    (bookData : BookData) (k : nat) (c : Chapter) :
  app_bookData (app w) = Some bookData ->
  bd_outline bookData !! k = Some c ->
  skip c = false ->
  let w' := exec (startFullGeneration P) w in
  let section j := app_bookData (app w') ≫= (fun b => bd_outline b !! j) in
  (outcome (startFullGeneration P) w = Normal tt
   /\ app_status (app w') = COMPLETED
   /\ completedSteps (frame w') = totalSteps (frame w'))
  /\ (exists c', section k = Some c' /\ ch_status c' = completed
        /\ match generateImage P (illustration_answer P k) with
           | Normal imageUrl => ch_imageUrl c' = Some imageUrl /\ imageUrl <> ""
           | Throw _ => ch_imageUrl c' = ch_imageUrl c
           end)
  /\ (forall j cj, k < j -> bd_outline bookData !! j = Some cj ->
        section j = Some (final_chapter P j cj)
        /\ ch_status (final_chapter P j cj) = completed
        /\ exists before after,
             calls (log w') = calls (log w) ++ before
               ++ round_calls bookData (bd_outline bookData) j cj ++ after)
  /\ (forall w0 x, newOutline (frame w0) !! k = Some x ->
        outcome (image_step P bookData k c) w0 = Normal tt
        /\ completedSteps (frame (exec (image_step P bookData k c) w0))
           = completedSteps (frame w0) + 1).
Proof.
  intros Hb Hc Hs w' section.
  destruct (run_summary P w bookData Hb) as (Hout & Hst & _ & _ & _ & _ & Htot & Hsteps & _).
  cbv zeta in Htot, Hsteps.
  split_and!; [done | done | unfold w'; rewrite Hsteps, Htot; lia | | |].
  - exists (final_chapter P k c). split; [by apply (run_final_section P w bookData)|].
    unfold final_chapter. rewrite Hs. simpl. split; [done|].
    destruct (generateImage P (illustration_answer P k)) eqn:Himg; [|done].
    split; [done | by eapply generateImage_nonempty].
  - intros j cj Hj Hcj. split_and!.
    + by apply (run_final_section P w bookData).
    + unfold final_chapter. destruct (skip cj) eqn:Hsj; [|done].
      by apply skip_fully_done in Hsj as [? _].
    + by apply run_calls_of_section.
  - intros w0 x Hx. by destruct (image_step_spec P bookData k c w0 x Hx) as (? & ? & _).
Qed.

Lemma C6_witness :
  let P := Sample.provider_no_image in
  let w := Sample.reviewing in
  let bookData := Sample.project in
  let c := mkChapter "chap-0" "One" "About One" None None pending in
  app_bookData (app w) = Some bookData
  /\ bd_outline bookData !! 0 = Some c
  /\ skip c = false
  /\ let w' := exec (startFullGeneration P) w in
     let section j := app_bookData (app w') ≫= (fun b => bd_outline b !! j) in
     (outcome (startFullGeneration P) w = Normal tt
      /\ app_status (app w') = COMPLETED
      /\ completedSteps (frame w') = totalSteps (frame w'))
     /\ (exists c', section 0 = Some c' /\ ch_status c' = completed
           /\ match generateImage P (illustration_answer P 0) with
              | Normal imageUrl => ch_imageUrl c' = Some imageUrl /\ imageUrl <> ""
              | Throw _ => ch_imageUrl c' = ch_imageUrl c
              end)
     /\ (forall j cj, 0 < j -> bd_outline bookData !! j = Some cj ->
           section j = Some (final_chapter P j cj)
           /\ ch_status (final_chapter P j cj) = completed
           /\ exists before after,
                calls (log w') = calls (log w) ++ before
                  ++ round_calls bookData (bd_outline bookData) j cj ++ after)
     /\ (forall w0 x, newOutline (frame w0) !! 0 = Some x ->
           outcome (image_step P bookData 0 c) w0 = Normal tt
           /\ completedSteps (frame (exec (image_step P bookData 0 c) w0))
              = completedSteps (frame w0) + 1).
Proof.
  split_and!; [vm_compute; reflexivity..|].
  apply (C6_failed_illustration_is_isolated Sample.provider_no_image Sample.reviewing
           Sample.project 0 (mkChapter "chap-0" "One" "About One" None None pending));
    vm_compute; reflexivity.
Defined.

(** C6 as stated fails: the second section has an illustration and an
    emptied text, so it is not skipped; its text is written again, its image
    call fails, and it ends [completed] with the illustration reference it
    had, not without one. *)
Lemma C6_counterexample :
  let P := Sample.provider_no_image in
  let w' := exec (startFullGeneration P) Sample.emptied in
  (app_bookData (app Sample.emptied) ≫= (fun b => bd_outline b !! 1))
  = Some Sample.emptied_section
  /\ skip Sample.emptied_section = false
  /\ generateImage P (illustration_answer P 1) = Throw "quota"
  /\ (app_bookData (app w') ≫= (fun b => bd_outline b !! 1))
     = Some (mkChapter "chap-1" "Two" "About Two" (Some "Intro. Body.")
               (Some Sample.picture_url) completed).
Proof. vm_compute. done. Qed.

(** ** C7: the failures of the outline synthesis *)

Lemma falsy_json_no_chapters (data : json) :
  falsy_json data = true -> chapters_array data = None.
Proof. by destruct data. Qed.

Lemma outline_data_throws JSON_parse strip_fences (P : Provider) :
  outline_fails JSON_parse strip_fences P
  <-> exists e, outline_data JSON_parse strip_fences P = Throw e.
Proof.
  unfold outline_fails, outline_data, getClient, parse_outline.
  destruct (truthy (apiKey P)); [|split; eauto].
  destruct (outline_answer P) as [answer|e]; [|split; eauto].
  destruct (String.eqb_spec (strip_fences (default "" answer)) "") as [Hempty|Hne].
  { split; [eauto|]. intros _. right. right. exists answer. split; [done|]. by left. }
  destruct (JSON_parse (strip_fences (default "" answer))) as [data|] eqn:Hparse.
  2:{ split; [eauto|]. intros _. right. right. exists answer. split; [done|].
      right. by left. }
  destruct (falsy_json data) eqn:Hfalsy.
  { split; [eauto|]. intros _. right. right. exists answer. split; [done|].
    right. right. exists data. split; [done|]. by apply falsy_json_no_chapters. }
  destruct (chapters_array data) as [items|] eqn:Hitems.
  - split.
    + intros [Hk|[[e He]|(a & Ha & Hcase)]]; [done | done |].
      injection Ha as <-. cbv zeta in Hcase.
      destruct Hcase as [?|[?|(d & Hd & Hn)]]; [done | congruence |].
      rewrite Hparse in Hd. injection Hd as <-. congruence.
    + by intros [? ?].
  - split; [eauto|]. intros _. right. right. exists answer. split; [done|].
    right. right. by exists data.
Qed.

Lemma outline_data_chapters JSON_parse strip_fences (P : Provider) data :
  outline_data JSON_parse strip_fences P = Normal data ->
  exists items, prop "chapters" data = Some (JArr items).
Proof.
  unfold outline_data, parse_outline.
  destruct (getClient P); [|done]. destruct (outline_answer P); [|done].
  destruct (String.eqb _ _); [done|]. destruct (JSON_parse _) as [d|]; [|done].
  destruct (falsy_json d); [done|]. unfold chapters_array.
  destruct (prop "chapters" d) as [[]|] eqn:Hp; try done.
  intros [= <-]. eauto.
Qed.

(** C7, as the code has it. Started on a topic, the outline synthesis fails
    when the credential is missing or the provider call fails, when the
    answer is empty or is not parseable, and when its list of sections is
    absent or is not a list. On every such failure the status goes to
    [GENERATING_OUTLINE] and back to [IDLE], the message is stored, nothing
    is published and the project there was stays as it was. In every other
    case, an empty list of sections included, a new project is built, one
    pending section per element, and the status ends [REVIEWING_OUTLINE]. *)
Theorem C7_outline_failure_returns_to_idle (JSON_parse : string -> option json)
    (strip_fences : string -> string) (P : Provider) (w : World) :
  cfg_topic (app_config (app w)) <> "" ->
  let run := startOutlineGeneration JSON_parse strip_fences P in
  let w' := exec run w in
  outcome run w = Normal tt
  /\ (outline_fails JSON_parse strip_fences P ->
      statuses (log w') = statuses (log w) ++ [GENERATING_OUTLINE; IDLE]
      /\ app_status (app w') = IDLE
      /\ (exists e, outline_data JSON_parse strip_fences P = Throw e
                    /\ app_error (app w') = Some (or_else e "Failed to generate outline."))
      /\ snapshots (log w') = snapshots (log w)
      /\ app_bookData (app w') = app_bookData (app w))
  /\ (~ outline_fails JSON_parse strip_fences P ->
      statuses (log w') = statuses (log w) ++ [GENERATING_OUTLINE; REVIEWING_OUTLINE]
      /\ app_status (app w') = REVIEWING_OUTLINE
      /\ app_error (app w') = None
      /\ exists data items,
           outline_data JSON_parse strip_fences P = Normal data
           /\ prop "chapters" data = Some (JArr items)
           /\ app_bookData (app w')
              = Some (outline_project (app_config (app w)) P data items)
           /\ snapshots (log w')
              = snapshots (log w)
                ++ [Some (outline_project (app_config (app w)) P data items)]
           /\ Forall (fun c => ch_status c = pending) (imap outline_chapter items)).
Proof.
  intros Htopic run w'. subst w' run.
  rewrite (outline_data_throws JSON_parse strip_fences P).
  apply String.eqb_neq in Htopic.
  unfold exec, outcome, startOutlineGeneration. run. rewrite Htopic.
  unfold generateBookOutline. run.
  destruct (outline_data JSON_parse strip_fences P) as [data|e] eqn:Hdata.
  - destruct (outline_data_chapters _ _ _ _ Hdata) as [items Hitems].
    rewrite Hitems. run. split_and!; [done | by intros [? ?] |].
    intros _. split_and!.
    + unfold statuses. rewrite !omap_app. simpl. by rewrite !app_nil_r, <- app_assoc.
    + done.
    + done.
    + exists data, items. split_and!; [done | done | done | |].
      * unfold snapshots. rewrite !omap_app. simpl. by rewrite !app_nil_r.
      * apply Forall_lookup_2. intros i c. rewrite list_lookup_imap.
        destruct (items !! i); [|done]. by intros [= <-].
  - run. destruct (includes "API Key" e); run.
    all: split_and!; [done | | intros Hn; exfalso; eauto].
    all: intros _; split_and!; [| done | eauto | | done].
    all: try (unfold statuses; rewrite !omap_app; simpl; by rewrite !app_nil_r, <- !app_assoc).
    all: unfold snapshots; rewrite !omap_app; simpl; by rewrite !app_nil_r.
Qed.

Lemma C7_witness :
  let JSON_parse := Sample.parse in
  let strip_fences := Sample.strip in
  let P := Sample.provider_without_key in
  let w := Sample.reviewing in
  cfg_topic (app_config (app w)) <> ""
  /\ let run := startOutlineGeneration JSON_parse strip_fences P in
     let w' := exec run w in
     outcome run w = Normal tt
     /\ (outline_fails JSON_parse strip_fences P ->
         statuses (log w') = statuses (log w) ++ [GENERATING_OUTLINE; IDLE]
         /\ app_status (app w') = IDLE
         /\ (exists e, outline_data JSON_parse strip_fences P = Throw e
                       /\ app_error (app w') = Some (or_else e "Failed to generate outline."))
         /\ snapshots (log w') = snapshots (log w)
         /\ app_bookData (app w') = app_bookData (app w))
     /\ (~ outline_fails JSON_parse strip_fences P ->
         statuses (log w') = statuses (log w) ++ [GENERATING_OUTLINE; REVIEWING_OUTLINE]
         /\ app_status (app w') = REVIEWING_OUTLINE
         /\ app_error (app w') = None
         /\ exists data items,
              outline_data JSON_parse strip_fences P = Normal data
              /\ prop "chapters" data = Some (JArr items)
              /\ app_bookData (app w')
                 = Some (outline_project (app_config (app w)) P data items)
              /\ snapshots (log w')
                 = snapshots (log w)
                   ++ [Some (outline_project (app_config (app w)) P data items)]
              /\ Forall (fun c => ch_status c = pending) (imap outline_chapter items)).
Proof.
  split.
  - vm_compute. discriminate.
  - apply (C7_outline_failure_returns_to_idle Sample.parse Sample.strip
             Sample.provider_without_key Sample.reviewing).
    vm_compute. discriminate.
Defined.

(** C7 as stated fails: the provider returns an empty list of sections, and
    the synthesis does not fail. The status ends [REVIEWING_OUTLINE], no
    error is stored, and the project of three sections that was there is
    replaced by one without any section. *)
Lemma C7_counterexample :
  let P := Sample.provider_empty_outline in
  let w' := exec (startOutlineGeneration Sample.parse Sample.strip P) Sample.reviewing in
  chapters_array <$> Sample.parse "none" = Some (Some [])
  /\ outline_answer P = Normal (Some "none")
  /\ (length <$> (bd_outline <$> app_bookData (app Sample.reviewing))) = Some 3
  /\ app_status (app w') = REVIEWING_OUTLINE
  /\ app_error (app w') = None
  /\ (bd_outline <$> app_bookData (app w')) = Some [].
Proof. vm_compute. done. Qed.

(** ** The pages of a split, in general *)

Module SliceFacts.
Import Pagination Slices.
Local Open Scope Q_scope.

Section Document.
Variables pdfWidth pdfHeight : Q.
Let C := contentHeight pdfHeight.
Hypothesis content_positive : 0 < C.

(** The loop runs as many rounds as it takes to use up the height. *)
Lemma split_pages_rounds (n : nat) : forall fuel i imgHeight heightLeft position pageAdded pdf,
  (n <= fuel)%nat ->
  rounds n heightLeft C ->
  split_pages pdfWidth pdfHeight fuel i imgHeight heightLeft position pageAdded pdf
  = Some (place_each pageAdded
            (slices n i (contentWidth pdfWidth) imgHeight position C) pdf).
Proof.
  induction n as [|n IH]; intros fuel i imgHeight hl pos pa pdf Hfuel [Hup Hlow].
  - simpl in Hup. destruct fuel; simpl.
    + destruct (Qle_bool hl 0) eqn:Hle; [done|].
      apply Qle_bool_iff in Hup. congruence.
    + destruct (Qle_bool hl 0) eqn:Hle; [done|].
      apply Qle_bool_iff in Hup. congruence.
  - destruct fuel as [|fuel]; [lia|].
    pose proof (Hlow n eq_refl) as Hn.
    assert (Hpos : 0 <= times n C).
    { clear -content_positive. induction n as [|k IHk]; cbn [times]; lra. }
    simpl. destruct (Qle_bool hl 0) eqn:Hle.
    { apply Qle_bool_iff in Hle. lra. }
    rewrite (IH fuel); [done | lia |].
    fold (contentHeight pdfHeight). fold C. split.
    + simpl in Hup. lra.
    + intros m ->. simpl in Hn. lra.
Qed.

Lemma times_nonneg (n : nat) : 0 <= times n C.
Proof. induction n as [|n IH]; cbn [times]; lra. Qed.

Lemma times_inject (n : nat) : times n C == inject_Z (Z.of_nat n) * C.
Proof.
  induction n as [|n IH].
  { cbn [times]. change (inject_Z (Z.of_nat 0)) with 0. lra. }
  rewrite Nat2Z.inj_succ, <- Z.add_1_r, inject_Z_plus. cbn [times]. rewrite IH.
  change (inject_Z 1) with 1. lra.
Qed.

(** For a positive height, that is ceil(h / C) rounds. *)
Lemma ceiling_rounds (h : Q) :
  0 < h -> rounds (Z.to_nat (Qceiling (h / C))) h C.
Proof.
  intros Hh.
  pose proof (Qle_ceiling (h / C)) as Hup.
  pose proof (Qceiling_lt (h / C)) as Hlow.
  assert (Hdiv : h / C * C == h) by (field; lra).
  assert (Hq : 0 < h / C).
  { apply Qlt_shift_div_l; [done | lra]. }
  assert (Hz : (0 < Qceiling (h / C))%Z).
  { apply Z.lt_nge. intros Hneg.
    assert (inject_Z (Qceiling (h / C)) <= 0) by (rewrite Zle_Qle in Hneg; exact Hneg).
    lra. }
  split.
  - rewrite times_inject, Z2Nat.id by lia.
    rewrite <- Hdiv at 1. apply Qmult_le_compat_r; lra.
  - intros m Hm. rewrite times_inject.
    assert (Hmz : Z.of_nat m = (Qceiling (h / C) - 1)%Z) by lia.
    rewrite Hmz. rewrite <- Hdiv at 2. by apply Qmult_lt_compat_r.
Qed.

Lemma tiles_from (from from' upto : Q) bands :
  from == from' -> tiles from upto bands -> tiles from' upto bands.
Proof.
  intros Heq. destruct bands as [|[top bottom] rest]; simpl.
  - intros <-. by symmetry.
  - intros (Htop & Hlt & Hrest). split_and!; [|done..]. by rewrite Htop.
Qed.

(** The bands of the slices lie end to end, down to the foot of the
    image. *)
Lemma slices_tile (n : nat) : forall i imgHeight position,
  position <= 0 ->
  (0 < n)%nat ->
  rounds n (imgHeight + position) C ->
  tiles (- position) imgHeight
    (map (band pdfHeight) (slices n i (contentWidth pdfWidth) imgHeight position C)).
Proof.
  induction n as [|n IH]; intros i H pos Hpos Hn [Hup Hlow]; [lia|].
  pose proof (Hlow n eq_refl) as Hbelow.
  assert (Htop : band_top (mkPlacement i margin (margin + pos) (contentWidth pdfWidth) H)
                 == - pos).
  { unfold band_top. simpl. rewrite Q.max_r; lra. }
  assert (HC : pdfHeight - margin - (margin + pos) == C - pos).
  { unfold C, contentHeight. lra. }
  simpl map. unfold band at 1. simpl tiles. destruct n as [|n].
  - simpl in Hup, Hbelow.
    assert (Hbottom : band_bottom pdfHeight
                        (mkPlacement i margin (margin + pos) (contentWidth pdfWidth) H) == H).
    { unfold band_bottom. simpl. rewrite HC. rewrite Q.min_l; lra. }
    split_and!; [done | rewrite Htop, Hbottom; lra | by simpl].
  - pose proof (times_nonneg n) as Hnn. simpl in Hup, Hbelow.
    assert (Hbottom : band_bottom pdfHeight
                        (mkPlacement i margin (margin + pos) (contentWidth pdfWidth) H)
                      == C - pos).
    { unfold band_bottom. simpl. rewrite HC. rewrite Q.min_r; lra. }
    split_and!; [done | rewrite Htop, Hbottom; lra |].
    apply (tiles_from (- (pos - C))); [rewrite Hbottom; lra|].
    apply IH; [lra | lia |]. split.
    + simpl. lra.
    + intros m [= <-]. lra.
Qed.

(** The pages a split adds to the document. *)
Lemma place_each_pages (ps : list Placement) : forall pageAdded pdf,
  length (pages (place_each pageAdded ps pdf)) =
  (length (pages pdf) + length ps
   - (if pageAdded then 0 else match ps with [] => 0 | _ => 1 end))%nat.
Proof.
  induction ps as [|p ps IH]; intros pa pdf; simpl place_each.
  - destruct pa; simpl; lia.
  - rewrite IH. destruct pa; unfold pages, addImage, addPage; simpl;
      rewrite ?length_app; simpl; lia.
Qed.

(** What the code does with one rendered section, in full. Up to the page
    height it gets one page, and the image lies whole between the margins
    when it is no higher than the content height. Above the page height it
    is split in ceil(H / C) pages, one placement each, whose bands between
    the margins lie end to end from the top of the image to its foot,
    without an empty last page. The pages themselves show more than these
    bands ([LayoutFacts.X23_what_the_pages_show]). *)
Lemma add_section_pages (fuel i : nat) (c : Canvas) (pdf : Pdf) :
  let H := scaled_height pdfWidth c in
  let pdf0 := if (0 <? i)%nat then addPage pdf else pdf in
  let n := Z.to_nat (Qceiling (H / C)) in
  (H <= pdfHeight ->
   let p := mkPlacement i margin margin (contentWidth pdfWidth) H in
   add_section pdfWidth pdfHeight fuel i c pdf = Some (addImage p pdf0)
   /\ (0 < H -> H <= C -> tiles 0 H [band pdfHeight p]))
  /\ (pdfHeight < H -> (n <= fuel)%nat ->
      let ps := slices n i (contentWidth pdfWidth) H 0 C in
      add_section pdfWidth pdfHeight fuel i c pdf = Some (place_each false ps pdf0)
      /\ length ps = n
      /\ length (pages (place_each false ps pdf0)) = (length (pages pdf0) + n - 1)%nat
      /\ tiles 0 H (map (band pdfHeight) ps)).
Proof.
  intros H pdf0 n. split.
  - intros Hle. unfold add_section. fold H.
    apply Qle_bool_iff in Hle. rewrite Hle. split; [done|].
    intros Hpos HC. simpl. unfold band_top, band_bottom. simpl.
    assert (HCeq : pdfHeight - margin - margin == C) by (unfold C, contentHeight; lra).
    rewrite HCeq. rewrite Q.max_l, Q.min_l by lra. split_and!; lra.
  - intros Hgt Hfuel ps.
    assert (Hpos : 0 < H).
    { unfold C, contentHeight, margin in content_positive. lra. }
    pose proof (ceiling_rounds H Hpos) as Hrounds. fold n in Hrounds.
    assert (Hn : (0 < n)%nat).
    { destruct n; [|lia]. destruct Hrounds as [Hup _]. simpl in Hup. lra. }
    assert (Hlen : length ps = n).
    { unfold ps. generalize 0. clear. induction n; intros; simpl; auto. }
    split_and!.
    + unfold add_section. fold H.
      destruct (Qle_bool H pdfHeight) eqn:Hle.
      { apply Qle_bool_iff in Hle. lra. }
      by apply split_pages_rounds.
    + done.
    + rewrite place_each_pages, Hlen. destruct ps; simpl in Hlen; lia.
    + apply (tiles_from (- 0)); [lra|].
      apply slices_tile; [lra | done |].
      destruct Hrounds as [Hup Hlow]. split; [lra|]. intros m Hm. specialize (Hlow m Hm). lra.
Qed.
End Document.
End SliceFacts.

(** ** C8: the pages of the PDF *)

Module PaginationFacts.
Import Pagination.
Local Open Scope Q_scope.

(** C8, on the code. The chapter of the sample scales to a height H with
    C < H <= pdfHeight, C being the height between the margins, so that
    ceil(H / C) = 2. The split is guarded by [imgHeight <= pdfHeight], not
    by C: the chapter gets one page, with the whole image placed at the top
    margin. What lies between the margins of that page is the band from 0 to
    C, not the whole image, and the image runs over the bottom edge of the
    page. *)
Theorem C8_page_taller_than_content_is_not_split :
  let pdfWidth := PageSample.a4_width in
  let pdfHeight := PageSample.a4_height in
  let C := contentHeight pdfHeight in
  let H := scaled_height pdfWidth PageSample.chapter in
  (C < H /\ H <= pdfHeight /\ Qceiling (H / C) = 2%Z)
  /\ match handleDownloadPdf pdfWidth pdfHeight 100
             [PageSample.cover; PageSample.chapter] with
     | Some pdf =>
         length (pages pdf) = 2%nat
         /\ match pages_of 1 pdf with
            | [[p]] =>
                pos_y p == margin /\ height p == H
                /\ band_top p == 0 /\ band_bottom pdfHeight p == C
                /\ pdfHeight < pos_y p + height p
            | _ => False
            end
     | None => False
     end.
Proof. vm_compute. split_and!; done. Qed.

(** A chapter taller than the page is split, into ceil(H / C) pages. *)
Example long_chapter_is_split :
  let pdfWidth := PageSample.a4_width in
  let pdfHeight := PageSample.a4_height in
  let C := contentHeight pdfHeight in
  let H := scaled_height pdfWidth PageSample.long_chapter in
  Qceiling (H / C) = 3%Z
  /\ match handleDownloadPdf pdfWidth pdfHeight 100
             [PageSample.cover; PageSample.long_chapter] with
     | Some pdf => length (pages pdf) = 4%nat /\ length (pages_of 1 pdf) = 3%nat
     | None => False
     end.
Proof. vm_compute. done. Qed.
End PaginationFacts.

(** ** C9: no section ever has status [error] *)

Lemma snapshots_app l1 l2 : snapshots (l1 ++ l2) = snapshots l1 ++ snapshots l2.
Proof. apply omap_app. Qed.

Lemma no_error_insert (o : list Chapter) i x :
  no_error o -> ch_status x <> error -> no_error (<[i := x]> o).
Proof. intros Ho Hx. by apply Forall_insert. Qed.

Lemma no_error_shown i (o : list Chapter) b x :
  no_error o -> ch_status x <> error -> no_error_book (shown i o b x).
Proof. intros Ho Hx. destruct b; [|done]. simpl. by apply no_error_insert. Qed.

Lemma final_chapter_no_error P i c :
  ch_status c <> error -> ch_status (final_chapter P i c) <> error.
Proof. intros Hc. unfold final_chapter. by destruct (skip c). Qed.

Lemma no_error_alter_final P i (o : list Chapter) :
  no_error o -> no_error (alter (final_chapter P i) i o).
Proof.
  intros Ho. apply Forall_lookup_2. intros j c.
  destruct (decide (i = j)) as [<-|Hne].
  - rewrite list_lookup_alter_eq. destruct (o !! i) as [c0|] eqn:Hc0; [|done].
    intros [= <-]. apply final_chapter_no_error.
    by eapply (Forall_lookup_1 _ _ _ _ Ho).
  - rewrite list_lookup_alter_ne by done. by apply (Forall_lookup_1 _ _ _ _ Ho).
Qed.

Lemma finish_no_error P n : forall from (o : list Chapter),
  no_error o -> no_error (finish P from n o).
Proof.
  induction n as [|n IH]; intros from o Ho; simpl; [done|].
  by apply IH, no_error_alter_final.
Qed.

Lemma round_events_no_error P bookData i c o b steps total :
  no_error o ->
  Forall no_error_book (snapshots (round_events P bookData i c o b steps total)).
Proof.
  intros Ho. unfold round_events. rewrite !snapshots_app, !Forall_app. split_and!.
  - simpl. constructor; [by apply no_error_shown | done].
  - induction (running "" (yields (chapter_generator P i))) as [|t ts IH]; [done|].
    simpl. constructor; [by apply no_error_shown | done].
  - by destruct (failure _).
  - simpl. constructor; [by apply no_error_shown | done].
  - by destruct (generateImage _ _).
  - simpl. constructor; [|done]. apply no_error_shown; [done|].
    unfold final_chapter. destruct (skip c) eqn:Hs; [|done].
    apply skip_fully_done in Hs as [-> _]. done.
Qed.

Lemma loop_events_no_error P bookData n : forall from o b steps total,
  no_error o ->
  Forall no_error_book (snapshots (loop_events P bookData from n o b steps total)).
Proof.
  induction n as [|n IH]; intros from o b steps total Ho; simpl; [done|].
  rewrite snapshots_app, Forall_app. split.
  - destruct (o !! from) as [c|]; [|done]. destruct (skip c); [done|].
    by apply round_events_no_error.
  - by apply IH, no_error_alter_final.
Qed.

Lemma run_events_no_error P bookData :
  no_error (bd_outline bookData) ->
  Forall no_error_book (snapshots (run_events P bookData)).
Proof.
  intros Ho. unfold run_events. rewrite !snapshots_app, !Forall_app. split_and!.
  - done.
  - unfold cover_events. destruct (truthy _); [done|].
    destruct (generateImage _ _); simpl; [|done]. by constructor.
  - by apply loop_events_no_error.
  - done.
Qed.

(** Phase C keeps it so, in every snapshot it publishes. *)
Lemma startFullGeneration_no_error P w :
  no_error_world w -> no_error_world (exec (startFullGeneration P) w).
Proof.
  intros (Hb & Ho & Hl).
  destruct (app_bookData (app w)) as [bookData|] eqn:Hbook.
  - destruct (run_summary P w bookData Hbook) as
      (_ & _ & _ & _ & _ & Hbook' & _ & _ & Hout' & Hlog').
    cbv zeta in *. unfold no_error_world. rewrite Hbook', Hout', Hlog'. split_and!.
    + simpl. by apply finish_no_error.
    + by apply finish_no_error.
    + rewrite snapshots_app, Forall_app. split; [done|]. by apply run_events_no_error.
  - unfold exec. rewrite startFullGeneration_without_project by done.
    simpl. unfold no_error_world. by rewrite Hbook.
Qed.

(** A handler that stores a project without [error] keeps it so. *)
Lemma store_no_error (f : BookData -> BookData) w :
  (forall bd, no_error (bd_outline bd) -> no_error (bd_outline (f bd))) ->
  no_error_world w ->
  no_error_world (exec (with_bookData (fun bd => setBookData (fun _ => Some (f bd)))) w).
Proof.
  intros Hf (Hb & Ho & Hl). unfold exec, with_bookData. run.
  destruct (app_bookData (app w)) as [bd|] eqn:Hbook; run.
  - unfold no_error_world. simpl. rewrite snapshots_app, Forall_app.
    split_and!; [by apply Hf | done | done | simpl; constructor; [by apply Hf | done]].
  - unfold no_error_world. simpl. by rewrite Hbook.
Qed.

Lemma setStatus_no_error s w :
  no_error_world w -> no_error_world (exec (setStatus s) w).
Proof.
  intros (Hb & Ho & Hl). unfold exec. run. unfold no_error_world. simpl.
  rewrite snapshots_app, app_nil_r. done.
Qed.

Lemma outline_chapters_no_error (items : list json) :
  no_error (imap outline_chapter items).
Proof.
  apply Forall_lookup_2. intros i c. rewrite list_lookup_imap.
  destruct (items !! i); [|done]. by intros [= <-].
Qed.

(** Phase A keeps it so: a failure changes no project, a success builds
    pending sections. *)
Lemma startOutlineGeneration_no_error JSON_parse strip_fences P w :
  no_error_world w ->
  no_error_world (exec (startOutlineGeneration JSON_parse strip_fences P) w).
Proof.
  intros (Hb & Ho & Hl). unfold exec, startOutlineGeneration. run.
  destruct (String.eqb _ _); run; [done|].
  unfold generateBookOutline. run.
  destruct (outline_data JSON_parse strip_fences P) as [data|e] eqn:Hdata.
  - destruct (outline_data_chapters _ _ _ _ Hdata) as [items ->]. run.
    unfold no_error_world. simpl. rewrite !snapshots_app, !Forall_app. simpl.
    split_and!; try done; try apply outline_chapters_no_error.
    constructor; [apply outline_chapters_no_error | done].
  - run. destruct (includes "API Key" e); run.
    all: unfold no_error_world; simpl; rewrite !snapshots_app, !Forall_app; simpl.
    all: by split_and!.
Qed.

Lemma perform_no_error JSON_parse strip_fences a w :
  no_error_world w -> no_error_world (exec (perform JSON_parse strip_fences a) w).
Proof.
  intros Hw. destruct a; simpl.
  - (* ChangeConfig *) done.
  - (* StartOutline *) by apply startOutlineGeneration_no_error.
  - (* UpdateChapter *)
    apply (store_no_error (fun bd => with_outline
             (alter (set_field f value) index (bd_outline bd)) bd)); [|done].
    intros bd Hbd. simpl. apply Forall_alter; [done|]. intros c Hc. by destruct f.
  - (* AddChapter *)
    apply (store_no_error (fun bd => with_outline (bd_outline bd ++ [_]) bd)); [|done].
    intros bd Hbd. simpl. apply Forall_app. split; [done|]. by constructor.
  - (* RemoveChapter *)
    apply (store_no_error (fun bd => with_outline (delete index (bd_outline bd)) bd));
      [|done].
    intros bd Hbd. simpl. by apply Forall_delete.
  - (* ChangeTitle *)
    apply (store_no_error (fun bd => with_config _ bd)); [|done]. by intros bd Hbd.
  - (* StartFullGeneration *) by apply startFullGeneration_no_error.
  - (* ExitReader *) by apply setStatus_no_error.
  - (* TryAgain *) by apply setStatus_no_error.
  - (* UpdateBookContent *)
    apply (store_no_error (fun bd => with_outline (map _ (bd_outline bd)) bd)); [|done].
    intros bd Hbd. simpl. apply Forall_fmap. eapply Forall_impl; [exact Hbd|].
    intros c Hc. simpl. by destruct (String.eqb _ _).
  - (* UpdateBookImage *)
    apply (store_no_error (fun bd => with_outline (map _ (bd_outline bd)) bd)); [|done].
    intros bd Hbd. simpl. apply Forall_fmap. eapply Forall_impl; [exact Hbd|].
    intros c Hc. simpl. by destruct (String.eqb _ _).
  - (* Reset *)
    destruct Hw as (Hb & Ho & Hl). unfold exec, reset, handleConfigChange. run.
    unfold no_error_world. simpl. rewrite !snapshots_app, !Forall_app. simpl.
    split_and!; try done. by constructor.
Qed.

(** C9. In every state the interface can be brought to, by outline
    syntheses, review and reader edits and full generations in any order
    and with any provider behaviour, no section has status [error]: not in
    the project, not in the working copy of a run, and not in any snapshot
    that was ever published, the ones in the middle of a run and on its
    failure paths included. *)
Theorem C9_error_status_is_unreachable (JSON_parse : string -> option json)
    (strip_fences : string -> string) (w : World) :
  reachable JSON_parse strip_fences w ->
  no_error_book (app_bookData (app w))
  /\ no_error (newOutline (frame w))
  /\ Forall no_error_book (snapshots (log w)).
Proof.
  induction 1 as [|a w Hw IH].
  - unfold initial_world. simpl. split_and!; [done | constructor | constructor].
  - exact (perform_no_error JSON_parse strip_fences a w IH).
Qed.

Lemma reachable_perform_all JSON_parse strip_fences (actions : list Action) : forall w,
  reachable JSON_parse strip_fences w ->
  reachable JSON_parse strip_fences (perform_all JSON_parse strip_fences actions w).
Proof.
  induction actions as [|a actions IH]; intros w Hw; [done|].
  apply IH. by constructor.
Qed.

Lemma C9_witness :
  let w := perform_all Sample.parse Sample.strip
             [ChangeConfig Sample.config; StartOutline Sample.provider;
              AddChapter 1700000001%Z; UpdateChapter 3 field_title "Four";
              StartFullGeneration Sample.provider_broken_stream;
              UpdateBookContent "chap-1" ""; ExitReader;
              StartFullGeneration Sample.provider_without_key]
             initial_world in
  reachable Sample.parse Sample.strip w
  /\ no_error_book (app_bookData (app w))
  /\ no_error (newOutline (frame w))
  /\ Forall no_error_book (snapshots (log w)).
Proof.
  intros w.
  assert (Hreach : reachable Sample.parse Sample.strip w).
  { apply reachable_perform_all, reachable_initial. }
  split; [exact Hreach|].
  exact (C9_error_status_is_unreachable Sample.parse Sample.strip w Hreach).
Defined.

(** ** C10: a done section without illustration, on resume *)

(** C10. A section with status [completed] and a non-empty content but no
    illustration reference is not skipped. The run opens a new text stream
    for it and only then requests its illustration; the first fragment is
    shown alone, not appended to the old content, and the section ends with
    the text of the new stream, which nothing of the old content enters. *)
Theorem C10_done_section_without_illustration_is_rewritten (P : Provider) (w : World)
    (bookData : BookData) (i : nat) (c : Chapter) (old : string) :
  app_bookData (app w) = Some bookData ->
  bd_outline bookData !! i = Some c ->
  ch_status c = completed ->
  ch_content c = Some old ->
  old <> "" ->
  ch_imageUrl c = None ->
  let w' := exec (startFullGeneration P) w in
  let g := chapter_generator P i in
  skip c = false
  /\ (exists before after,
        calls (log w') = calls (log w) ++ before
          ++ [CallChapterStream c (cfg_title (bd_config bookData)) (bd_config bookData)
                (prev_context (bd_outline bookData) i);
              CallIllustration (ch_title c) (cfg_style (bd_config bookData))
                (cfg_format (bd_config bookData))]
          ++ after)
  /\ (forall first rest, yields g = first :: rest ->
        exists b c', Published (Some b) ∈ drop (length (log w)) (log w')
                     /\ bd_outline b !! i = Some c'
                     /\ ch_status c' = generating_text
                     /\ ch_content c' = Some first)
  /\ (exists c', app_bookData (app w') ≫= (fun b => bd_outline b !! i) = Some c'
                 /\ ch_content c' = Some (streamed_text g)
                 /\ ch_status c' = completed).
Proof.
  intros Hb Hc Hst Hold Hne Himg w' g.
  assert (Hs : skip c = false).
  { unfold skip. rewrite Himg. simpl. apply andb_false_r. }
  split_and!; [done | | |].
  - destruct (run_calls_of_section P w bookData i c Hb Hc) as (before & after & Hcalls).
    exists before, after. unfold w'. rewrite Hcalls. unfold round_calls. by rewrite Hs.
  - intros first rest Hy.
    destruct (run_summary P w bookData Hb) as (_ & _ & _ & _ & _ & _ & _ & _ & _ & Hlog).
    cbv zeta in Hlog. fold w' in Hlog. rewrite Hlog, drop_app_length.
    pose proof (lookup_lt_Some _ _ _ Hc) as Hi.
    destruct (loop_events_round P bookData i c (length (bd_outline bookData)) 0
                (bd_outline bookData) (Some (cover_book P bookData)) 1
                (1 + length (bd_outline bookData) * 2)) as
      (before & after & o' & b' & steps' & Hloop & Hlen & Hsome); [lia | done | done |].
    destruct Hsome as [bd' ->]; [done|].
    exists (with_outline (<[i := writing_chapter c first]> o') bd'), (writing_chapter c first).
    split_and!; [| simpl; apply list_lookup_insert_eq; lia | done | done].
    unfold run_events. rewrite Hloop. unfold round_events. fold g. rewrite Hy.
    rewrite !elem_of_app. right. right. left. right. left. right. left.
    simpl. apply list_elem_of_here.
  - exists (final_chapter P i c). split; [by apply (run_final_section P w bookData)|].
    unfold final_chapter. by rewrite Hs.
Qed.

Lemma C10_witness :
  let P := Sample.provider_rewriting in
  let w := Sample.finished_without_first_image in
  let bookData := with_outline (Sample.unillustrated_section :: tail Sample.finished_outline)
                    Sample.finished_project in
  let c := Sample.unillustrated_section in
  app_bookData (app w) = Some bookData
  /\ bd_outline bookData !! 0 = Some c
  /\ ch_status c = completed
  /\ ch_content c = Some "Intro. Body."
  /\ "Intro. Body." <> ""
  /\ ch_imageUrl c = None
  /\ let w' := exec (startFullGeneration P) w in
     let g := chapter_generator P 0 in
     skip c = false
     /\ (exists before after,
           calls (log w') = calls (log w) ++ before
             ++ [CallChapterStream c (cfg_title (bd_config bookData)) (bd_config bookData)
                   (prev_context (bd_outline bookData) 0);
                 CallIllustration (ch_title c) (cfg_style (bd_config bookData))
                   (cfg_format (bd_config bookData))]
             ++ after)
     /\ (forall first rest, yields g = first :: rest ->
           exists b c', Published (Some b) ∈ drop (length (log w)) (log w')
                        /\ bd_outline b !! 0 = Some c'
                        /\ ch_status c' = generating_text
                        /\ ch_content c' = Some first)
     /\ (exists c', app_bookData (app w') ≫= (fun b => bd_outline b !! 0) = Some c'
                    /\ ch_content c' = Some (streamed_text g)
                    /\ ch_status c' = completed).
Proof.
  split_and!; [vm_compute; reflexivity | vm_compute; reflexivity | reflexivity
              | reflexivity | discriminate | reflexivity |].
  apply (C10_done_section_without_illustration_is_rewritten Sample.provider_rewriting
           Sample.finished_without_first_image _ 0 Sample.unillustrated_section
           "Intro. Body."); [vm_compute; reflexivity | reflexivity..| discriminate | reflexivity].
Defined.

(** On the sample: the text "Intro. Body." of the first section is replaced
    by the text of the new stream, and only the first section is touched. *)
Example resume_rewrites_the_text :
  let w' := exec (startFullGeneration Sample.provider_rewriting)
              Sample.finished_without_first_image in
  (map ch_content <$> (bd_outline <$> app_bookData (app w')))
  = Some [Some "Another text."; Some "Intro. Body."; Some "Intro. Body."]
  /\ section_contents 0 (run_events Sample.provider_rewriting
       (with_outline (Sample.unillustrated_section :: tail Sample.finished_outline)
          Sample.finished_project))
     = ["Intro. Body."; "Another text."; "Another text."; "Another text."].
Proof. vm_compute. done. Qed.

(** * Further properties of the code *)

(** ** The outline synthesis, evaluated *)

Lemma startOutlineGeneration_success JSON_parse strip_fences P w data items :
  cfg_topic (app_config (app w)) <> "" ->
  outline_data JSON_parse strip_fences P = Normal data ->
  prop "chapters" data = Some (JArr items) ->
  startOutlineGeneration JSON_parse strip_fences P w =
  (Normal tt,
   mkWorld
     (mkApp REVIEWING_OUTLINE (app_config (app w))
        (Some (outline_project (app_config (app w)) P data items)) None
        (app_isApiKeyModalOpen (app w)) (app_generationProgress (app w)))
     (frame w)
     (log w ++ [StatusSet GENERATING_OUTLINE; Called (CallOutline (app_config (app w)));
                Published (Some (outline_project (app_config (app w)) P data items));
                StatusSet REVIEWING_OUTLINE])).
Proof.
  intros Htopic Hdata Hitems. apply String.eqb_neq in Htopic.
  unfold startOutlineGeneration. run. rewrite Htopic.
  unfold generateBookOutline. run. rewrite Hdata, Hitems. run.
  by rewrite <- !app_assoc.
Qed.

Lemma startOutlineGeneration_failure JSON_parse strip_fences P w e :
  cfg_topic (app_config (app w)) <> "" ->
  outline_data JSON_parse strip_fences P = Throw e ->
  startOutlineGeneration JSON_parse strip_fences P w =
  (Normal tt,
   mkWorld
     (mkApp IDLE (app_config (app w)) (app_bookData (app w))
        (Some (or_else e "Failed to generate outline."))
        (includes "API Key" e || app_isApiKeyModalOpen (app w))
        (app_generationProgress (app w)))
     (frame w)
     (log w ++ [StatusSet GENERATING_OUTLINE; Called (CallOutline (app_config (app w)));
                StatusSet IDLE])).
Proof.
  intros Htopic Hdata. apply String.eqb_neq in Htopic.
  unfold startOutlineGeneration. run. rewrite Htopic.
  unfold generateBookOutline. run. rewrite Hdata. run.
  destruct (includes "API Key" e); run; by rewrite <- !app_assoc.
Qed.

(** ** X1: the project an outline is turned into *)

Lemma or_else_nonempty (a b : string) : b <> "" -> or_else a b <> "".
Proof. unfold or_else. by destruct (String.eqb_spec a ""). Qed.

Lemma or_else_l (a b : string) : a <> "" -> or_else a b = a.
Proof. unfold or_else. by destruct (String.eqb_spec a ""). Qed.

Lemma or_else_empty (b : string) : or_else "" b = b.
Proof. reflexivity. Qed.

(** X1. When the outline synthesis succeeds on a non-empty topic, the new
    project has one section per element the provider returned, in the same
    order and however many the configuration asked for, each pending, with
    the title and description of its element; it has no cover; its
    configuration is the one of the form but for the title, which is the
    first non-empty one of the provider's title, the title of the form and
    the topic, so it is never empty. *)
Theorem X1_outline_project_shape (JSON_parse : string -> option json)
    (strip_fences : string -> string) (P : Provider) (w : World)
    (data : json) (items : list json) :
  cfg_topic (app_config (app w)) <> "" ->
  outline_data JSON_parse strip_fences P = Normal data ->
  prop "chapters" data = Some (JArr items) ->
  let config := app_config (app w) in
  exists bd,
    app_bookData (app (exec (startOutlineGeneration JSON_parse strip_fences P) w)) = Some bd
    /\ length (bd_outline bd) = length items
    /\ (forall i item, items !! i = Some item ->
          exists c, bd_outline bd !! i = Some c
            /\ ch_title c = default "" (str_prop "title" item)
            /\ ch_description c = default "" (str_prop "description" item)
            /\ ch_status c = pending)
    /\ bd_coverImage bd = None
    /\ with_cfg_title (cfg_title config) (bd_config bd) = config
    /\ cfg_title (bd_config bd) <> ""
    /\ (forall t, str_prop "title" data = Some t -> t <> "" -> cfg_title (bd_config bd) = t)
    /\ (default "" (str_prop "title" data) = "" -> cfg_title config <> "" ->
        cfg_title (bd_config bd) = cfg_title config)
    /\ (default "" (str_prop "title" data) = "" -> cfg_title config = "" ->
        cfg_title (bd_config bd) = cfg_topic config).
Proof.
  intros Htopic Hdata Hitems config. unfold exec.
  rewrite (startOutlineGeneration_success _ _ _ _ data items) by done.
  eexists. split; [reflexivity|].
  unfold outline_project. cbn [bd_outline bd_config bd_coverImage]. fold config. split_and!.
  - apply length_imap.
  - intros i item Hi. rewrite list_lookup_imap, Hi. simpl. by eexists.
  - done.
  - by destruct config.
  - unfold with_cfg_title. cbn [cfg_title]. by apply or_else_nonempty.
  - intros t -> Ht. unfold with_cfg_title. cbn [cfg_title default]. unfold id.
    rewrite (or_else_l t) by done. by rewrite or_else_l.
  - intros -> Hc. unfold with_cfg_title. cbn [cfg_title].
    rewrite or_else_empty. by rewrite or_else_l.
  - intros -> ->. unfold with_cfg_title. cbn [cfg_title]. by rewrite !or_else_empty.
Qed.

Lemma X1_witness :
  let JSON_parse := Sample.parse in
  let strip_fences := Sample.strip in
  let P := Sample.provider in
  let w := Fixture.configured in
  let data := Fixture.three_sections in
  let items := Fixture.three_items in
  cfg_topic (app_config (app w)) <> ""
  /\ outline_data JSON_parse strip_fences P = Normal data
  /\ prop "chapters" data = Some (JArr items)
  /\ let config := app_config (app w) in
     exists bd,
       app_bookData (app (exec (startOutlineGeneration JSON_parse strip_fences P) w)) = Some bd
       /\ length (bd_outline bd) = length items
       /\ (forall i item, items !! i = Some item ->
             exists c, bd_outline bd !! i = Some c
               /\ ch_title c = default "" (str_prop "title" item)
               /\ ch_description c = default "" (str_prop "description" item)
               /\ ch_status c = pending)
       /\ bd_coverImage bd = None
       /\ with_cfg_title (cfg_title config) (bd_config bd) = config
       /\ cfg_title (bd_config bd) <> ""
       /\ (forall t, str_prop "title" data = Some t -> t <> "" -> cfg_title (bd_config bd) = t)
       /\ (default "" (str_prop "title" data) = "" -> cfg_title config <> "" ->
           cfg_title (bd_config bd) = cfg_title config)
       /\ (default "" (str_prop "title" data) = "" -> cfg_title config = "" ->
           cfg_title (bd_config bd) = cfg_topic config).
Proof.
  split_and!; [vm_compute; discriminate | vm_compute; reflexivity | vm_compute; reflexivity |].
  apply (X1_outline_project_shape Sample.parse Sample.strip Sample.provider
           Fixture.configured Fixture.three_sections Fixture.three_items);
    [vm_compute; discriminate | vm_compute; reflexivity | vm_compute; reflexivity].
Defined.

(** ** X2: the identifiers of the sections *)

Lemma outline_chapter_id (i : nat) (item : json) :
  prop "id" item = None -> ch_id (outline_chapter i item) = "chap-" +:+ pretty i.
Proof. intros Hid. unfold outline_chapter, str_prop. by rewrite Hid. Qed.

(** X2. When no element of the returned outline brings an [id] of its own,
    the section at position [i] gets the identifier "chap-i", and the
    identifiers of the new project are pairwise distinct. *)
Theorem X2_outline_identifiers_are_distinct (JSON_parse : string -> option json)
    (strip_fences : string -> string) (P : Provider) (w : World)
    (data : json) (items : list json) :
  cfg_topic (app_config (app w)) <> "" ->
  outline_data JSON_parse strip_fences P = Normal data ->
  prop "chapters" data = Some (JArr items) ->
  Forall (fun item => prop "id" item = None) items ->
  exists bd,
    app_bookData (app (exec (startOutlineGeneration JSON_parse strip_fences P) w)) = Some bd
    /\ (forall i c, bd_outline bd !! i = Some c -> ch_id c = "chap-" +:+ pretty i)
    /\ NoDup (map ch_id (bd_outline bd)).
Proof.
  intros Htopic Hdata Hitems Hids. unfold exec.
  rewrite (startOutlineGeneration_success _ _ _ _ data items) by done.
  eexists. split; [reflexivity|].
  unfold outline_project. cbn [bd_outline].
  assert (Hid : forall i c, imap outline_chapter items !! i = Some c ->
                            ch_id c = "chap-" +:+ pretty i).
  { intros i c. rewrite list_lookup_imap.
    destruct (items !! i) as [item|] eqn:Hi; [|done]. intros [= <-].
    apply outline_chapter_id. by apply (Forall_lookup_1 _ _ _ _ Hids Hi). }
  split; [exact Hid|].
  apply NoDup_alt. intros i j x Hi Hj.
  rewrite list_lookup_fmap in Hi, Hj.
  destruct (imap outline_chapter items !! i) as [ci|] eqn:Hci; [|done].
  destruct (imap outline_chapter items !! j) as [cj|] eqn:Hcj; [|done].
  simpl in Hi, Hj. injection Hi as <-. injection Hj as Hj.
  rewrite (Hid _ _ Hci), (Hid _ _ Hcj) in Hj.
  apply (inj (String.append "chap-")) in Hj. by apply (inj pretty) in Hj.
Qed.

Lemma X2_witness :
  let JSON_parse := Sample.parse in
  let strip_fences := Sample.strip in
  let P := Sample.provider in
  let w := Fixture.configured in
  let data := Fixture.three_sections in
  let items := Fixture.three_items in
  cfg_topic (app_config (app w)) <> ""
  /\ outline_data JSON_parse strip_fences P = Normal data
  /\ prop "chapters" data = Some (JArr items)
  /\ Forall (fun item => prop "id" item = None) items
  /\ exists bd,
       app_bookData (app (exec (startOutlineGeneration JSON_parse strip_fences P) w)) = Some bd
       /\ (forall i c, bd_outline bd !! i = Some c -> ch_id c = "chap-" +:+ pretty i)
       /\ NoDup (map ch_id (bd_outline bd)).
Proof.
  assert (Hids : Forall (fun item => prop "id" item = None) Fixture.three_items).
  { repeat constructor. }
  split_and!; [vm_compute; discriminate | vm_compute; reflexivity | vm_compute; reflexivity
              | exact Hids |].
  apply (X2_outline_identifiers_are_distinct Sample.parse Sample.strip Sample.provider
           Fixture.configured Fixture.three_sections Fixture.three_items);
    [vm_compute; discriminate | vm_compute; reflexivity | vm_compute; reflexivity | exact Hids].
Defined.

(** ** X3: an empty topic *)

(** X3. Started on an empty topic, the outline synthesis does nothing: it
    ends normally and leaves the state, the project and the log as they
    were, so no provider call is made, whatever the provider would answer. *)
Theorem X3_empty_topic_does_nothing (JSON_parse : string -> option json)
    (strip_fences : string -> string) (P : Provider) (w : World) :
  cfg_topic (app_config (app w)) = "" ->
  startOutlineGeneration JSON_parse strip_fences P w = (Normal tt, w).
Proof. intros Htopic. unfold startOutlineGeneration. run. by rewrite Htopic. Qed.

Lemma X3_witness :
  cfg_topic (app_config (app initial_world)) = ""
  /\ startOutlineGeneration Sample.parse Sample.strip Sample.provider initial_world
     = (Normal tt, initial_world).
Proof.
  split; [reflexivity|].
  apply (X3_empty_topic_does_nothing Sample.parse Sample.strip Sample.provider initial_world).
  reflexivity.
Defined.

(** ** X4: the outline without a credential *)

(** X4. Without a stored credential, the outline synthesis on a non-empty
    topic records its one call, stores the missing-credential message,
    opens the credential dialog and returns to [IDLE]; the project and the
    configuration stay as they were. *)
Theorem X4_outline_without_credential_opens_dialog (JSON_parse : string -> option json)
    (strip_fences : string -> string) (P : Provider) (w : World) :
  cfg_topic (app_config (app w)) <> "" ->
  truthy (apiKey P) = false ->
  let w' := exec (startOutlineGeneration JSON_parse strip_fences P) w in
  app_status (app w') = IDLE
  /\ app_error (app w') = Some API_KEY_MISSING
  /\ app_isApiKeyModalOpen (app w') = true
  /\ app_bookData (app w') = app_bookData (app w)
  /\ app_config (app w') = app_config (app w)
  /\ calls (log w') = calls (log w) ++ [CallOutline (app_config (app w))].
Proof.
  intros Htopic Hkey. unfold exec.
  rewrite (startOutlineGeneration_failure _ _ _ _ API_KEY_MISSING) by
    (done || (unfold outline_data, getClient; by rewrite Hkey)).
  cbn [snd app app_status app_error app_isApiKeyModalOpen app_bookData app_config log].
  split_and!; try done. by rewrite calls_app.
Qed.

Lemma X4_witness :
  let P := Sample.provider_without_key in
  let w := Sample.reviewing in
  cfg_topic (app_config (app w)) <> ""
  /\ truthy (apiKey P) = false
  /\ let w' := exec (startOutlineGeneration Sample.parse Sample.strip P) w in
     app_status (app w') = IDLE
     /\ app_error (app w') = Some API_KEY_MISSING
     /\ app_isApiKeyModalOpen (app w') = true
     /\ app_bookData (app w') = app_bookData (app w)
     /\ app_config (app w') = app_config (app w)
     /\ calls (log w') = calls (log w) ++ [CallOutline (app_config (app w))].
Proof.
  split_and!; [vm_compute; discriminate | reflexivity |].
  apply (X4_outline_without_credential_opens_dialog Sample.parse Sample.strip
           Sample.provider_without_key Sample.reviewing);
    [vm_compute; discriminate | reflexivity].
Defined.

(** ** X5: an answer that cannot be read *)

(** X5. With a credential, when the provider answers with a text that is
    empty after clean-up or that [JSON.parse] rejects, the synthesis stores
    "No response from AI", respectively "Failed to parse outline.", returns
    to [IDLE], keeps the project, and leaves the credential dialog as it
    was: these messages are not taken for a credential problem. *)
Theorem X5_unreadable_answer_is_reported (JSON_parse : string -> option json)
    (strip_fences : string -> string) (P : Provider) (w : World)
    (answer : option string) :
  cfg_topic (app_config (app w)) <> "" ->
  truthy (apiKey P) = true ->
  outline_answer P = Normal answer ->
  let text := strip_fences (default "" answer) in
  text = "" \/ JSON_parse text = None ->
  let w' := exec (startOutlineGeneration JSON_parse strip_fences P) w in
  app_status (app w') = IDLE
  /\ app_error (app w') = Some (if String.eqb text "" then "No response from AI"
                                else "Failed to parse outline.")
  /\ app_isApiKeyModalOpen (app w') = app_isApiKeyModalOpen (app w)
  /\ app_bookData (app w') = app_bookData (app w).
Proof.
  intros Htopic Hkey Hanswer text Hbad. unfold exec.
  assert (Hdata : outline_data JSON_parse strip_fences P =
                  Throw (if String.eqb text "" then "No response from AI"
                         else "Failed to parse outline.")).
  { unfold outline_data, getClient, parse_outline. rewrite Hkey, Hanswer. fold text.
    destruct (String.eqb_spec text "") as [Hempty|Hne]; [done|].
    destruct Hbad as [? | ->]; done. }
  rewrite (startOutlineGeneration_failure _ _ _ _ _ Htopic Hdata).
  cbn [snd app app_status app_error app_isApiKeyModalOpen app_bookData].
  destruct (String.eqb text ""); by split_and!.
Qed.

Lemma X5_witness :
  let JSON_parse := Sample.parse in
  let strip_fences := Sample.strip in
  let P := Fixture.provider_garbled in
  let w := Sample.reviewing in
  let answer := Some "<html>" in
  cfg_topic (app_config (app w)) <> ""
  /\ truthy (apiKey P) = true
  /\ outline_answer P = Normal answer
  /\ let text := strip_fences (default "" answer) in
     (text = "" \/ JSON_parse text = None)
     /\ let w' := exec (startOutlineGeneration JSON_parse strip_fences P) w in
        app_status (app w') = IDLE
        /\ app_error (app w') = Some (if String.eqb text "" then "No response from AI"
                                      else "Failed to parse outline.")
        /\ app_isApiKeyModalOpen (app w') = app_isApiKeyModalOpen (app w)
        /\ app_bookData (app w') = app_bookData (app w).
Proof.
  cbv zeta. split; [vm_compute; discriminate|]. split; [reflexivity|].
  split; [reflexivity|]. split; [by right|].
  apply (X5_unreadable_answer_is_reported Sample.parse Sample.strip
           Fixture.provider_garbled Sample.reviewing (Some "<html>"));
    [vm_compute; discriminate | reflexivity | reflexivity | by right].
Defined.

(** ** X6: the provider calls of a run, in order *)

Lemma loop_calls_concat bookData (o : list Chapter) n : forall from,
  from + n = length o ->
  loop_calls bookData o from n =
  concat (imap (fun k c => round_calls bookData o (from + k) c) (drop from o)).
Proof.
  induction n as [|n IH]; intros from Hlen.
  - rewrite drop_ge by lia. done.
  - destruct (lookup_lt_is_Some_2 o from) as [c Hc]; [lia|].
    simpl. rewrite Hc, (drop_S _ _ _ Hc), imap_cons. simpl.
    rewrite Nat.add_0_r. f_equal. rewrite IH by lia. f_equal.
    apply imap_ext. intros k x _. simpl. f_equal. lia.
Qed.

(** X6. The provider calls of a run are, in this order: the cover call,
    made only when the project has no cover image; then, for each section
    in document order that is not skipped, the text call followed by the
    illustration call. The text call of a section passes the section as the
    project has it, the title and configuration of the project and, but for
    the first section, the description of the section before it; a skipped
    section causes no call. *)
Theorem X6_calls_of_a_run (P : Provider) (w : World) (bookData : BookData) :
  app_bookData (app w) = Some bookData ->
  calls (log (exec (startFullGeneration P) w)) =
  calls (log w)
  ++ (if truthy (bd_coverImage bookData) then []
      else [CallCover (cfg_title (bd_config bookData)) (cfg_style (bd_config bookData))
              (cfg_format (bd_config bookData))])
  ++ concat (imap (fun i c =>
       if skip c then []
       else [CallChapterStream c (cfg_title (bd_config bookData)) (bd_config bookData)
               (match i with
                | 0 => None
                | S j => ch_description <$> bd_outline bookData !! j
                end);
             CallIllustration (ch_title c) (cfg_style (bd_config bookData))
               (cfg_format (bd_config bookData))])
       (bd_outline bookData)).
Proof.
  intros Hb.
  destruct (run_summary P w bookData Hb) as (_ & _ & _ & _ & _ & _ & _ & _ & _ & Hlog).
  cbv zeta in Hlog. rewrite Hlog, calls_app, calls_run_events.
  rewrite loop_calls_concat by done. rewrite drop_0. done.
Qed.

Lemma X6_witness :
  app_bookData (app Sample.finished_without_first_image)
  = Some Fixture.project_without_first_image
  /\ let P := Sample.provider_rewriting in
     let w := Sample.finished_without_first_image in
     let bookData := Fixture.project_without_first_image in
     calls (log (exec (startFullGeneration P) w)) =
     calls (log w)
     ++ (if truthy (bd_coverImage bookData) then []
         else [CallCover (cfg_title (bd_config bookData)) (cfg_style (bd_config bookData))
                 (cfg_format (bd_config bookData))])
     ++ concat (imap (fun i c =>
          if skip c then []
          else [CallChapterStream c (cfg_title (bd_config bookData)) (bd_config bookData)
                  (match i with
                   | 0 => None
                   | S j => ch_description <$> bd_outline bookData !! j
                   end);
                CallIllustration (ch_title c) (cfg_style (bd_config bookData))
                  (cfg_format (bd_config bookData))])
          (bd_outline bookData)).
Proof.
  split; [vm_compute; reflexivity|].
  apply (X6_calls_of_a_run Sample.provider_rewriting Sample.finished_without_first_image
           Fixture.project_without_first_image).
  vm_compute. reflexivity.
Defined.

(** ** X7, X8: what a run keeps and what it leaves *)

Lemma final_chapter_skeleton P i c : skeleton (final_chapter P i c) = skeleton c.
Proof. unfold final_chapter. by destruct (skip c). Qed.

Lemma finish_skeleton P (o : list Chapter) :
  skeleton <$> finish P 0 (length o) o = skeleton <$> o.
Proof.
  apply list_eq. intros j. rewrite !list_lookup_fmap, finish_all.
  destruct (o !! j) as [c|]; [|done]. simpl. by rewrite final_chapter_skeleton.
Qed.

Lemma cover_book_config P bookData :
  bd_config (cover_book P bookData) = bd_config bookData.
Proof.
  unfold cover_book. destruct (truthy _); [done|]. by destruct (generateImage _ _).
Qed.

Lemma cover_book_generatedAt P bookData :
  bd_generatedAt (cover_book P bookData) = bd_generatedAt bookData.
Proof.
  unfold cover_book. destruct (truthy _); [done|]. by destruct (generateImage _ _).
Qed.

(** X7. A run changes neither the plan nor the settings of the project: the
    sections are as many as before and each keeps its identifier, title and
    description, in the same order; the configuration and the creation date
    of the project are kept. A cover image that is there is kept; when there
    is none, the project gets the image of the cover call, and stays without
    one when that call fails. *)
Theorem X7_run_keeps_the_plan (P : Provider) (w : World) (bookData : BookData) :
  app_bookData (app w) = Some bookData ->
  exists bookData',
    app_bookData (app (exec (startFullGeneration P) w)) = Some bookData'
    /\ skeleton <$> bd_outline bookData' = skeleton <$> bd_outline bookData
    /\ bd_config bookData' = bd_config bookData
    /\ bd_generatedAt bookData' = bd_generatedAt bookData
    /\ bd_coverImage bookData' =
       if truthy (bd_coverImage bookData) then bd_coverImage bookData
       else match generateImage P (cover_answer P) with
            | Normal coverUrl => Some coverUrl
            | Throw _ => bd_coverImage bookData
            end.
Proof.
  intros Hb.
  destruct (run_summary P w bookData Hb) as (_ & _ & _ & _ & _ & Hbook & _).
  cbv zeta in Hbook. eexists. split; [exact Hbook|].
  cbn [with_outline bd_outline bd_config bd_generatedAt bd_coverImage].
  split_and!.
  - apply finish_skeleton.
  - apply cover_book_config.
  - apply cover_book_generatedAt.
  - unfold cover_book. destruct (truthy _); [done|]. by destruct (generateImage _ _).
Qed.

Lemma X7_witness :
  exists bookData',
    app_bookData (app (exec (startFullGeneration Sample.provider_no_cover) Sample.reviewing))
    = Some bookData'
    /\ skeleton <$> bd_outline bookData' = skeleton <$> bd_outline Sample.project
    /\ bd_config bookData' = bd_config Sample.project
    /\ bd_generatedAt bookData' = bd_generatedAt Sample.project
    /\ bd_coverImage bookData' =
       if truthy (bd_coverImage Sample.project) then bd_coverImage Sample.project
       else match generateImage Sample.provider_no_cover
                    (cover_answer Sample.provider_no_cover) with
            | Normal coverUrl => Some coverUrl
            | Throw _ => bd_coverImage Sample.project
            end.
Proof.
  apply (X7_run_keeps_the_plan Sample.provider_no_cover Sample.reviewing Sample.project).
  vm_compute. reflexivity.
Defined.

(** X8. After a run every section of the project has status [completed]
    and has a content (which may be the empty text), whatever the provider
    answered and whatever the sections were before. *)
Theorem X8_run_completes_every_section (P : Provider) (w : World) (bookData : BookData) :
  app_bookData (app w) = Some bookData ->
  exists bookData',
    app_bookData (app (exec (startFullGeneration P) w)) = Some bookData'
    /\ length (bd_outline bookData') = length (bd_outline bookData)
    /\ Forall (fun c => ch_status c = completed /\ is_Some (ch_content c))
         (bd_outline bookData').
Proof.
  intros Hb.
  destruct (run_summary P w bookData Hb) as (_ & _ & _ & _ & _ & Hbook & _).
  cbv zeta in Hbook. eexists. split; [exact Hbook|].
  cbn [with_outline bd_outline]. split.
  - rewrite <- (length_fmap skeleton), finish_skeleton. apply length_fmap.
  - apply Forall_lookup. intros j x. rewrite finish_all.
    destruct (bd_outline bookData !! j) as [c|]; [|done]. intros [= <-].
    unfold final_chapter. destruct (skip c) eqn:Hs; [|by eauto].
    apply skip_fully_done in Hs. destruct Hs as (? & (t & -> & _) & _). eauto.
Qed.

Lemma X8_witness :
  exists bookData',
    app_bookData (app (exec (startFullGeneration Sample.provider_without_key)
                         Sample.reviewing)) = Some bookData'
    /\ length (bd_outline bookData') = length (bd_outline Sample.project)
    /\ Forall (fun c => ch_status c = completed /\ is_Some (ch_content c))
         (bd_outline bookData').
Proof.
  apply (X8_run_completes_every_section Sample.provider_without_key Sample.reviewing
           Sample.project).
  vm_compute. reflexivity.
Defined.

(** ** X9: the statuses of a run *)

Lemma statuses_app l1 l2 : statuses (l1 ++ l2) = statuses l1 ++ statuses l2.
Proof. apply omap_app. Qed.

Lemma statuses_published {A} (f : A -> option BookData) (l : list A) :
  statuses (map (fun x => Published (f x)) l) = [].
Proof. induction l; simpl; auto. Qed.

Lemma statuses_round_events P bookData i c o b steps total :
  statuses (round_events P bookData i c o b steps total) = [].
Proof.
  unfold round_events. rewrite !statuses_app, statuses_published.
  destruct (failure _), (generateImage _ _); reflexivity.
Qed.

Lemma statuses_loop_events P bookData n : forall from o b steps total,
  statuses (loop_events P bookData from n o b steps total) = [].
Proof.
  induction n as [|n IH]; intros from o b steps total; simpl; [done|].
  rewrite statuses_app, IH, app_nil_r.
  destruct (o !! from) as [c|]; [|done]. destruct (skip c); [done|].
  apply statuses_round_events.
Qed.

Lemma statuses_cover_events P bookData total :
  statuses (cover_events P bookData total) = [].
Proof.
  unfold cover_events. destruct (truthy _); [done|]. by destruct (generateImage _ _).
Qed.

(** X9. A run on a project ends normally and sets the status exactly twice,
    to [GENERATING_BOOK] when it starts and to [COMPLETED] when it ends,
    whatever the provider does; it leaves the error message and the
    credential dialog as they were. *)
Theorem X9_statuses_of_a_run (P : Provider) (w : World) (bookData : BookData) :
  app_bookData (app w) = Some bookData ->
  let w' := exec (startFullGeneration P) w in
  outcome (startFullGeneration P) w = Normal tt
  /\ statuses (log w') = statuses (log w) ++ [GENERATING_BOOK; COMPLETED]
  /\ app_status (app w') = COMPLETED
  /\ app_error (app w') = app_error (app w)
  /\ app_isApiKeyModalOpen (app w') = app_isApiKeyModalOpen (app w).
Proof.
  intros Hb.
  destruct (run_summary P w bookData Hb) as (Hout & Hst & _ & Herr & Hmodal & _ & _ & _ & _ & Hlog).
  cbv zeta in *. split_and!; try done.
  rewrite Hlog. unfold run_events. cbv zeta.
  rewrite !statuses_app, statuses_cover_events, statuses_loop_events. done.
Qed.

Lemma X9_witness :
  let w := Sample.reviewing in
  let w' := exec (startFullGeneration Sample.provider_broken_stream) w in
  outcome (startFullGeneration Sample.provider_broken_stream) w = Normal tt
  /\ statuses (log w') = statuses (log w) ++ [GENERATING_BOOK; COMPLETED]
  /\ app_status (app w') = COMPLETED
  /\ app_error (app w') = app_error (app w)
  /\ app_isApiKeyModalOpen (app w') = app_isApiKeyModalOpen (app w).
Proof.
  apply (X9_statuses_of_a_run Sample.provider_broken_stream Sample.reviewing Sample.project).
  vm_compute. reflexivity.
Defined.

(** ** X10: the progress shown by a run *)

Lemma progresses_app l1 l2 : progresses (l1 ++ l2) = progresses l1 ++ progresses l2.
Proof. apply omap_app. Qed.

Lemma progresses_published {A} (f : A -> option BookData) (l : list A) :
  progresses (map (fun x => Published (f x)) l) = [].
Proof. induction l; simpl; auto. Qed.

Lemma progresses_round_events P bookData i c o b steps total :
  progresses (round_events P bookData i c o b steps total) =
  [mkProgress steps total (writing_message i c);
   mkProgress (steps + 1) total (illustrating_message i)].
Proof.
  unfold round_events. rewrite !progresses_app, progresses_published.
  destruct (failure _), (generateImage _ _); reflexivity.
Qed.

Lemma climbs_from lo lo' hi ps : lo' <= lo -> climbs lo hi ps -> climbs lo' hi ps.
Proof. destruct ps; simpl; intros; intuition lia. Qed.

Lemma climbs_app lo mid hi ps qs :
  climbs lo mid ps -> climbs mid hi qs -> climbs lo hi (ps ++ qs).
Proof.
  revert lo. induction ps as [|p ps IH]; simpl; intros lo.
  - intros. by eapply climbs_from.
  - intros [Hlo Hps] Hqs. split; [lia|]. by apply IH.
Qed.

Lemma climbs_loop_events P bookData n : forall from o b steps tot,
  climbs steps (steps + 2 * n) (progresses (loop_events P bookData from n o b steps tot))
  /\ Forall (fun p => total p = tot /\ current p < steps + 2 * n)
       (progresses (loop_events P bookData from n o b steps tot)).
Proof.
  induction n as [|n IH]; intros from o b steps tot; simpl.
  - split; [lia | constructor].
  - rewrite progresses_app.
    destruct (IH (S from) (alter (final_chapter P from) from o) (round_book P from o b)
                (steps + 2) tot) as [Hclimb Hall].
    assert (Hall' : Forall (fun p => total p = tot /\ current p < steps + 2 * S n)
              (progresses (loop_events P bookData (S from) n
                 (alter (final_chapter P from) from o) (round_book P from o b)
                 (steps + 2) tot))).
    { eapply Forall_impl; [exact Hall|]. simpl. intros p [? ?]. split; [done | lia]. }
    assert (Hclimb' : forall lo, lo <= steps + 2 ->
              climbs lo (steps + 2 * S n)
                (progresses (loop_events P bookData (S from) n
                   (alter (final_chapter P from) from o) (round_book P from o b)
                   (steps + 2) tot))).
    { intros lo Hlo. eapply climbs_from; [exact Hlo|].
      by replace (steps + 2 * S n) with (steps + 2 + 2 * n) by lia. }
    destruct (o !! from) as [c|]; [destruct (skip c)|];
      try (split; [apply Hclimb'; lia | exact Hall']).
    rewrite progresses_round_events. split.
    + cbn [Datatypes.app climbs current]. split; [lia|]. split; [lia|]. apply Hclimb'. lia.
    + cbn [Datatypes.app]. constructor; [cbn [current total]; split; [done | lia]|].
      constructor; [cbn [current total]; split; [done | lia]|]. exact Hall'.
Qed.

(** X10. The progress a run shows: every update gives the total
    [1 + 2 * n] for a project of [n] sections and a count of completed
    steps below that total; the counts start at [0] or above and never go
    down from one update to the next. *)
Theorem X10_progress_of_a_run (P : Provider) (w : World) (bookData : BookData) :
  app_bookData (app w) = Some bookData ->
  let n := length (bd_outline bookData) in
  exists added,
    log (exec (startFullGeneration P) w) = log w ++ added
    /\ Forall (fun p => total p = 1 + 2 * n /\ current p < 1 + 2 * n) (progresses added)
    /\ climbs 0 (1 + 2 * n) (progresses added).
Proof.
  intros Hb n.
  destruct (run_summary P w bookData Hb) as (_ & _ & _ & _ & _ & _ & _ & _ & _ & Hlog).
  cbv zeta in Hlog. exists (run_events P bookData). split; [exact Hlog|].
  unfold run_events. cbv zeta. fold n.
  replace (1 + n * 2) with (1 + 2 * n) by lia.
  rewrite !progresses_app.
  change (progresses [StatusSet GENERATING_BOOK]) with (@nil Progress).
  change (progresses [StatusSet COMPLETED]) with (@nil Progress).
  rewrite app_nil_r, app_nil_l.
  destruct (climbs_loop_events P bookData n 0 (bd_outline bookData)
              (Some (cover_book P bookData)) 1 (1 + 2 * n)) as [Hclimb Hall].
  assert (Hcover : progresses (cover_events P bookData (1 + 2 * n)) = []
                   \/ progresses (cover_events P bookData (1 + 2 * n))
                      = [mkProgress 0 (1 + 2 * n) "Designing book cover..."]).
  { unfold cover_events. destruct (truthy _); [by left|].
    right. by destruct (generateImage _ _). }
  destruct Hcover as [-> | ->]; simpl.
  - split; [done|]. by eapply climbs_from; [|exact Hclimb]; lia.
  - split.
    + constructor; [simpl; lia | done].
    + split; [lia|]. by eapply climbs_from; [|exact Hclimb]; lia.
Qed.

Lemma X10_witness :
  let n := length (bd_outline Sample.project) in
  exists added,
    log (exec (startFullGeneration Sample.provider) Sample.reviewing)
    = log Sample.reviewing ++ added
    /\ Forall (fun p => total p = 1 + 2 * n /\ current p < 1 + 2 * n) (progresses added)
    /\ climbs 0 (1 + 2 * n) (progresses added).
Proof.
  apply (X10_progress_of_a_run Sample.provider Sample.reviewing Sample.project).
  vm_compute. reflexivity.
Defined.

(** ** X11, X12: the content a stream leaves, and the next run *)

Lemma intact_generator (P : Provider) (i : nat) chunks :
  truthy (apiKey P) = true ->
  stream_answer P i = Normal (chunks, None) ->
  chapter_generator P i = mkGenerator (yielded chunks) None.
Proof. intros Hkey Hs. unfold chapter_generator, getClient. by rewrite Hkey, Hs. Qed.

(** X11. When the text stream of a section that is not skipped ends without
    an error, the run leaves the section with the fragments that carried
    text, put together in order. When no fragment carried text the content
    is the empty text, not the error placeholder, and the section will not
    be skipped by a later run. *)
Theorem X11_content_of_a_complete_stream (P : Provider) (w : World) (bookData : BookData)
    (i : nat) (c : Chapter) (chunks : list (option string)) :
  app_bookData (app w) = Some bookData ->
  bd_outline bookData !! i = Some c ->
  skip c = false ->
  truthy (apiKey P) = true ->
  stream_answer P i = Normal (chunks, None) ->
  exists c',
    app_bookData (app (exec (startFullGeneration P) w)) ≫= (fun b => bd_outline b !! i)
    = Some c'
    /\ ch_content c' = Some (join (yielded chunks))
    /\ (yielded chunks = [] -> ch_content c' = Some "" /\ skip c' = false).
Proof.
  intros Hb Hc Hs Hkey Hstream. eexists. split; [by apply (run_final_section P w bookData i c)|].
  unfold final_chapter. rewrite Hs. cbn [ch_content].
  unfold streamed_text. rewrite (intact_generator P i chunks Hkey Hstream).
  cbn [failure yields]. split; [done|]. intros ->. split; [done|].
  unfold skip. cbn [ch_content ch_status ch_imageUrl].
  change (truthy (Some (join []))) with false. by rewrite andb_false_r.
Qed.

Lemma X11_witness :
  exists c',
    app_bookData (app (exec (startFullGeneration Sample.provider_empty_outline)
                         Sample.reviewing)) ≫= (fun b => bd_outline b !! 0)
    = Some c'
    /\ ch_content c' = Some (join (yielded []))
    /\ (yielded [] = [] -> ch_content c' = Some "" /\ skip c' = false).
Proof.
  apply (X11_content_of_a_complete_stream Sample.provider_empty_outline Sample.reviewing
           Sample.project 0 (mkChapter "chap-0" "One" "About One" None None pending) []);
    vm_compute; reflexivity.
Defined.

(** X12. The error placeholder counts as a text. When the stream of a
    section breaks before any fragment and the illustration is made, the run
    leaves the section with the placeholder as its content; a later run,
    whatever the provider then answers, skips the section and leaves the
    placeholder in place. *)
Theorem X12_placeholder_is_not_rewritten (P P2 : Provider) (w : World)
    (bookData : BookData) (i : nat) (c : Chapter) (e imageUrl : string) :
  app_bookData (app w) = Some bookData ->
  bd_outline bookData !! i = Some c ->
  skip c = false ->
  chapter_generator P i = mkGenerator [] (Some e) ->
  generateImage P (illustration_answer P i) = Normal imageUrl ->
  let w' := exec (startFullGeneration P) w in
  let w'' := exec (startFullGeneration P2) w' in
  let c' := mkChapter (ch_id c) (ch_title c) (ch_description c)
              (Some TEXT_ERROR_PLACEHOLDER) (Some imageUrl) completed in
  app_bookData (app w') ≫= (fun b => bd_outline b !! i) = Some c'
  /\ skip c' = true
  /\ app_bookData (app w'') ≫= (fun b => bd_outline b !! i) = Some c'.
Proof.
  intros Hb Hc Hs Hgen Himg w' w'' c'.
  assert (Hfinal : final_chapter P i c = c').
  { unfold final_chapter, streamed_text. by rewrite Hs, Hgen, Himg. }
  assert (Hskip : skip c' = true).
  { apply skip_fully_done. split_and!; [done | by eexists | ].
    exists imageUrl. split; [done|]. by eapply generateImage_nonempty. }
  assert (Hw' : app_bookData (app w') ≫= (fun b => bd_outline b !! i) = Some c').
  { unfold w'. by rewrite (run_final_section P w bookData i c Hb Hc), Hfinal. }
  split_and!; [done | done |].
  destruct (app_bookData (app w')) as [bookData'|] eqn:Hb'; [|done].
  cbn [mbind option_bind] in Hw'.
  unfold w''. rewrite (run_final_section P2 w' bookData' i c' Hb' Hw').
  by rewrite final_chapter_skip.
Qed.

Lemma X12_witness :
  let P := Sample.provider_broken_stream in
  let P2 := Sample.provider_rewriting in
  let w := Sample.reviewing in
  let c := mkChapter "chap-2" "Three" "About Three" None None pending in
  let w' := exec (startFullGeneration P) w in
  let w'' := exec (startFullGeneration P2) w' in
  let c' := mkChapter (ch_id c) (ch_title c) (ch_description c)
              (Some TEXT_ERROR_PLACEHOLDER) (Some Sample.picture_url) completed in
  app_bookData (app w') ≫= (fun b => bd_outline b !! 2) = Some c'
  /\ skip c' = true
  /\ app_bookData (app w'') ≫= (fun b => bd_outline b !! 2) = Some c'.
Proof.
  apply (X12_placeholder_is_not_rewritten Sample.provider_broken_stream
           Sample.provider_rewriting Sample.reviewing Sample.project 2
           (mkChapter "chap-2" "Three" "About Three" None None pending)
           "network down" Sample.picture_url);
    vm_compute; reflexivity.
Defined.

(** ** X13: a run after a run in which everything was made *)

(** A run on a project that has a cover image and in which every section is
    done: nothing is called, nothing is published, the project stays. *)
Lemma run_of_finished_project (P : Provider) (w : World) (bookData : BookData) :
  app_bookData (app w) = Some bookData ->
  Forall fully_done (bd_outline bookData) ->
  truthy (bd_coverImage bookData) = true ->
  let w' := exec (startFullGeneration P) w in
  app_bookData (app w') = Some bookData
  /\ log w' = log w ++ [StatusSet GENERATING_BOOK; StatusSet COMPLETED].
Proof.
  intros Hb Hdone Hcover.
  destruct (run_summary P w bookData Hb) as (_ & _ & _ & _ & _ & Hbook & _ & _ & _ & Hlog).
  cbv zeta in *. rewrite finish_all_done in Hbook by done.
  rewrite Hbook, Hlog. unfold run_events, cover_book, cover_events. cbv zeta.
  rewrite Hcover, loop_events_all_done by done.
  by rewrite with_outline_same.
Qed.

Lemma streamed_text_nonempty (P : Provider) (i : nat) :
  yields (chapter_generator P i) <> [] \/ failure (chapter_generator P i) <> None ->
  streamed_text (chapter_generator P i) <> "".
Proof.
  intros Hgen. pose proof (generator_yields_nonempty P i) as Hne.
  destruct (failure (chapter_generator P i)) as [e|] eqn:Hf.
  - rewrite (streamed_text_broken _ e Hf Hne).
    destruct (yields (chapter_generator P i)) as [|f frags]; [discriminate|].
    by apply join_nonempty.
  - unfold streamed_text. rewrite Hf. destruct Hgen as [Hy | ?]; [|done].
    by apply join_nonempty.
Qed.

(** X13. Running twice is running once, when everything could be made. If
    the project has a cover image or the cover call succeeds, and for every
    section that is not skipped the stream yields a fragment or breaks and
    the illustration call succeeds, then a second run, whatever the provider
    then answers, calls the provider for nothing, publishes nothing and
    leaves the project as the first run left it. *)
Theorem X13_second_run_does_nothing (P P2 : Provider) (w : World) (bookData : BookData) :
  app_bookData (app w) = Some bookData ->
  (truthy (bd_coverImage bookData) = true
   \/ exists coverUrl, generateImage P (cover_answer P) = Normal coverUrl) ->
  (forall i c, bd_outline bookData !! i = Some c -> skip c = false ->
     (yields (chapter_generator P i) <> [] \/ failure (chapter_generator P i) <> None)
     /\ exists imageUrl, generateImage P (illustration_answer P i) = Normal imageUrl) ->
  let w' := exec (startFullGeneration P) w in
  let w'' := exec (startFullGeneration P2) w' in
  app_bookData (app w'') = app_bookData (app w')
  /\ calls (log w'') = calls (log w')
  /\ snapshots (log w'') = snapshots (log w').
Proof.
  intros Hb Hcover Hsections w' w''.
  destruct (run_summary P w bookData Hb) as (_ & _ & _ & _ & _ & Hbook & _).
  cbv zeta in Hbook. fold w' in Hbook.
  destruct (run_of_finished_project P2 w' _ Hbook) as [Hbook'' Hlog''].
  - cbn [with_outline bd_outline]. apply Forall_lookup. intros j x.
    rewrite finish_all. destruct (bd_outline bookData !! j) as [c|] eqn:Hc; [|done].
    intros [= <-]. unfold final_chapter. destruct (skip c) eqn:Hs.
    + by apply skip_fully_done.
    + destruct (Hsections j c Hc Hs) as [Hgen [imageUrl Himg]].
      rewrite Himg. split_and!; [done | |].
      * eexists. split; [done|]. by apply streamed_text_nonempty.
      * exists imageUrl. split; [done|]. by eapply generateImage_nonempty.
  - cbn [with_outline bd_coverImage]. unfold cover_book.
    destruct (truthy (bd_coverImage bookData)) eqn:Ht; [done|].
    destruct Hcover as [? | [coverUrl Hc]]; [done|]. rewrite Hc.
    cbn [with_coverImage bd_coverImage]. apply truthy_Some. exists coverUrl.
    split; [done|]. by eapply generateImage_nonempty.
  - fold w'' in Hbook'', Hlog''. rewrite Hbook'', Hlog'', Hbook.
    rewrite calls_app, snapshots_app. simpl. by rewrite !app_nil_r.
Qed.

Lemma X13_witness :
  let P := Sample.provider in
  let P2 := Sample.provider_rewriting in
  let w' := exec (startFullGeneration P) Sample.reviewing in
  let w'' := exec (startFullGeneration P2) w' in
  app_bookData (app w'') = app_bookData (app w')
  /\ calls (log w'') = calls (log w')
  /\ snapshots (log w'') = snapshots (log w').
Proof.
  apply (X13_second_run_does_nothing Sample.provider Sample.provider_rewriting
           Sample.reviewing Sample.project).
  - vm_compute. reflexivity.
  - right. eexists. vm_compute. reflexivity.
  - intros i c Hc Hs. split.
    + left. destruct i as [|[|[|i]]]; vm_compute; discriminate.
    + eexists. vm_compute. reflexivity.
Defined.

(** ** X14: moving through the book *)

Lemma move_in_range (book : BookData) (m : Reader.Move) (i : Z) :
  (-1 <= i < Z.of_nat (length (bd_outline book)))%Z ->
  (-1 <= Reader.move book m i < Z.of_nat (length (bd_outline book)))%Z.
Proof.
  intros Hi. destruct m as [| | |idx]; simpl.
  - unfold Reader.handleNext. destruct (Z.ltb_spec i (Z.of_nat (length (bd_outline book)) - 1)); lia.
  - unfold Reader.handlePrev. destruct (Z.ltb_spec (-1) i); lia.
  - lia.
  - case_bool_decide; lia.
Qed.

Lemma moves_in_range (book : BookData) (ms : list Reader.Move) : forall i,
  (-1 <= i < Z.of_nat (length (bd_outline book)))%Z ->
  (-1 <= Reader.moves book ms i < Z.of_nat (length (bd_outline book)))%Z.
Proof.
  induction ms as [|m ms IH]; intros i Hi; [done|].
  apply IH. by apply move_in_range.
Qed.

(** X14. The reader opens on the cover, index [-1]. Whatever series of
    moves is made (next, previous, an entry of the table of contents), the
    index stays between [-1] and the last position of the outline, and
    whenever it is not the cover it designates a section of the book. *)
Theorem X14_reader_index_stays_in_the_book (book : BookData) (ms : list Reader.Move) :
  let i := Reader.moves book ms (-1) in
  (-1 <= i < Z.of_nat (length (bd_outline book)))%Z
  /\ (i <> (-1)%Z -> is_Some (Reader.currentChapter book i)).
Proof.
  intros i.
  assert (Hi : (-1 <= i < Z.of_nat (length (bd_outline book)))%Z).
  { apply moves_in_range. lia. }
  split; [exact Hi|]. intros Hcover. unfold Reader.currentChapter.
  destruct (Z.leb_spec 0 i); [|lia]. apply lookup_lt_is_Some. lia.
Qed.

(** The footer buttons walk through the whole book: from the cover, [k + 1]
    times next opens the section at position [k], and as many times
    previous lead back to the cover. *)
Lemma next_reaches (book : BookData) (k : nat) : forall i : Z,
  (-1 <= i)%Z -> (i + Z.of_nat k < Z.of_nat (length (bd_outline book)))%Z ->
  Reader.moves book (replicate k Reader.Next) i = (i + Z.of_nat k)%Z.
Proof.
  induction k as [|k IH]; intros i Hi Hk.
  { unfold Reader.moves. simpl. lia. }
  change (Reader.moves book (replicate (S k) Reader.Next) i)
    with (Reader.moves book (replicate k Reader.Next) (Reader.handleNext book i)).
  unfold Reader.handleNext.
  destruct (Z.ltb_spec i (Z.of_nat (length (bd_outline book)) - 1)); [|lia].
  rewrite IH; lia.
Qed.

Lemma prev_returns (book : BookData) (k : nat) : forall i : Z,
  (-1 <= i - Z.of_nat k)%Z ->
  Reader.moves book (replicate k Reader.Prev) i = (i - Z.of_nat k)%Z.
Proof.
  induction k as [|k IH]; intros i Hi.
  { unfold Reader.moves. simpl. lia. }
  change (Reader.moves book (replicate (S k) Reader.Prev) i)
    with (Reader.moves book (replicate k Reader.Prev) (Reader.handlePrev i)).
  unfold Reader.handlePrev.
  destruct (Z.ltb_spec (-1) i); [|lia].
  rewrite IH; lia.
Qed.

(** X15. From the cover, [k + 1] times next opens the section at position
    [k] of the outline, for every position [k] there is, and from there
    [k + 1] times previous lead back to the cover; at the last section next
    changes nothing, and on the cover previous changes nothing. *)
Theorem X15_footer_buttons_walk_the_book (book : BookData) (k : nat) (c : Chapter) :
  bd_outline book !! k = Some c ->
  let i := Reader.moves book (replicate (S k) Reader.Next) (-1) in
  i = Z.of_nat k
  /\ Reader.currentChapter book i = Some c
  /\ Reader.moves book (replicate (S k) Reader.Prev) i = (-1)%Z
  /\ Reader.handlePrev (-1) = (-1)%Z
  /\ Reader.handleNext book (Z.of_nat (length (bd_outline book)) - 1)
     = (Z.of_nat (length (bd_outline book)) - 1)%Z.
Proof.
  intros Hc i. pose proof (lookup_lt_Some _ _ _ Hc) as Hk.
  assert (Hi : i = Z.of_nat k).
  { unfold i. rewrite next_reaches; lia. }
  rewrite Hi. split_and!.
  - done.
  - unfold Reader.currentChapter. destruct (Z.leb_spec 0 (Z.of_nat k)); [|lia].
    by rewrite Nat2Z.id.
  - rewrite prev_returns; lia.
  - done.
  - unfold Reader.handleNext. by rewrite Z.ltb_irrefl.
Qed.

Lemma X15_witness :
  let book := Sample.finished_project in
  let i := Reader.moves book (replicate 3 Reader.Next) (-1) in
  i = Z.of_nat 2
  /\ Reader.currentChapter book i
     = Some (mkChapter "chap-2" "Three" "About Three" (Some "Intro. Body.")
               (Some Sample.picture_url) completed)
  /\ Reader.moves book (replicate 3 Reader.Prev) i = (-1)%Z
  /\ Reader.handlePrev (-1) = (-1)%Z
  /\ Reader.handleNext book (Z.of_nat (length (bd_outline book)) - 1)
     = (Z.of_nat (length (bd_outline book)) - 1)%Z.
Proof.
  apply (X15_footer_buttons_walk_the_book Sample.finished_project 2
           (mkChapter "chap-2" "Three" "About Three" (Some "Intro. Body.")
              (Some Sample.picture_url) completed)).
  reflexivity.
Defined.

(** ** The handlers that write the project *)

Lemma setBookData_const (b : option BookData) (w : World) :
  setBookData (fun _ => b) w =
  (Normal tt, mkWorld (store_bookData b (app w)) (frame w) (log w ++ [Published b])).
Proof. reflexivity. Qed.

Lemma with_bookData_some (k : BookData -> M unit) (w : World) (bookData : BookData) :
  app_bookData (app w) = Some bookData -> with_bookData k w = k bookData w.
Proof. intros Hb. unfold with_bookData. run. by rewrite Hb. Qed.

Lemma with_bookData_none (k : BookData -> M unit) (w : World) :
  app_bookData (app w) = None -> with_bookData k w = (Normal tt, w).
Proof. intros Hb. unfold with_bookData. run. by rewrite Hb. Qed.

Lemma handleUpdateBookContent_eq (chapterId newContent : string) (w : World)
    (bookData : BookData) :
  app_bookData (app w) = Some bookData ->
  handleUpdateBookContent chapterId newContent w =
  (Normal tt,
   mkWorld (store_bookData (Some (edited chapterId newContent bookData)) (app w)) (frame w)
     (log w ++ [Published (Some (edited chapterId newContent bookData))])).
Proof.
  intros Hb. unfold handleUpdateBookContent.
  rewrite (with_bookData_some _ w bookData Hb). apply setBookData_const.
Qed.

Lemma handleRegenerateImage_eq (P : Provider) (idx : Z) (others : M unit) (w : World)
    (book : BookData) (c : Chapter) :
  app_bookData (app w) = Some book ->
  Reader.currentChapter book idx = Some c ->
  let called := Called (CallIllustration (ch_title c) (cfg_style (bd_config book))
                          (cfg_format (bd_config book))) in
  let w2 := exec others (mkWorld (app w) (frame w) (log w ++ [called])) in
  Reader.handleRegenerateImage P idx others w =
  match generateImage P (illustration_answer P (Z.to_nat idx)) with
  | Normal newUrl =>
      (Normal tt,
       mkWorld (store_bookData (Some (redrawn (ch_id c) newUrl book)) (app w2)) (frame w2)
         (log w2 ++ [Published (Some (redrawn (ch_id c) newUrl book))]))
  | Throw _ =>
      (Normal tt,
       mkWorld (app w2) (frame w2) (log w2 ++ [ConsoleError "Failed to regenerate image"]))
  end.
Proof.
  intros Hb Hc called w2. unfold Reader.handleRegenerateImage.
  rewrite (with_bookData_some _ w book Hb), Hc.
  unfold try_catch, Reader.meanwhile, Reader.handleUpdateBookImage_of. run.
  fold called. fold (exec others (mkWorld (app w) (frame w) (log w ++ [called]))). fold w2.
  destruct (generateImage P (illustration_answer P (Z.to_nat idx))); reflexivity.
Qed.

Lemma redrawn_lookup (chapterId newImageUrl : string) (bookData : BookData) (i : nat)
    (c : Chapter) :
  bd_outline bookData !! i = Some c ->
  bd_outline (redrawn chapterId newImageUrl bookData) !! i =
  Some (if String.eqb (ch_id c) chapterId then with_imageUrl newImageUrl c else c).
Proof. intros Hc. unfold redrawn. simpl. by rewrite list_lookup_fmap, Hc. Qed.

Lemma currentChapter_lookup (book : BookData) (idx : Z) (c : Chapter) :
  Reader.currentChapter book idx = Some c -> bd_outline book !! Z.to_nat idx = Some c.
Proof. unfold Reader.currentChapter. by destruct (0 <=? idx)%Z. Qed.

(** ** X16: redrawing the illustration of a section *)

(** X16. Redrawing the illustration of the section that is open, with
    nothing else going on: the handler never fails and makes one
    illustration call, for the title of the section. When the call fails the
    project is left as it is and nothing is published. When it succeeds the
    project is published with the new image on the section, everything else
    as before; a section that was completed with a text is from then on
    skipped by a run. *)
Theorem X16_redraw_of_the_open_section (P : Provider) (idx : Z) (w : World)
    (book : BookData) (c : Chapter) :
  app_bookData (app w) = Some book ->
  Reader.currentChapter book idx = Some c ->
  let m := Reader.handleRegenerateImage P idx (mret tt) in
  let w' := exec m w in
  outcome m w = Normal tt
  /\ calls (log w') = calls (log w)
       ++ [CallIllustration (ch_title c) (cfg_style (bd_config book))
             (cfg_format (bd_config book))]
  /\ match generateImage P (illustration_answer P (Z.to_nat idx)) with
     | Throw _ =>
         app_bookData (app w') = Some book /\ snapshots (log w') = snapshots (log w)
     | Normal newUrl =>
         app_bookData (app w') = Some (redrawn (ch_id c) newUrl book)
         /\ snapshots (log w') = snapshots (log w) ++ [Some (redrawn (ch_id c) newUrl book)]
         /\ bd_outline (redrawn (ch_id c) newUrl book) !! Z.to_nat idx
            = Some (with_imageUrl newUrl c)
         /\ (ch_status c = completed -> truthy (ch_content c) = true ->
             skip (with_imageUrl newUrl c) = true)
     end.
Proof.
  intros Hb Hc m w'. unfold w', m, exec, outcome.
  rewrite (handleRegenerateImage_eq P idx (mret tt) w book c Hb Hc). cbv zeta.
  unfold exec. cbn [mret M_ret snd].
  destruct (generateImage P (illustration_answer P (Z.to_nat idx))) as [newUrl|e] eqn:Himg;
    cbn [fst snd log app app_bookData store_bookData].
  - rewrite !calls_app, !snapshots_app. cbn [calls snapshots omap].
    rewrite !app_nil_r. split_and!; try done.
    + rewrite (redrawn_lookup _ _ _ _ c (currentChapter_lookup _ _ _ Hc)).
      by rewrite String.eqb_refl.
    + intros Hst Hcontent. unfold skip. cbn [with_imageUrl ch_status ch_content ch_imageUrl].
      rewrite Hcontent, bool_decide_eq_true_2 by done. simpl.
      apply negb_true_iff, String.eqb_neq. by eapply generateImage_nonempty.
  - rewrite !calls_app, !snapshots_app. cbn [calls snapshots omap].
    rewrite !app_nil_r. by destruct w as [[] ? ?].
Qed.

Lemma X16_witness :
  let P := Sample.provider in
  let w := Sample.finished_without_first_image in
  let book := Fixture.project_without_first_image in
  let c := Sample.unillustrated_section in
  let m := Reader.handleRegenerateImage P 0 (mret tt) in
  let w' := exec m w in
  outcome m w = Normal tt
  /\ calls (log w') = calls (log w)
       ++ [CallIllustration (ch_title c) (cfg_style (bd_config book))
             (cfg_format (bd_config book))]
  /\ match generateImage P (illustration_answer P (Z.to_nat 0)) with
     | Throw _ =>
         app_bookData (app w') = Some book /\ snapshots (log w') = snapshots (log w)
     | Normal newUrl =>
         app_bookData (app w') = Some (redrawn (ch_id c) newUrl book)
         /\ snapshots (log w') = snapshots (log w) ++ [Some (redrawn (ch_id c) newUrl book)]
         /\ bd_outline (redrawn (ch_id c) newUrl book) !! Z.to_nat 0
            = Some (with_imageUrl newUrl c)
         /\ (ch_status c = completed -> truthy (ch_content c) = true ->
             skip (with_imageUrl newUrl c) = true)
     end.
Proof.
  apply (X16_redraw_of_the_open_section Sample.provider 0
           Sample.finished_without_first_image Fixture.project_without_first_image
           Sample.unillustrated_section);
    vm_compute; reflexivity.
Defined.

(** ** X17: an edit saved while an illustration is being redrawn *)

(** X17. The image that arrives is written into the project as it was when
    the redraw was asked for. Whatever other handlers did to the project
    while the call was awaited, the project after a successful redraw is the
    project of the click with the new image: a text saved in between is
    gone. When the call fails, the project is left as the other handlers
    left it. *)
Theorem X17_redraw_writes_the_project_of_the_click (P : Provider) (idx : Z)
    (others : M unit) (w : World) (book : BookData) (c : Chapter) :
  app_bookData (app w) = Some book ->
  Reader.currentChapter book idx = Some c ->
  let called := Called (CallIllustration (ch_title c) (cfg_style (bd_config book))
                          (cfg_format (bd_config book))) in
  let w' := exec (Reader.handleRegenerateImage P idx others) w in
  match generateImage P (illustration_answer P (Z.to_nat idx)) with
  | Normal newUrl => app_bookData (app w') = Some (redrawn (ch_id c) newUrl book)
  | Throw _ =>
      app_bookData (app w')
      = app_bookData (app (exec others (mkWorld (app w) (frame w) (log w ++ [called]))))
  end.
Proof.
  intros Hb Hc called w'.
  pose proof (handleRegenerateImage_eq P idx others w book c Hb Hc) as Heq.
  cbv zeta in Heq. fold called in Heq. unfold w'.
  destruct (generateImage P (illustration_answer P (Z.to_nat idx)));
    unfold exec at 1; rewrite Heq; reflexivity.
Qed.

Lemma X17_witness :
  let P := Sample.provider in
  let w := Sample.finished in
  let book := Sample.finished_project in
  let c := mkChapter "chap-1" "Two" "About Two" (Some "Intro. Body.")
             (Some Sample.picture_url) completed in
  let others := Reader.handleSaveEdit 1 "My own words." in
  let called := Called (CallIllustration (ch_title c) (cfg_style (bd_config book))
                          (cfg_format (bd_config book))) in
  let w' := exec (Reader.handleRegenerateImage P 1 others) w in
  match generateImage P (illustration_answer P (Z.to_nat 1)) with
  | Normal newUrl => app_bookData (app w') = Some (redrawn (ch_id c) newUrl book)
  | Throw _ =>
      app_bookData (app w')
      = app_bookData (app (exec others (mkWorld (app w) (frame w) (log w ++ [called]))))
  end.
Proof.
  apply (X17_redraw_writes_the_project_of_the_click Sample.provider 1
           (Reader.handleSaveEdit 1 "My own words.") Sample.finished Sample.finished_project
           (mkChapter "chap-1" "Two" "About Two" (Some "Intro. Body.")
              (Some Sample.picture_url) completed));
    vm_compute; reflexivity.
Defined.

(** The text saved while the second illustration is redrawn is shown, and
    is gone when the image arrives. *)
Example saved_text_is_lost :
  let others := Reader.handleSaveEdit 1 "My own words." in
  let w' := exec (Reader.handleRegenerateImage Sample.provider 1 others) Sample.finished in
  section_contents 1 (log w') =
  section_contents 1 (log Sample.finished) ++ ["My own words."; "Intro. Body."]
  /\ section_content 1 (app_bookData (app w')) = Some "Intro. Body.".
Proof. vm_compute. done. Qed.

(** ** X18: a text edited in the reader and the next run *)

Lemma edited_fully_done (chapterId newContent : string) (bookData : BookData) :
  newContent <> "" ->
  Forall fully_done (bd_outline bookData) ->
  Forall fully_done (bd_outline (edited chapterId newContent bookData)).
Proof.
  intros Hne Hdone. unfold edited. cbn [with_outline bd_outline].
  apply Forall_fmap. eapply Forall_impl; [exact Hdone|].
  intros c (Hst & Hcontent & Himg). simpl.
  destruct (String.eqb (ch_id c) chapterId); [|done].
  split_and!; [done | by exists newContent | done].
Qed.

(** X18. A text changed in the reader survives a later run. On a project
    with a cover image in which every section is done, after the text of a
    section is replaced by a text that is not empty, a run calls the
    provider for nothing and leaves the project as edited: the sections with
    the given identifier carry the new text, everything else is as
    before. *)
Theorem X18_edited_text_survives_a_run (P : Provider) (w : World) (bookData : BookData)
    (chapterId newContent : string) :
  app_bookData (app w) = Some bookData ->
  Forall fully_done (bd_outline bookData) ->
  truthy (bd_coverImage bookData) = true ->
  newContent <> "" ->
  let w1 := exec (handleUpdateBookContent chapterId newContent) w in
  let w2 := exec (startFullGeneration P) w1 in
  app_bookData (app w2) = Some (edited chapterId newContent bookData)
  /\ calls (log w2) = calls (log w)
  /\ forall i c, bd_outline bookData !! i = Some c ->
       bd_outline (edited chapterId newContent bookData) !! i =
       Some (if String.eqb (ch_id c) chapterId then with_content newContent c else c).
Proof.
  intros Hb Hdone Hcover Hne w1 w2.
  assert (Hw1 : app_bookData (app w1) = Some (edited chapterId newContent bookData)
                /\ calls (log w1) = calls (log w)).
  { unfold w1, exec. rewrite (handleUpdateBookContent_eq _ _ _ _ Hb). simpl.
    split; [by destruct w as [[] ? ?]|].
    rewrite calls_app. simpl. by rewrite app_nil_r. }
  destruct Hw1 as [Hb1 Hcalls1].
  destruct (run_of_finished_project P w1 _ Hb1) as [Hb2 Hlog2].
  - by apply edited_fully_done.
  - done.
  - fold w2 in Hb2, Hlog2. split_and!.
    + done.
    + rewrite Hlog2, calls_app, Hcalls1. simpl. by rewrite app_nil_r.
    + intros i c Hc. unfold edited. cbn [with_outline bd_outline].
      by rewrite list_lookup_fmap, Hc.
Qed.

Lemma X18_witness :
  let w1 := exec (handleUpdateBookContent "chap-1" "My own words.") Sample.finished in
  let w2 := exec (startFullGeneration Sample.provider_rewriting) w1 in
  app_bookData (app w2) = Some (edited "chap-1" "My own words." Sample.finished_project)
  /\ calls (log w2) = calls (log Sample.finished)
  /\ forall i c, bd_outline Sample.finished_project !! i = Some c ->
       bd_outline (edited "chap-1" "My own words." Sample.finished_project) !! i =
       Some (if String.eqb (ch_id c) "chap-1" then with_content "My own words." c else c).
Proof.
  apply (X18_edited_text_survives_a_run Sample.provider_rewriting Sample.finished
           Sample.finished_project "chap-1" "My own words.").
  - vm_compute. reflexivity.
  - repeat constructor; eexists; (split; [reflexivity | discriminate]).
  - vm_compute. reflexivity.
  - discriminate.
Defined.

(** ** X19: adding and removing a section in the review *)

Lemma handleAddChapter_eq (date_now : Z) (w : World) (bookData : BookData) :
  app_bookData (app w) = Some bookData ->
  let newChapter :=
    mkChapter ("chap-" +:+ pretty (length (bd_outline bookData)) +:+ "-" +:+ pretty date_now)
      "New Chapter" "Description of the new chapter" None None pending in
  let b := Some (with_outline (bd_outline bookData ++ [newChapter]) bookData) in
  handleAddChapter date_now w =
  (Normal tt, mkWorld (store_bookData b (app w)) (frame w) (log w ++ [Published b])).
Proof.
  intros Hb newChapter b. unfold handleAddChapter.
  rewrite (with_bookData_some _ w bookData Hb). apply setBookData_const.
Qed.

Lemma handleRemoveChapter_eq (index : nat) (w : World) (bookData : BookData) :
  app_bookData (app w) = Some bookData ->
  let b := Some (with_outline (delete index (bd_outline bookData)) bookData) in
  handleRemoveChapter index w =
  (Normal tt, mkWorld (store_bookData b (app w)) (frame w) (log w ++ [Published b])).
Proof.
  intros Hb b. unfold handleRemoveChapter.
  rewrite (with_bookData_some _ w bookData Hb). apply setBookData_const.
Qed.

Lemma delete_last {A} (l : list A) (x : A) : delete (length l) (l ++ [x]) = l.
Proof. induction l as [|a l IH]; simpl; [done | by rewrite IH]. Qed.

Lemma delete_out_of_range {A} (l : list A) (i : nat) : length l <= i -> delete i l = l.
Proof.
  revert i. induction l as [|a l IH]; intros i Hi; [by destruct i|].
  destruct i as [|i]; simpl in *; [lia|]. rewrite IH; [done | lia].
Qed.

(** X19. In the review, adding a section puts a pending section without
    text and without image after the others, which keep their places;
    removing the section just added gives back the project as it was.
    Removing at a position the outline does not have leaves the project as
    it is. *)
Theorem X19_add_then_remove (date_now : Z) (w : World) (bookData : BookData) :
  app_bookData (app w) = Some bookData ->
  let n := length (bd_outline bookData) in
  let w1 := exec (handleAddChapter date_now) w in
  (exists added,
     app_bookData (app w1) = Some (with_outline (bd_outline bookData ++ [added]) bookData)
     /\ ch_status added = pending /\ ch_content added = None /\ ch_imageUrl added = None)
  /\ app_bookData (app (exec (handleRemoveChapter n) w1)) = Some bookData
  /\ forall index, n <= index ->
       app_bookData (app (exec (handleRemoveChapter index) w)) = Some bookData.
Proof.
  intros Hb n w1.
  pose proof (handleAddChapter_eq date_now w bookData Hb) as Hadd. cbv zeta in Hadd.
  assert (Hb1 : app_bookData (app w1) =
                Some (with_outline
                        (bd_outline bookData ++
                         [mkChapter ("chap-" +:+ pretty n +:+ "-" +:+ pretty date_now)
                            "New Chapter" "Description of the new chapter" None None pending])
                        bookData)).
  { unfold w1, exec. rewrite Hadd. reflexivity. }
  split_and!.
  - eexists. split; [exact Hb1|]. done.
  - unfold exec. rewrite (handleRemoveChapter_eq n w1 _ Hb1). cbv zeta.
    cbn [snd app store_bookData app_bookData with_outline bd_outline].
    unfold n. rewrite delete_last. by destruct bookData.
  - intros index Hindex. unfold exec. rewrite (handleRemoveChapter_eq index w _ Hb). cbv zeta.
    cbn [snd app store_bookData app_bookData].
    rewrite delete_out_of_range by done. by rewrite with_outline_same.
Qed.

Lemma X19_witness :
  let n := length (bd_outline Sample.project) in
  let w1 := exec (handleAddChapter 1700000001) Sample.reviewing in
  (exists added,
     app_bookData (app w1)
     = Some (with_outline (bd_outline Sample.project ++ [added]) Sample.project)
     /\ ch_status added = pending /\ ch_content added = None /\ ch_imageUrl added = None)
  /\ app_bookData (app (exec (handleRemoveChapter n) w1)) = Some Sample.project
  /\ forall index, n <= index ->
       app_bookData (app (exec (handleRemoveChapter index) Sample.reviewing))
       = Some Sample.project.
Proof.
  apply (X19_add_then_remove 1700000001 Sample.reviewing Sample.project).
  vm_compute. reflexivity.
Defined.

(** ** X20: what is edited in the review is what the provider is asked for *)

Lemma handleUpdateChapter_eq (index : nat) (f : Field) (value : string) (w : World)
    (bookData : BookData) :
  app_bookData (app w) = Some bookData ->
  let b := Some (with_outline (alter (set_field f value) index (bd_outline bookData))
                   bookData) in
  handleUpdateChapter index f value w =
  (Normal tt, mkWorld (store_bookData b (app w)) (frame w) (log w ++ [Published b])).
Proof.
  intros Hb b. unfold handleUpdateChapter.
  rewrite (with_bookData_some _ w bookData Hb). apply setBookData_const.
Qed.

Lemma skip_set_field (f : Field) (value : string) (c : Chapter) :
  skip (set_field f value c) = skip c.
Proof. by destruct f. Qed.

(** X20. A title or a description changed in the review is what the run
    asks the provider for. After the field of the section at a position is
    changed, the run calls for the text of that section with the section as
    changed and for its illustration with the title as changed; and the
    text call of the section after it passes the description as changed. *)
Theorem X20_review_edits_reach_the_provider (P : Provider) (w : World)
    (bookData : BookData) (i : nat) (c : Chapter) (f : Field) (value : string) :
  app_bookData (app w) = Some bookData ->
  bd_outline bookData !! i = Some c ->
  let w1 := exec (handleUpdateChapter i f value) w in
  let c' := set_field f value c in
  let title := cfg_title (bd_config bookData) in
  let style := cfg_style (bd_config bookData) in
  let format := cfg_format (bd_config bookData) in
  (skip c = false ->
   exists before prev after,
     calls (log (exec (startFullGeneration P) w1)) =
     calls (log w) ++ before
     ++ [CallChapterStream c' title (bd_config bookData) prev;
         CallIllustration (ch_title c') style format]
     ++ after)
  /\ (forall c2, bd_outline bookData !! S i = Some c2 -> skip c2 = false ->
      exists before after,
        calls (log (exec (startFullGeneration P) w1)) =
        calls (log w) ++ before
        ++ [CallChapterStream c2 title (bd_config bookData) (Some (ch_description c'));
            CallIllustration (ch_title c2) style format]
        ++ after).
Proof.
  intros Hb Hc w1 c' title style format.
  pose proof (handleUpdateChapter_eq i f value w bookData Hb) as Heq. cbv zeta in Heq.
  set (bookData1 := with_outline (alter (set_field f value) i (bd_outline bookData))
                      bookData) in *.
  assert (Hb1 : app_bookData (app w1) = Some bookData1).
  { unfold w1, exec. by rewrite Heq. }
  assert (Hcalls1 : calls (log w1) = calls (log w)).
  { unfold w1, exec. rewrite Heq. simpl. rewrite calls_app. simpl. by rewrite app_nil_r. }
  assert (Hi : bd_outline bookData1 !! i = Some c').
  { unfold bookData1. simpl. by rewrite list_lookup_alter_eq, Hc. }
  split.
  - intros Hs.
    destruct (run_calls_of_section P w1 bookData1 i c' Hb1 Hi) as (before & after & Hcalls).
    exists before, (prev_context (bd_outline bookData1) i), after.
    rewrite Hcalls, Hcalls1. unfold round_calls.
    unfold c' at 1. by rewrite skip_set_field, Hs.
  - intros c2 Hc2 Hs2.
    assert (Hi2 : bd_outline bookData1 !! S i = Some c2).
    { unfold bookData1. simpl. by rewrite list_lookup_alter_ne by lia. }
    destruct (run_calls_of_section P w1 bookData1 (S i) c2 Hb1 Hi2)
      as (before & after & Hcalls).
    exists before, after. rewrite Hcalls, Hcalls1. unfold round_calls. rewrite Hs2.
    unfold prev_context. by rewrite Hi.
Qed.

Lemma X20_witness :
  let P := Sample.provider in
  let w := Sample.reviewing in
  let bookData := Sample.project in
  let c := mkChapter "chap-0" "One" "About One" None None pending in
  let w1 := exec (handleUpdateChapter 0 field_description "The beginning.") w in
  let c' := set_field field_description "The beginning." c in
  let title := cfg_title (bd_config bookData) in
  let style := cfg_style (bd_config bookData) in
  let format := cfg_format (bd_config bookData) in
  (skip c = false ->
   exists before prev after,
     calls (log (exec (startFullGeneration P) w1)) =
     calls (log w) ++ before
     ++ [CallChapterStream c' title (bd_config bookData) prev;
         CallIllustration (ch_title c') style format]
     ++ after)
  /\ (forall c2, bd_outline bookData !! 1 = Some c2 -> skip c2 = false ->
      exists before after,
        calls (log (exec (startFullGeneration P) w1)) =
        calls (log w) ++ before
        ++ [CallChapterStream c2 title (bd_config bookData) (Some (ch_description c'));
            CallIllustration (ch_title c2) style format]
        ++ after).
Proof.
  apply (X20_review_edits_reach_the_provider Sample.provider Sample.reviewing Sample.project
           0 (mkChapter "chap-0" "One" "About One" None None pending)
           field_description "The beginning.");
    vm_compute; reflexivity.
Defined.

(** ** X21: the reset button *)

(** X21. The reset puts the application back to the start: status
    [IDLE], no project, the initial configuration, no error message. From
    there neither generation can be started: with the topic empty again the
    outline synthesis returns at once, and without a project so does the
    full generation; no provider call is made. *)
Theorem X21_reset_returns_to_the_start (JSON_parse : string -> option json)
    (strip_fences : string -> string) (P : Provider) (w : World) :
  let w' := exec reset w in
  (app_status (app w') = IDLE
   /\ app_bookData (app w') = None
   /\ app_config (app w') = INITIAL_CONFIG
   /\ app_error (app w') = None
   /\ calls (log w') = calls (log w))
  /\ startOutlineGeneration JSON_parse strip_fences P w' = (Normal tt, w')
  /\ startFullGeneration P w' = (Normal tt, w').
Proof.
  intros w'.
  assert (Hw' : app_status (app w') = IDLE /\ app_bookData (app w') = None
                /\ app_config (app w') = INITIAL_CONFIG /\ app_error (app w') = None
                /\ calls (log w') = calls (log w)).
  { unfold w', exec, reset. run. split_and!; try done.
    rewrite <- app_assoc, calls_app. simpl. by rewrite app_nil_r. }
  destruct Hw' as (Hst & Hb & Hcfg & Herr & Hcalls).
  split; [done|]. split.
  - unfold startOutlineGeneration. run. by rewrite Hcfg.
  - by apply startFullGeneration_without_project.
Qed.

(** ** X22, X23: the pages of the exported document *)

Module LayoutFacts.
Import Pagination Slices Layout.
Local Open Scope Q_scope.

Lemma pages_place_each_added (ps : list Placement) : forall pdf,
  pages (place_each true ps pdf) = (pages pdf ++ ((fun p => [p]) <$> ps))%list.
Proof.
  induction ps as [|p ps IH]; intros pdf; simpl.
  - by rewrite app_nil_r.
  - rewrite IH. unfold pages, addImage, addPage. simpl. by rewrite <- !app_assoc.
Qed.

Lemma pages_place_each (p : Placement) (ps : list Placement) (pdf : Pdf) :
  current_page pdf = [] ->
  pages (place_each false (p :: ps) pdf)
  = (finished pdf ++ ((fun p => [p]) <$> p :: ps))%list.
Proof.
  intros Hcur. simpl. rewrite pages_place_each_added.
  unfold pages, addImage. simpl. rewrite Hcur. simpl. by rewrite <- app_assoc.
Qed.

Section Document.
Variables pdfWidth pdfHeight : Q.
Hypothesis content_positive : 0 < contentHeight pdfHeight.

Lemma section_pages_positive (c : Canvas) :
  (0 < section_pages pdfWidth pdfHeight c)%nat.
Proof.
  unfold section_pages. destruct (Qle_bool _ _) eqn:Hle; [lia|].
  assert (Hgt : pdfHeight < scaled_height pdfWidth c).
  { apply Qnot_le_lt. intros H. apply Qle_bool_iff in H. congruence. }
  assert (Hpos : 0 < scaled_height pdfWidth c).
  { unfold contentHeight, margin in content_positive. lra. }
  destruct (SliceFacts.ceiling_rounds pdfHeight content_positive _ Hpos) as [Hup _].
  destruct (Z.to_nat _); [|lia]. simpl in Hup. lra.
Qed.

Lemma length_section_placements (i : nat) (c : Canvas) :
  length (section_placements pdfWidth pdfHeight i c) = section_pages pdfWidth pdfHeight c.
Proof.
  unfold section_placements, section_pages. cbv zeta.
  destruct (Qle_bool _ _); [done|].
  generalize (Z.to_nat (Qceiling (scaled_height pdfWidth c / contentHeight pdfHeight))).
  generalize 0. intros pos n. revert pos. induction n; intros; simpl; auto.
Qed.

(** One round of the loop over the sections, on a document whose current
    page is empty once the page of the section is added. *)
Lemma add_section_layout (fuel i : nat) (c : Canvas) (pdf : Pdf) :
  (section_pages pdfWidth pdfHeight c <= fuel)%nat ->
  let pdf0 := if (0 <? i)%nat then addPage pdf else pdf in
  current_page pdf0 = [] ->
  exists pdf',
    add_section pdfWidth pdfHeight fuel i c pdf = Some pdf'
    /\ pages pdf' = (finished pdf0
                     ++ ((fun p => [p]) <$> section_placements pdfWidth pdfHeight i c))%list.
Proof.
  intros Hfuel pdf0 Hcur.
  pose proof (section_pages_positive c) as Hpos.
  pose proof (length_section_placements i c) as Hlen.
  destruct (SliceFacts.add_section_pages pdfWidth pdfHeight content_positive fuel i c pdf)
    as [Hshort Hlong].
  unfold section_pages in Hfuel, Hpos, Hlen. unfold section_placements in *. cbv zeta in *.
  unfold section_pages in *.
  destruct (Qle_bool (scaled_height pdfWidth c) pdfHeight) eqn:Hle.
  - apply Qle_bool_iff in Hle. destruct (Hshort Hle) as [-> _].
    eexists. split; [done|]. fold pdf0. unfold pages, addImage. simpl. by rewrite Hcur.
  - assert (Hgt : pdfHeight < scaled_height pdfWidth c).
    { apply Qnot_le_lt. intros H. apply Qle_bool_iff in H. congruence. }
    destruct (Hlong Hgt Hfuel) as (-> & _ & _ & _). fold pdf0.
    eexists. split; [done|].
    destruct (slices _ _ _ _ _ _) as [|p ps] eqn:Hps; [simpl in Hlen; lia|].
    by apply pages_place_each.
Qed.

Lemma add_sections_layout (fuel : nat) (cs : list Canvas) : forall i pdf,
  (0 < i)%nat ->
  Forall (fun c => (section_pages pdfWidth pdfHeight c <= fuel)%nat) cs ->
  exists pdf',
    add_sections pdfWidth pdfHeight fuel i cs pdf = Some pdf'
    /\ pages pdf' =
       (pages pdf
        ++ ((fun p => [p]) <$>
            concat (imap (fun k => section_placements pdfWidth pdfHeight (i + k)) cs)))%list.
Proof.
  induction cs as [|c cs IH]; intros i pdf Hi Hfuel.
  - exists pdf. simpl. by rewrite app_nil_r.
  - apply Forall_cons in Hfuel as [Hc Hcs].
    destruct (add_section_layout fuel i c pdf Hc) as (pdf1 & Heq1 & Hpages1).
    { destruct (Nat.ltb_spec 0 i); [done | lia]. }
    destruct (IH (S i) pdf1) as (pdf' & Heq & Hpages); [lia | done |].
    exists pdf'. simpl. rewrite Heq1. split; [done|].
    rewrite Hpages, Hpages1. destruct (Nat.ltb_spec 0 i); [|lia].
    change (finished (addPage pdf)) with (pages pdf).
    rewrite Nat.add_0_r, fmap_app, <- app_assoc. do 4 f_equal.
    apply imap_ext. intros k x _. simpl. f_equal. lia.
Qed.

(** X22. The export ends, and its pages are known in advance. With a page
    higher than its two margins and fuel for the longest section, the loops
    over the sections and over the slices of a section return a document
    whose pages carry one image each, section after section in the order
    rendered: a section whose scaled height is at most the page height takes
    one page, its image at the top margin; a higher one takes the scaled
    height over the content height, rounded up, pages, its image moved up by
    one content height from each page to the next. *)
Theorem X22_pages_of_the_export (fuel : nat) (sections : list Canvas) :
  Forall (fun c => (section_pages pdfWidth pdfHeight c <= fuel)%nat) sections ->
  pages <$> handleDownloadPdf pdfWidth pdfHeight fuel sections
  = Some (document_pages pdfWidth pdfHeight sections)
  /\ Forall (fun pg => length pg = 1%nat)
       (if sections is [] then [] else document_pages pdfWidth pdfHeight sections)
  /\ (forall i c, sections !! i = Some c ->
        length (section_placements pdfWidth pdfHeight i c)
        = section_pages pdfWidth pdfHeight c
        /\ (0 < section_pages pdfWidth pdfHeight c)%nat).
Proof.
  intros Hfuel. split_and!.
  - unfold handleDownloadPdf. destruct sections as [|c cs]; [done|].
    apply Forall_cons in Hfuel as [Hc Hcs].
    destruct (add_section_layout fuel 0 c new_pdf Hc) as (pdf1 & Heq1 & Hpages1); [done|].
    destruct (add_sections_layout fuel cs 1 pdf1) as (pdf' & Heq & Hpages); [lia | done |].
    simpl add_sections. rewrite Heq1, Heq. simpl. f_equal.
    rewrite Hpages, Hpages1. simpl. by rewrite fmap_app.
  - destruct sections as [|c cs]; [done|]. unfold document_pages.
    apply Forall_fmap. by apply Forall_true.
  - intros i c _. split; [apply length_section_placements | apply section_pages_positive].
Qed.

(** The pages of a split after the first: each goes on from where the one
    before it ended, the strip above that point shown once more. *)
Lemma slices_overlap (n : nat) : forall i H position reached,
  (0 < n)%nat ->
  rounds n (H + position) (contentHeight pdfHeight) ->
  0 < reached -> reached <= H ->
  - (margin + position) < reached ->
  reached <= pdfHeight - margin - position ->
  overlapping reached H
    (visible pdfHeight <$> slices n i (contentWidth pdfWidth) H position
                             (contentHeight pdfHeight)).
Proof.
  pose proof content_positive as HC. unfold contentHeight, margin in HC.
  induction n as [|n IH]; intros i H pos reached Hn [Hup Hlow] Hpos HH Htop Hbottom; [lia|].
  pose proof (Hlow n eq_refl) as Hbelow.
  cbn [slices fmap list_fmap overlapping visible]. unfold visible_top, visible_bottom.
  cbn [pos_y height]. unfold margin in *.
  assert (Hmax : Qmax 0 (- (10 + pos)) < reached).
  { apply Q.max_lub_lt; lra. }
  assert (Hmin : reached <= Qmin H (pdfHeight - (10 + pos))).
  { apply Q.min_glb; lra. }
  split_and!; [done | lra | done |].
  destruct n as [|n].
  - cbn [slices fmap list_fmap overlapping]. cbn [times] in Hup.
    unfold contentHeight, margin in Hup. rewrite Q.min_l; lra.
  - pose proof (SliceFacts.times_nonneg pdfHeight content_positive n) as Hnn.
    cbn [times] in Hup, Hbelow. unfold contentHeight, margin in Hup, Hbelow, Hnn.
    apply IH; [lia | | | | |].
    + split.
      * cbn [times]. unfold contentHeight, margin. lra.
      * intros m [= <-]. unfold contentHeight, margin. lra.
    + lra.
    + apply Q.le_min_l.
    + unfold contentHeight, margin. apply Q.min_glb_lt; lra.
    + unfold contentHeight, margin.
      eapply Qle_trans; [apply Q.le_min_r | lra].
Qed.

(** X23. What the pages of a section show of its image, the page cutting
    the image at its edges. For a section of positive scaled height H that
    is at most the page height less the top margin, or more than the page
    height, the parts shown page after page begin at the top of the image
    and end at its foot, and every page after the first begins above the
    point where the page before it ended: nothing of the section is lost,
    and at every page break a strip of it is shown twice. In between, for H
    above the page height less the margin and at most the page height, the
    one page of the section shows the image down to that height only. *)
Theorem X23_what_the_pages_show (i : nat) (c : Canvas) :
  let H := scaled_height pdfWidth c in
  let parts := visible pdfHeight <$> section_placements pdfWidth pdfHeight i c in
  0 < H ->
  (H <= pdfHeight - margin \/ pdfHeight < H -> shows_all H parts)
  /\ (pdfHeight - margin < H -> H <= pdfHeight ->
      match parts with
      | [(top, bottom)] => top == 0 /\ bottom == pdfHeight - margin
      | _ => False
      end).
Proof.
  intros H parts Hpos. pose proof content_positive as HC.
  unfold contentHeight, margin in HC.
  assert (Hone : H <= pdfHeight ->
            parts = [(Qmax 0 (- margin), Qmin H (pdfHeight - margin))]).
  { intros Hle. unfold parts, section_placements. cbv zeta. fold H.
    apply Qle_bool_iff in Hle. by rewrite Hle. }
  split.
  - intros [Hshort|Hlong].
    + rewrite Hone by (unfold margin in *; lra). unfold shows_all, margin in *.
      cbn [overlapping]. rewrite Q.max_l, Q.min_l by lra. split_and!; lra.
    + unfold parts, section_placements, section_pages. cbv zeta. fold H.
      destruct (Qle_bool H pdfHeight) eqn:Hle.
      { apply Qle_bool_iff in Hle. lra. }
      pose proof (SliceFacts.ceiling_rounds pdfHeight content_positive H Hpos)
        as [Hup Hlow].
      destruct (Z.to_nat (Qceiling (H / contentHeight pdfHeight))) as [|[|n]] eqn:Hn.
      * cbn [times] in Hup. lra.
      * cbn [times] in Hup. unfold contentHeight, margin in Hup. lra.
      * pose proof (SliceFacts.times_nonneg pdfHeight content_positive n) as Hnn.
        pose proof (Hlow _ eq_refl) as Hbelow. cbn [times] in Hup, Hbelow.
        unfold contentHeight, margin in Hup, Hbelow, Hnn.
        cbn [slices fmap list_fmap shows_all visible]. unfold visible_top, visible_bottom.
        cbn [pos_y height]. unfold margin.
        assert (Hfirst : Qmin H (pdfHeight - (10 + 0)) == pdfHeight - 10).
        { rewrite Q.min_r; lra. }
        split_and!; [rewrite Q.max_l; lra | rewrite Hfirst; lra |].
        apply (slices_overlap (S n)); [lia | | | | |].
        -- split.
           ++ cbn [times]. unfold contentHeight, margin. lra.
           ++ intros m [= <-]. unfold contentHeight, margin. lra.
        -- rewrite Hfirst. lra.
        -- apply Q.le_min_l.
        -- rewrite Hfirst. unfold contentHeight, margin. lra.
        -- rewrite Hfirst. unfold contentHeight, margin. lra.
  - intros Hfoot Hle. rewrite (Hone Hle). unfold margin in *.
    rewrite Q.max_l, Q.min_r by lra. split; lra.
Qed.
End Document.

Lemma X22_witness :
  let pdfWidth := PageSample.a4_width in
  let pdfHeight := PageSample.a4_height in
  let sections := [PageSample.cover; PageSample.chapter; PageSample.long_chapter] in
  pages <$> handleDownloadPdf pdfWidth pdfHeight 100 sections
  = Some (document_pages pdfWidth pdfHeight sections)
  /\ Forall (fun pg => length pg = 1%nat)
       (if sections is [] then [] else document_pages pdfWidth pdfHeight sections)
  /\ (forall i c, sections !! i = Some c ->
        length (section_placements pdfWidth pdfHeight i c)
        = section_pages pdfWidth pdfHeight c
        /\ (0 < section_pages pdfWidth pdfHeight c)%nat).
Proof.
  apply (X22_pages_of_the_export PageSample.a4_width PageSample.a4_height).
  - vm_compute. reflexivity.
  - repeat constructor; vm_compute; lia.
Defined.

Lemma X23_witness :
  let pdfWidth := PageSample.a4_width in
  let pdfHeight := PageSample.a4_height in
  let H := scaled_height pdfWidth PageSample.long_chapter in
  shows_all H (visible pdfHeight <$> section_placements pdfWidth pdfHeight 1
                                       PageSample.long_chapter).
Proof.
  destruct (X23_what_the_pages_show PageSample.a4_width PageSample.a4_height
              ltac:(vm_compute; reflexivity) 1 PageSample.long_chapter
              ltac:(vm_compute; reflexivity)) as [Hall _].
  apply Hall. right. vm_compute. reflexivity.
Defined.

(** On the A4 page, 297 mm high: the chapter of 3000 pixels, 712.5 mm high
    once scaled, takes three pages, which show it from 0 to 287, from 267
    to 564 and from 544 to its foot; the 20 mm above each page break are
    on both pages. And the chapter of 1240 pixels, 294.5 mm high, takes one
    page, which shows it down to 287 only. *)
Example pages_of_the_sample_chapters :
  let pdfWidth := PageSample.a4_width in
  let pdfHeight := PageSample.a4_height in
  match visible pdfHeight <$> section_placements pdfWidth pdfHeight 1
                                PageSample.long_chapter with
  | [(top1, bottom1); (top2, bottom2); (top3, bottom3)] =>
      top1 == 0 /\ bottom1 == pdfHeight - 10
      /\ top2 == pdfHeight - 30 /\ bottom2 == 2 * pdfHeight - 30
      /\ top3 == 2 * pdfHeight - 50
      /\ bottom3 == scaled_height pdfWidth PageSample.long_chapter
  | _ => False
  end
  /\ match visible pdfHeight <$> section_placements pdfWidth pdfHeight 1
                                   PageSample.chapter with
     | [(top, bottom)] =>
         top == 0 /\ bottom == pdfHeight - 10
         /\ bottom < scaled_height pdfWidth PageSample.chapter
     | _ => False
     end.
Proof. vm_compute. split_and!; done. Qed.
End LayoutFacts.

(** ** X24: from the form to the book *)

Lemma skip_outline_chapter (i : nat) (item : json) : skip (outline_chapter i item) = false.
Proof. reflexivity. Qed.

Lemma round_calls_pending (bookData : BookData) (o : list Chapter) :
  Forall (fun c => skip c = false) o ->
  forall o',
  concat (imap (fun k c => round_calls bookData o' k c) o) =
  concat (imap (fun k c =>
            [CallChapterStream c (cfg_title (bd_config bookData)) (bd_config bookData)
               (prev_context o' k);
             CallIllustration (ch_title c) (cfg_style (bd_config bookData))
               (cfg_format (bd_config bookData))]) o).
Proof.
  intros Ho o'. f_equal. apply imap_ext. intros k c Hc. simpl.
  unfold round_calls. by rewrite (Forall_lookup_1 _ _ _ _ Ho Hc).
Qed.

Lemma length_concat_pairs {A B} (l : list A) : forall f g : nat -> A -> B,
  length (concat (imap (fun i c => [f i c; g i c]) l)) = 2 * length l.
Proof.
  induction l as [|x l IH]; intros f g; [done|].
  rewrite imap_cons. cbn [concat length Datatypes.app].
  change (imap ((fun i c => [f i c; g i c]) ∘ S) l)
    with (imap (fun i c => [(f ∘ S) i c; (g ∘ S) i c]) l).
  rewrite IH. lia.
Qed.

(** X24. From the form to the book, whatever fails on the way after the
    outline. With a topic, an outline answer that can be read and a full
    generation after it, the provider is called once for the outline, once
    for the cover and, for every section of the outline in order, once for
    its text and once for its illustration, so [2 + 2 * n] times for [n]
    sections; the application ends [COMPLETED] with a project of [n]
    sections. *)
Theorem X24_from_the_form_to_the_book (JSON_parse : string -> option json)
    (strip_fences : string -> string) (P P2 : Provider) (config : BookConfig)
    (data : json) (items : list json) :
  cfg_topic config <> "" ->
  outline_data JSON_parse strip_fences P = Normal data ->
  prop "chapters" data = Some (JArr items) ->
  let w := perform_all JSON_parse strip_fences
             [ChangeConfig config; StartOutline P; StartFullGeneration P2] initial_world in
  let bookData := outline_project config P data items in
  let title := cfg_title (bd_config bookData) in
  let style := cfg_style config in
  let format := cfg_format config in
  app_status (app w) = COMPLETED
  /\ calls (log w) =
     CallOutline config :: CallCover title style format
     :: concat (imap (fun i c =>
                  [CallChapterStream c title (bd_config bookData)
                     (prev_context (bd_outline bookData) i);
                   CallIllustration (ch_title c) style format])
                  (bd_outline bookData))
  /\ length (calls (log w)) = 2 + 2 * length items
  /\ (length <$> (bd_outline <$> app_bookData (app w))) = Some (length items).
Proof.
  intros Htopic Hdata Hitems w bookData title style format.
  set (w0 := exec (handleConfigChange config) initial_world).
  assert (Hcfg : app_config (app w0) = config) by reflexivity.
  set (w1 := exec (startOutlineGeneration JSON_parse strip_fences P) w0).
  assert (Hw : w = exec (startFullGeneration P2) w1) by reflexivity.
  pose proof (startOutlineGeneration_success JSON_parse strip_fences P w0 data items) as Hout.
  rewrite Hcfg in Hout. specialize (Hout Htopic Hdata Hitems). fold bookData in Hout.
  assert (Hb1 : app_bookData (app w1) = Some bookData).
  { unfold w1, exec. by rewrite Hout. }
  assert (Hcalls1 : calls (log w1) = [CallOutline config]).
  { unfold w1, exec. by rewrite Hout. }
  destruct (run_summary P2 w1 bookData Hb1)
    as (_ & Hst & _ & _ & _ & Hbook & _ & _ & _ & Hlog).
  cbv zeta in Hst, Hbook, Hlog. rewrite <- Hw in Hst, Hbook, Hlog.
  assert (Hpending : Forall (fun c => skip c = false) (bd_outline bookData)).
  { apply Forall_lookup. intros i c. unfold bookData, outline_project. simpl.
    rewrite list_lookup_imap. destruct (items !! i); [|done]. by intros [= <-]. }
  assert (Hcalls : calls (log w) =
     CallOutline config :: CallCover title style format
     :: concat (imap (fun i c =>
                  [CallChapterStream c title (bd_config bookData)
                     (prev_context (bd_outline bookData) i);
                   CallIllustration (ch_title c) style format])
                  (bd_outline bookData))).
  { rewrite Hlog, calls_app, Hcalls1, calls_run_events.
    rewrite loop_calls_concat by done. rewrite drop_0.
    rewrite (round_calls_pending bookData _ Hpending). reflexivity. }
  split_and!.
  - done.
  - done.
  - rewrite Hcalls. cbn [length]. rewrite length_concat_pairs.
    unfold bookData, outline_project. cbn [bd_outline]. by rewrite length_imap.
  - rewrite Hbook. simpl. f_equal.
    rewrite <- (length_fmap skeleton), finish_skeleton, length_fmap. apply length_imap.
Qed.

Lemma X24_witness :
  let w := perform_all Sample.parse Sample.strip
             [ChangeConfig Sample.config; StartOutline Sample.provider;
              StartFullGeneration Sample.provider_without_key] initial_world in
  let bookData := outline_project Sample.config Sample.provider Fixture.three_sections
                    Fixture.three_items in
  let title := cfg_title (bd_config bookData) in
  let style := cfg_style Sample.config in
  let format := cfg_format Sample.config in
  app_status (app w) = COMPLETED
  /\ calls (log w) =
     CallOutline Sample.config :: CallCover title style format
     :: concat (imap (fun i c =>
                  [CallChapterStream c title (bd_config bookData)
                     (prev_context (bd_outline bookData) i);
                   CallIllustration (ch_title c) style format])
                  (bd_outline bookData))
  /\ length (calls (log w)) = 2 + 2 * length Fixture.three_items
  /\ (length <$> (bd_outline <$> app_bookData (app w))) = Some (length Fixture.three_items).
Proof.
  apply (X24_from_the_form_to_the_book Sample.parse Sample.strip Sample.provider
           Sample.provider_without_key Sample.config Fixture.three_sections
           Fixture.three_items).
  - discriminate.
  - vm_compute. reflexivity.
  - vm_compute. reflexivity.
Defined.

(** ** X25: the name of the exported file *)

Module FileNameFacts.
Import FileName.

Ltac compare_units :=
  repeat match goal with
         | |- context [(?a <=? ?b)%N] => destruct (N.leb_spec a b)
         | |- context [(?a =? ?b)%N] => destruct (N.eqb_spec a b)
         | H : context [(?a <=? ?b)%N] |- _ => destruct (N.leb_spec a b)
         | H : context [(?a =? ?b)%N] |- _ => destruct (N.eqb_spec a b)
         end;
  simpl in *; try done; try lia.

Lemma lower_plain (u : N) :
  plain (lower (if alphanumeric u then u else underscore)) = true.
Proof. unfold plain, lower, alphanumeric, underscore. compare_units. Qed.

Lemma lower_fixed (u : N) :
  plain u = true -> lower (if alphanumeric u then u else underscore) = u.
Proof. unfold plain, lower, alphanumeric, underscore. intros Hu. compare_units. Qed.

(** X25. The name under which the document is saved: the title with every
    UTF-16 code unit that is not a letter or a digit of ASCII replaced by an
    underscore and the letters in lower case, followed by [.pdf]. Whatever
    the title, the stem has as many code units as the title and holds
    nothing but lower-case letters, digits and underscores; there is an
    underscore wherever the title has another unit; and a title that holds
    nothing but lower-case letters, digits and underscores is kept as it
    is. *)
Theorem X25_name_of_the_exported_file (title : JsString) :
  let stem := toLowerCase (replace_others title) in
  pdf_name title = stem ++ of_ascii ".pdf"
  /\ length stem = length title
  /\ all_plain stem = true
  /\ (forall k u, title !! k = Some u -> alphanumeric u = false ->
        stem !! k = Some underscore)
  /\ (all_plain title = true -> stem = title).
Proof.
  intros stem. unfold stem, toLowerCase, replace_others. split_and!.
  - done.
  - by rewrite !length_fmap.
  - induction title as [|u title IH]; [done|].
    cbn [fmap list_fmap all_plain forallb]. rewrite lower_plain. exact IH.
  - intros k u Hk Hu. unfold JsString in *. rewrite !list_lookup_fmap, Hk. simpl.
    by rewrite Hu.
  - induction title as [|u title IH]; [done|].
    cbn [fmap list_fmap all_plain forallb]. intros [Hu Ht]%andb_true_iff.
    rewrite lower_fixed by done. f_equal. by apply IH.
Qed.

(** The title of a book and the name of its file. *)
Example name_of_a_title :
  pdf_name (of_ascii "Ma Vie: 2024!") = of_ascii "ma_vie__2024_.pdf".
Proof. reflexivity. Qed.

(** A title with an accent, [Café au lait]: the accented letter is one
    code unit, 233, and gives one underscore. *)
Example name_of_a_title_with_an_accent :
  pdf_name ([67; 97; 102; 233] ++ of_ascii " au lait")%N = of_ascii "caf__au_lait.pdf".
Proof. reflexivity. Qed.

(** A title that ends with a character outside the basic plane, U+1F600:
    its two surrogates give two underscores. *)
Example name_of_a_title_with_a_surrogate_pair :
  pdf_name (of_ascii "Joy " ++ [55357; 56832])%N = of_ascii "joy___.pdf".
Proof. reflexivity. Qed.
End FileNameFacts.

(** ** X26: the scale of a figure *)

Module FigureFacts.
Import Figure.
Local Open Scope Q_scope.

Lemma use_in_range (c : Control) (scale : Q) :
  1 # 2 <= scale <= 4 -> 1 # 2 <= use c scale <= 4.
Proof.
  intros [Hlo Hhi]. destruct c as [[] deltaY| | |]; simpl.
  - split; [apply Q.min_glb; [apply Q.le_max_l | lra] | apply Q.le_min_r].
  - done.
  - unfold zoomIn. split; [apply Q.min_glb; lra | apply Q.le_min_r].
  - unfold zoomOut. split; [apply Q.le_max_r | apply Q.max_lub; lra].
  - unfold resetView. lra.
Qed.

(** X26. The scale of a figure starts at 1 and, whatever series of wheel
    turns and button presses follows, stays between one half and four. *)
Theorem X26_scale_stays_in_range (cs : list Control) :
  1 # 2 <= scale_after cs <= 4.
Proof.
  unfold scale_after.
  assert (Hstart : 1 # 2 <= 1 <= 4) by lra. revert Hstart. generalize 1 as scale.
  induction cs as [|c cs IH]; intros scale Hs; [done|].
  simpl. apply IH. by apply use_in_range.
Qed.
End FigureFacts.

(** ** X27: the credential that is saved is the credential that is used *)

Module ApiKeyModalFacts.
Import ApiKeyModal.

(** X27. After the dialog saves a key that is not blank, the client takes
    the key, trimmed, whatever the environment provides; the other entries of
    the storage are left alone. After it saves a blank key nothing is stored
    any more, and the client takes the key of the environment, raising the
    missing-credential error when there is none. *)
Theorem X27_saved_key_is_the_credential (trim : string -> string) (key : string)
    (localStorage : gmap string string) (env : option string) (P : Provider) :
  let localStorage' := handleSave trim key localStorage in
  let P' := with_apiKey (stored_apiKey localStorage' env) P in
  (trim key <> "" -> apiKey P' = Some (trim key) /\ getClient P' = Normal tt)
  /\ (trim key = "" ->
      localStorage' !! STORAGE_KEY = None
      /\ apiKey P' = env
      /\ (truthy env = false -> getClient P' = Throw API_KEY_MISSING))
  /\ (forall k, k <> STORAGE_KEY -> localStorage' !! k = localStorage !! k).
Proof.
  intros localStorage' P'. unfold P', localStorage', handleSave, stored_apiKey, getClient.
  cbn [with_apiKey apiKey]. split_and!.
  - intros Hkey. apply String.eqb_neq in Hkey as Hneq. rewrite Hneq. cbn [negb].
    rewrite lookup_insert_eq. cbn [truthy]. rewrite Hneq. cbn [negb]. split; [done|].
    cbn [truthy]. by rewrite Hneq.
  - intros Hkey. rewrite Hkey. cbn [String.eqb negb]. rewrite lookup_delete_eq.
    cbn [truthy]. split_and!; [done | done |]. by intros ->.
  - intros k Hk. destruct (negb _).
    + by rewrite lookup_insert_ne.
    + by rewrite lookup_delete_ne.
Qed.

Lemma X27_witness :
  let trim := fun s : string => s in
  let localStorage' := handleSave trim "AIza-123" ∅ in
  let P' := with_apiKey (stored_apiKey localStorage' None) Sample.provider_without_key in
  (trim "AIza-123" <> "" -> apiKey P' = Some (trim "AIza-123") /\ getClient P' = Normal tt)
  /\ (trim "AIza-123" = "" ->
      localStorage' !! STORAGE_KEY = None
      /\ apiKey P' = None
      /\ (truthy None = false -> getClient P' = Throw API_KEY_MISSING))
  /\ (forall k, k <> STORAGE_KEY -> localStorage' !! k = (∅ : gmap string string) !! k).
Proof.
  apply (X27_saved_key_is_the_credential (fun s => s) "AIza-123" ∅ None
           Sample.provider_without_key).
Defined.
End ApiKeyModalFacts.

(** ** X28: the image of an answer *)

(** X28. With a credential, the image taken from an answer is the first
    part that carries inline data, as a data URL of its type and data; the
    parts before it carry none and the parts after it are not looked at.
    When no part carries inline data the call fails with
    [No image generated]. Without a credential no answer is looked at. *)
Theorem X28_first_inline_part_is_the_image (P : Provider)
    (parts : list (option InlineData)) :
  (truthy (apiKey P) = true ->
   (forall before d after,
      parts = before ++ Some d :: after -> Forall (fun p => p = None) before ->
      generateImage P (Normal parts)
      = Normal ("data:" +:+ mimeType d +:+ ";base64," +:+ data d))
   /\ (Forall (fun p => p = None) parts ->
       generateImage P (Normal parts) = Throw "No image generated"))
  /\ (truthy (apiKey P) = false ->
      forall answer, generateImage P answer = Throw API_KEY_MISSING).
Proof.
  unfold generateImage, getClient. split.
  - intros ->. split.
    + intros before d after -> Hbefore.
      induction Hbefore as [|p before -> _ IH]; [done | exact IH].
    + intros Hnone. induction Hnone as [|p ps -> _ IH]; [done | exact IH].
  - by intros ->.
Qed.

Lemma X28_witness :
  let P := Sample.provider in
  let parts := Sample.picture ++ [Some (mkInlineData "image/jpeg" "AAAA")] in
  (truthy (apiKey P) = true ->
   (forall before d after,
      parts = before ++ Some d :: after -> Forall (fun p => p = None) before ->
      generateImage P (Normal parts)
      = Normal ("data:" +:+ mimeType d +:+ ";base64," +:+ data d))
   /\ (Forall (fun p => p = None) parts ->
       generateImage P (Normal parts) = Throw "No image generated"))
  /\ (truthy (apiKey P) = false ->
      forall answer, generateImage P answer = Throw API_KEY_MISSING).
Proof.
  apply (X28_first_inline_part_is_the_image Sample.provider
           (Sample.picture ++ [Some (mkInlineData "image/jpeg" "AAAA")])).
Defined.

(** ** X29: the title set in the review *)

Lemma handleTitleChange_eq (value : string) (w : World) (bookData : BookData) :
  app_bookData (app w) = Some bookData ->
  let b := Some (with_config (with_cfg_title value (bd_config bookData)) bookData) in
  handleTitleChange value w =
  (Normal tt, mkWorld (store_bookData b (app w)) (frame w) (log w ++ [Published b])).
Proof.
  intros Hb b. unfold handleTitleChange.
  rewrite (with_bookData_some _ w bookData Hb). apply setBookData_const.
Qed.

(** X29. The title set in the review is the title of the book from then
    on: a run after it asks for the cover, when there is none, and for the
    text of every section that is not skipped under that title, also when
    it is empty, and leaves it in the configuration of the project. *)
Theorem X29_review_title_is_the_title_of_the_book (P : Provider) (w : World)
    (bookData : BookData) (value : string) :
  app_bookData (app w) = Some bookData ->
  let w1 := exec (handleTitleChange value) w in
  let w2 := exec (startFullGeneration P) w1 in
  let config := with_cfg_title value (bd_config bookData) in
  calls (log w2) =
  calls (log w)
  ++ (if truthy (bd_coverImage bookData) then []
      else [CallCover value (cfg_style config) (cfg_format config)])
  ++ concat (imap (fun i c =>
       if skip c then []
       else [CallChapterStream c value config (prev_context (bd_outline bookData) i);
             CallIllustration (ch_title c) (cfg_style config) (cfg_format config)])
       (bd_outline bookData))
  /\ (bd_config <$> app_bookData (app w2)) = Some config.
Proof.
  intros Hb w1 w2 config.
  pose proof (handleTitleChange_eq value w bookData Hb) as Heq. cbv zeta in Heq.
  set (bookData1 := with_config config bookData).
  assert (Hb1 : app_bookData (app w1) = Some bookData1).
  { unfold w1, exec. by rewrite Heq. }
  assert (Hcalls1 : calls (log w1) = calls (log w)).
  { unfold w1, exec. rewrite Heq. simpl. rewrite calls_app. simpl. by rewrite app_nil_r. }
  destruct (run_summary P w1 bookData1 Hb1) as (_ & _ & _ & _ & _ & Hbook & _ & _ & _ & Hlog).
  cbv zeta in Hbook, Hlog. fold w2 in Hbook, Hlog. split.
  - rewrite Hlog, calls_app, Hcalls1, calls_run_events.
    rewrite loop_calls_concat by done. rewrite drop_0. reflexivity.
  - rewrite Hbook. simpl. f_equal. by rewrite cover_book_config.
Qed.

Lemma X29_witness :
  let P := Sample.provider in
  let w := Sample.reviewing in
  let bookData := Sample.project in
  let w1 := exec (handleTitleChange "Another Title") w in
  let w2 := exec (startFullGeneration P) w1 in
  let config := with_cfg_title "Another Title" (bd_config bookData) in
  calls (log w2) =
  calls (log w)
  ++ (if truthy (bd_coverImage bookData) then []
      else [CallCover "Another Title" (cfg_style config) (cfg_format config)])
  ++ concat (imap (fun i c =>
       if skip c then []
       else [CallChapterStream c "Another Title" config
               (prev_context (bd_outline bookData) i);
             CallIllustration (ch_title c) (cfg_style config) (cfg_format config)])
       (bd_outline bookData))
  /\ (bd_config <$> app_bookData (app w2)) = Some config.
Proof.
  apply (X29_review_title_is_the_title_of_the_book Sample.provider Sample.reviewing
           Sample.project "Another Title").
  vm_compute. reflexivity.
Defined.

(** ** X30: the plan of the project in the states of a run *)

(** X30. The outline of every state that an outline update of a run returns
    has the sections of the project the run was started on, by identifier,
    title and description and in the same order, whenever React renders and
    whatever else sets the project in between. When nothing else sets it,
    every state of the project that React is given or shows during the run,
    and the one it holds at the end, is a project with those sections, the
    same configuration and the same creation date. *)
Theorem X30_states_of_a_run_keep_the_plan (sch : Scheduled.Schedule) (P : Provider)
    (bookData : BookData) :
  let s := Scheduled.run sch P (Some bookData) in
  Forall (fun o => skeleton <$> o = skeleton <$> bd_outline bookData)
    (Scheduled.outlines (Scheduled.seen s))
  /\ (Scheduled.calm sch ->
      Forall (same_plan bookData) (Scheduled.states (Scheduled.seen s))
      /\ same_plan bookData (Scheduled.current s)).
Proof.
  cbv zeta. pose proof (ScheduleFacts.run_planned sch P bookData) as Hplan.
  split; [exact Hplan|]. intros Hcalm.
  destruct (ScheduleFacts.run_undisturbed sch bookData Hcalm P) as (Hcur & _ & Hseen).
  assert (Hsame : forall b,
            Schedules.kept bookData
              (Scheduled.outlines (Scheduled.seen (Scheduled.run sch P (Some bookData)))) b ->
            same_plan bookData b).
  { intros b (bd & -> & Hc & Hd & Ho). exists bd. split_and!; [done | | done | done].
    destruct Ho as [->|Ho]; [done|].
    by apply (proj1 (Forall_forall _ _) Hplan). }
  split; [|by apply Hsame].
  eapply Forall_impl; [exact Hseen | exact Hsame].
Qed.

Lemma X30_witness :
  let s := Scheduled.run Scheduled.every_await Sample.provider_broken_stream
             (Some Sample.project) in
  Forall (fun o => skeleton <$> o = skeleton <$> bd_outline Sample.project)
    (Scheduled.outlines (Scheduled.seen s))
  /\ Forall (same_plan Sample.project) (Scheduled.states (Scheduled.seen s))
  /\ same_plan Sample.project (Scheduled.current s).
Proof.
  destruct (X30_states_of_a_run_keep_the_plan Scheduled.every_await
              Sample.provider_broken_stream Sample.project) as [Hplan Hcalm].
  split; [exact Hplan|]. apply Hcalm. intros n. by repeat constructor.
Defined.

(** A click on Reset while the cover is awaited: the run goes on to its
    end, calling the provider for every section, but every update it
    queues afterwards returns no project, and none is left at the end. *)
Example reset_does_not_stop_the_run :
  let s := Scheduled.run (Scheduled.reset_during 0) Sample.provider (Some Sample.project) in
  Scheduled.current s = None
  /\ Forall (fun b => b = None) (Scheduled.states (Scheduled.seen s))
  /\ length (omap (fun o => match o with
                            | Scheduled.Did (Called c) => Some c
                            | _ => None
                            end) (Scheduled.seen s)) = 7.
Proof. vm_compute. split_and!; [done | by repeat constructor | done]. Qed.

(** Another project is set while the cover is awaited, as when the user
    resets, asks for another outline and gets it before the cover call
    returns: the run goes on writing the sections of its own project, and
    the other project ends with them as its outline. *)
Example run_writes_into_another_project :
  let other := mkBookData (with_cfg_title "Another Title" Sample.config) None
                 [mkChapter "chap-0" "Elsewhere" "About elsewhere" None None pending]
                 1800000000%Z in
  let s := Scheduled.run (Scheduled.set_during 0 (fun _ => Some other)) Sample.provider
             (Some Sample.project) in
  (bd_config <$> Scheduled.current s) = Some (bd_config other)
  /\ (bd_generatedAt <$> Scheduled.current s) = Some 1800000000%Z
  /\ (map ch_title <$> (bd_outline <$> Scheduled.current s))
     = Some ["One"; "Two"; "Three"]
  /\ (map ch_status <$> (bd_outline <$> Scheduled.current s))
     = Some [completed; completed; completed].
Proof. vm_compute. done. Qed.
